(** * Call-admission wrappers of the cloud-native stability patterns

    A shallow embedding of the Go packages [retry], [circuitbreaker],
    [throttle], [debounce] and [timeout], and the properties of their
    wrappers.

    Conventions of the embedding.
    - Go's [int] and [uint] are 64 bits wide; they are integers of [Z]
      with the wrap-around of every arithmetic operation written out.
    - [time.Duration] is an [int64] count of nanoseconds.  [time.Time] is
      an instant on the nanosecond line that starts at the zero [Time];
      the library's range of instants is far wider than any [Duration], so
      [Add], [After] and [Before] are exact on instants.
    - A wrapped operation is a function of the context it is given and of
      the world it runs in; it returns its [(string, error)] pair and the
      world it leaves.  The world carries the clock, so the time an
      operation takes is the difference of the clocks; the statements of
      a wrapper itself take no time.
    - Each wrapper counts, in a ghost field of its outcome, how often it
      called the wrapped operation.
    - A panic is an ending of its own, never a returned pair: [None], or
      a constructor that says so.
    - [Breaker], [Throttle] and [DebounceFirst] are given as the function
      one call computes from the captured variables; the parts a lock
      makes atomic are separate definitions, so that interleavings of
      several callers can be composed from them.  [DebounceLast] and the
      two timeouts, whose behaviour is a race, are given by the atomic
      steps of their goroutines and by the instants at which the cases of
      their [select] become ready. *)

From Stdlib Require Import ZArith List String Bool Lia Permutation.
Import ListNotations.
Local Open Scope Z_scope.

(** ** Machine integers, instants and errors *)

Module golang.

Definition int_min : Z := - 2 ^ 63.
Definition int_max : Z := 2 ^ 63 - 1.
Definition uint_max : Z := 2 ^ 64 - 1.

(** Reduction of an integer to the two's complement range of [int]. *)
Definition wrap_int (z : Z) : Z := (z + 2 ^ 63) mod 2 ^ 64 - 2 ^ 63.

(** Reduction of an integer to the range of [uint]. *)
Definition wrap_uint (z : Z) : Z := z mod 2 ^ 64.

Definition is_int (z : Z) : Prop := int_min <= z <= int_max.
Definition is_uint (z : Z) : Prop := 0 <= z <= uint_max.

Definition int_add (a b : Z) : Z := wrap_int (a + b).
Definition int_sub (a b : Z) : Z := wrap_int (a - b).
Definition int_mul (a b : Z) : Z := wrap_int (a * b).

(** [a << n] on a 64-bit signed operand, for a shift count [0 <= n]
    (a negative count panics; every use below is guarded). *)
Definition int_shl (a n : Z) : Z := wrap_int (Z.shiftl a n).

Definition uint_add (a b : Z) : Z := wrap_uint (a + b).
Definition uint_sub (a b : Z) : Z := wrap_uint (a - b).

(** [time.Duration]: nanoseconds in an [int64]. *)
Definition Duration : Type := Z.
Definition Second : Duration := 1000000000.

(** [time.Time]: nanoseconds since the zero [Time]. *)
Definition Time : Type := Z.
Definition zero_time : Time := 0.
Definition Add (t : Time) (d : Duration) : Time := t + d.
Definition After (t u : Time) : bool := u <? t.
Definition Before (t u : Time) : bool := t <? u.

(** Error values: the sentinels of the packages, the two errors of
    [context], and any other error of a wrapped operation. *)
Inductive error : Type :=
| ErrServiceUnavailable
| Canceled
| DeadlineExceeded
| Errorf (msg : string)
| Upstream (code : nat).

(** The [(string, error)] pair of an operation; [None] is the nil error. *)
Definition result : Type := (string * option error)%type.

Definition is_nil (e : option error) : bool :=
  match e with None => true | Some _ => false end.

(** A [context.Context] whose lifetime is fixed by its owner: it is done
    from [done_at] on (never, when [None]) and reports [done_err] then. *)
Record Context : Type := mkContext {
  done_at : option Time;
  done_err : error
}.

Definition Background : Context :=
  {| done_at := None; done_err := Canceled |}.

(** [ctx.Err()] read at the instant [now]. *)
Definition Err (ctx : Context) (now : Time) : option error :=
  match done_at ctx with
  | Some t => if t <=? now then Some (done_err ctx) else None
  | None => None
  end.

(** An operation [func(context.Context) (string, error)] acting on a
    world of type [W]. *)
Definition Operation (W : Type) : Type := Context -> W -> result * W.

(** What a call of a wrapper leaves behind: the pair it returns, the
    world, and the number of calls it made to the wrapped operation. *)
Record Outcome (W : Type) : Type := mkOutcome {
  ret : result;
  world : W;
  invoked : nat
}.
Arguments mkOutcome {W} _ _ _.
Arguments ret {W} _.
Arguments world {W} _.
Arguments invoked {W} _.

End golang.
Import golang.

(** ** Package retry *)

Module retry.
Section Retry.
Context {W : Type}.

Definition Effector : Type := Operation W.

(** One line of [log.Printf("Attempt %d failed; retrying in %v", r+1, delay)]. *)
Definition LogLine : Type := (Z * Duration)%type.

(** The [for r := 0; ; r++] loop of [Retry], entered with counter [r];
    [fuel] bounds the iterations the model unrolls and [None] means the
    bound was reached before the loop returned. *)
Fixpoint loop (effector : Effector) (maxRetries : Z) (delay : Duration)
    (ctx : Context) (fuel : nat) (r : Z) (w : W) (calls : nat)
    (logs : list LogLine) : option (Outcome W * list LogLine) :=
  match fuel with
  | O => None
  | S fuel' =>
      let '((response, err), w') := effector ctx w in
      if negb (is_nil err) || (maxRetries <=? r) then
        Some (mkOutcome (response, err) w' (S calls), logs)
      else
        loop effector maxRetries delay ctx fuel'
             (int_add r 1) w' (S calls) (logs ++ [(int_add r 1, delay)])
  end.

(** [Retry(effector, maxRetries, delay)] called with [ctx]. *)
Definition Retry (effector : Effector) (maxRetries : Z) (delay : Duration)
    (ctx : Context) (fuel : nat) (w : W) : option (Outcome W * list LogLine) :=
  loop effector maxRetries delay ctx fuel 0 w 0%nat [].

(** The world after [n] successive calls of the effector. *)
Fixpoint after_calls (effector : Effector) (ctx : Context) (n : nat) (w : W) : W :=
  match n with
  | O => w
  | S n' => after_calls effector ctx n' (snd (effector ctx w))
  end.

(** The effector returns a nil error in every world. *)
Definition never_fails (effector : Effector) (ctx : Context) : Prop :=
  forall w, snd (fst (effector ctx w)) = None.

(** The effector returns a non-nil error in every world. *)
Definition always_fails (effector : Effector) (ctx : Context) : Prop :=
  forall w, snd (fst (effector ctx w)) <> None.

End Retry.

(** An effector over a call counter: it answers [outcome n] at its
    [n]-th call (counted from 0). *)
Definition scripted (outcome : nat -> result) : Operation nat :=
  fun _ n => (outcome n, S n).

(** Fails at its first [k] calls, succeeds from then on. *)
Definition fails_first (k : nat) : Operation nat :=
  scripted (fun n => if (n <? k)%nat then (""%string, Some (Upstream n))
                     else ("ok"%string, None)).

(** Fails at every call. *)
Definition failing : Operation nat :=
  scripted (fun n => (""%string, Some (Upstream n))).

End retry.

(** ** A small clocked world for concrete runs *)

Module examples.

(** The clock and the number of calls the operation has served. *)
Record World : Type := mkWorld { now : Time; served : nat }.

(** An operation that takes [took] nanoseconds and answers [answer n] at
    its [n]-th call. *)
Definition op (took : Duration) (answer : nat -> result) : Operation World :=
  fun _ w => (answer (served w), mkWorld (Add (now w) took) (S (served w))).

Definition ok_answer (n : nat) : result := ("ok"%string, None).
Definition bad_answer (n : nat) : result := ("partial"%string, Some (Upstream n)).

(** Time passing between two calls. *)
Definition sleep (d : Duration) (w : World) : World :=
  mkWorld (Add (now w) d) (served w).

End examples.

(** ** Package circuitbreaker *)

Module circuitbreaker.
Section Breaker.
Context {W : Type}.
Variable clock : W -> Time.

Definition Circuit : Type := Operation W.

(** The variables [failures] and [last] captured by the closure. *)
Record State : Type := mkState { failures : Z; last : Time }.

Definition init : State := {| failures := 0; last := zero_time |}.

(** The section under the read lock: [true] when the call is turned away.
    [d] is an [int]; [(2 << d) * time.Second] is a [Duration], so the shift
    and the product are taken in 64 bits. *)
Definition blocked (threshold : Z) (st : State) (now : Time) : bool :=
  let d := int_sub (failures st) threshold in
  if 0 <=? d then
    let shouldRetryAt := Add (last st) (int_mul (int_shl 2 d) Second) in
    negb (After now shouldRetryAt)
  else false.

(** The section under the write lock, after the circuit returned [err]
    at the instant [now]. *)
Definition settle (st : State) (now : Time) (err : option error) : State :=
  let st1 := {| failures := failures st; last := now |} in
  match err with
  | Some _ => {| failures := int_add (failures st1) 1; last := last st1 |}
  | None => {| failures := 0; last := last st1 |}
  end.

(** One call of [Breaker(circuit, threshold)] that runs alone. *)
Definition Breaker (circuit : Circuit) (threshold : Z) (st : State)
    (ctx : Context) (w : W) : Outcome W * State :=
  if blocked threshold st (clock w) then
    (mkOutcome (""%string, Some ErrServiceUnavailable) w 0, st)
  else
    let '((response, err), w') := circuit ctx w in
    let st' := settle st (clock w') err in
    match err with
    | Some e => (mkOutcome (response, Some e) w' 1, st')
    | None => (mkOutcome (response, None) w' 1, st')
    end.

(** [n] callers that passed the read-locked section together and whose
    circuits all failed, taking the write lock one after the other at the
    instant [now]. *)
Fixpoint settle_failures (n : nat) (st : State) (now : Time) (e : error) : State :=
  match n with
  | O => st
  | S n' => settle_failures n' (settle st now (Some e)) now e
  end.

End Breaker.

(** The cool-down in the words of the specification:
    [2^(failures - threshold + 1)] seconds. *)
Definition cooldown_spec (failures threshold : Z) : Z :=
  2 ^ (failures - threshold + 1) * Second.

(** The instant up to which the specification keeps the circuit open. *)
Definition open_until_spec (threshold : Z) (st : State) : Z :=
  last st + cooldown_spec (failures st) threshold.

End circuitbreaker.

(** ** Package throttle *)

Module throttle.
Section Throttle.
Context {W : Type}.
Variable clock : W -> Time.

Definition Effector : Type := Operation W.

(** The captured variables: the token count (a [uint]), whether the
    [sync.Once] has fired, and the refill goroutine: [Some ctx] while it
    runs, bound to the context of the call that started it. *)
Record State : Type := mkState {
  tokens : Z;
  once : bool;
  refill_loop : option Context
}.

(** [tokens = max]; nothing started yet. *)
Definition init (max : Z) : State :=
  {| tokens := max; once := false; refill_loop := None |}.

(** How a call ends: it returns, or it panics. *)
Inductive Ending : Type :=
| Returned (o : Outcome W)
| Panicked.

(** The calls of the effector a call made. *)
Definition calls (e : Ending) : nat :=
  match e with
  | Returned o => invoked o
  | Panicked => 0%nat
  end.

(** [once.Do(...)]: the first call makes the ticker and starts the refill
    goroutine with its own context; later calls do nothing here.
    [time.NewTicker(d)] panics for [d <= 0]; the panic leaves the
    [sync.Once] done, so that the function is never run again, and no
    goroutine started.  The second component tells whether it
    panicked. *)
Definition once_do (d : Duration) (st : State) (ctx : Context) : State * bool :=
  if once st then (st, false)
  else if d <=? 0 then
    ({| tokens := tokens st; once := true; refill_loop := None |}, true)
  else
    ({| tokens := tokens st; once := true; refill_loop := Some ctx |}, false).

(** The [ticker.C] case of the refill goroutine. *)
Definition tick (max refill : Z) (st : State) : State :=
  match refill_loop st with
  | Some _ =>
      let t := Z.min (uint_add (tokens st) refill) max in
      {| tokens := t; once := once st; refill_loop := refill_loop st |}
  | None => st
  end.

(** The [ctx.Done()] case of the refill goroutine, taken at [now]. *)
Definition stop (st : State) (now : Time) : State :=
  match refill_loop st with
  | Some c =>
      if is_nil (Err c now) then st
      else {| tokens := tokens st; once := once st; refill_loop := None |}
  | None => st
  end.

(** One call of [Throttle(effector, max, refill, d)].  A panic of
    [time.NewTicker] unwinds the call before the mutex is taken: no token
    is paid and the effector is not called. *)
Definition Throttle (effector : Effector) (max refill : Z) (d : Duration)
    (st : State) (ctx : Context) (w : W) : Ending * State :=
  if negb (is_nil (Err ctx (clock w))) then
    (Returned (mkOutcome (""%string, Err ctx (clock w)) w 0), st)
  else
    let '(st1, panic) := once_do d st ctx in
    if panic then (Panicked, st1)
    else if tokens st1 <=? 0 then
      (Returned (mkOutcome (""%string, Some (Errorf "too many calls")) w 0),
       st1)
    else
      let st2 := {| tokens := uint_sub (tokens st1) 1;
                    once := once st1; refill_loop := refill_loop st1 |} in
      let '(r, w') := effector ctx w in
      (Returned (mkOutcome r w' 1), st2).

(** The states of one instance: calls, ticks and the end of the refill
    goroutine, in any order and at any instants.  A call that panicked
    counts too: its caller may recover and the instance be called
    again. *)
Inductive reachable (effector : Effector) (max refill : Z) (d : Duration)
  : State -> Prop :=
| reach_init : reachable effector max refill d (init max)
| reach_call st ctx w :
    reachable effector max refill d st ->
    reachable effector max refill d
              (snd (Throttle effector max refill d st ctx w))
| reach_tick st :
    reachable effector max refill d st ->
    reachable effector max refill d (tick max refill st)
| reach_stop st now :
    reachable effector max refill d st ->
    reachable effector max refill d (stop st now).

End Throttle.
End throttle.

(** ** Package debounce *)

Module debounce.
Section DebounceFirst.
Context {W : Type}.
Variable clock : W -> Time.

Definition Circuit : Type := Operation W.

(** The captured variables of [DebounceFirst]. *)
Record FirstState : Type := mkFirstState {
  threshold : Time;
  result : string;
  err : option error
}.

(** The zero values of the three variables. *)
Definition first_init : FirstState :=
  {| threshold := zero_time; result := ""%string; err := None |}.

(** One call of [DebounceFirst(circuit, d)]; the mutex is held from the
    first line to the return. *)
Definition DebounceFirst (circuit : Circuit) (d : Duration) (st : FirstState)
    (ctx : Context) (w : W) : Outcome W * FirstState :=
  if Before (clock w) (threshold st) then
    (mkOutcome (result st, err st) w 0, st)
  else
    let '((result', err'), w') := circuit ctx w in
    let st' := {| threshold := Add (clock w') d;
                  result := result'; err := err' |} in
    (mkOutcome (result st', err st') w' 1, st').

(** The states of one instance, each with the pair of the most recent
    call that ran the circuit ([None] before the first one).  Calls are
    made at instants of the clock, none of which precedes the zero
    [Time]. *)
Inductive first_reachable (circuit : Circuit) (d : Duration)
  : FirstState -> option golang.result -> Prop :=
| first_reach_init : first_reachable circuit d first_init None
| first_reach_call st h ctx w :
    first_reachable circuit d st h ->
    zero_time <= clock w ->
    first_reachable circuit d
      (snd (DebounceFirst circuit d st ctx w))
      (match invoked (fst (DebounceFirst circuit d st ctx w)) with
       | O => h
       | S _ => Some (ret (fst (DebounceFirst circuit d st ctx w)))
       end).

End DebounceFirst.

(** *** DebounceLast

    Concurrent callers, a timer goroutine and shared variables: the
    wrapper is modelled by the atomic steps of its goroutines, run in the
    order a schedule gives.  Every call allocates one derived context,
    one timer and one result channel; all three carry the index of the
    call.  The locked section of a call is one step.  The [select] of a
    call is two steps, the evaluation of its channel expressions and its
    completion, and each reads the captured variable [cctx] as it is
    when the step runs: the closure shares [cctx] between all calls, and
    the caller reads it after it has released the mutex.  The circuit
    answers at once. *)

Section DebounceLast.

(** A [*time.Timer] made by [time.AfterFunc]. *)
Inductive TimerState : Type :=
| Pending (deadline : Time)
| Stopped
| Fired.

(** Where the goroutine of a call stands: past the locked section,
    blocked in the [select] on the [Done] channel of the derived context
    [done_of], or returned. *)
Inductive CallStatus : Type :=
| Entered
| Waiting (done_of : nat)
| Returned (r : golang.result).

(** The objects of call [i]: the context [WithCancel(parent)] and the
    instant its [cancel] was first called, the timer, the buffered
    channel [ch], and the caller's goroutine. *)
Record Call : Type := mkCall {
  parent : Context;
  cancelled_at : option Time;
  timer_st : TimerState;
  ch : option golang.result;
  status : CallStatus
}.

(** The captured variables [timer], [cctx] and [cancel] (each [None]
    while nil, else the index of the call that made the object), the
    objects of all calls, the clock, and the derived contexts the circuit
    was called with, oldest first. *)
Record LastState : Type := mkLastState {
  clock : Time;
  calls : list Call;
  timer : option nat;
  cctx : option nat;
  cancel : option nat;
  invocations : list nat
}.

Definition last_init (t : Time) : LastState :=
  {| clock := t; calls := []; timer := None; cctx := None; cancel := None;
     invocations := [] |}.

(** [Err()] of a derived context at [now]: the parent's error if the
    parent was done no later than the call of [cancel], [Canceled] if
    [cancel] was called first, nil otherwise. *)
Definition derived_err (c : Call) (now : Time) : option error :=
  match cancelled_at c with
  | Some tc =>
      match done_at (parent c) with
      | Some tp => if tp <=? tc then Some (done_err (parent c)) else Some Canceled
      | None => Some Canceled
      end
  | None => Err (parent c) now
  end.

(** In-place update of the objects of call [i]. *)
Fixpoint update (i : nat) (f : Call -> Call) (l : list Call) : list Call :=
  match l, i with
  | [], _ => []
  | c :: l', O => f c :: l'
  | c :: l', S i' => c :: update i' f l'
  end.

Definition set_calls (s : LastState) (l : list Call) : LastState :=
  {| clock := clock s; calls := l; timer := timer s; cctx := cctx s;
     cancel := cancel s; invocations := invocations s |}.

(** [timer.Stop()]: a pending timer will not fire; otherwise no effect. *)
Definition stop_timer (c : Call) : Call :=
  match timer_st c with
  | Pending _ => {| parent := parent c; cancelled_at := cancelled_at c;
                    timer_st := Stopped; ch := ch c; status := status c |}
  | _ => c
  end.

(** [cancel()] at [now]: only the first call has an effect. *)
Definition do_cancel (now : Time) (c : Call) : Call :=
  match cancelled_at c with
  | Some _ => c
  | None => {| parent := parent c; cancelled_at := Some now;
               timer_st := timer_st c; ch := ch c; status := status c |}
  end.

(** The locked section of a call made with [ctx]:
    [if timer != nil { timer.Stop(); cancel() }], then the three
    assignments, the last of which arms the new timer. *)
Definition enter (d : Duration) (ctx : Context) (s : LastState) : LastState :=
  let s1 :=
    match timer s with
    | Some k =>
        let l1 := update k stop_timer (calls s) in
        match cancel s with
        | Some j => set_calls s (update j (do_cancel (clock s)) l1)
        | None => set_calls s l1
        end
    | None => s
    end in
  let i := List.length (calls s1) in
  {| clock := clock s1;
     calls := calls s1 ++ [ {| parent := ctx; cancelled_at := None;
                               timer_st := Pending (Add (clock s1) d);
                               ch := None; status := Entered |} ];
     timer := Some i; cctx := Some i; cancel := Some i;
     invocations := invocations s1 |}.

(** The goroutine of call [i] reaches the [select]: the channel
    expression [cctx.Done()] is evaluated now, on the shared [cctx]. *)
Definition enter_select (i : nat) (s : LastState) : LastState :=
  match nth_error (calls s) i, cctx s with
  | Some c, Some k =>
      match status c with
      | Entered =>
          set_calls s (update i (fun c => {| parent := parent c;
                                             cancelled_at := cancelled_at c;
                                             timer_st := timer_st c; ch := ch c;
                                             status := Waiting k |}) (calls s))
      | _ => s
      end
  | _, _ => s
  end.

(** Timer [k] fires: its function calls the circuit with the shared
    [cctx] as it is now and sends the pair on the channel of call [k]. *)
Definition fire (circuit : nat -> Time -> golang.result) (k : nat)
    (s : LastState) : LastState :=
  match nth_error (calls s) k, cctx s with
  | Some c, Some x =>
      match timer_st c with
      | Pending deadline =>
          if deadline <=? clock s then
            let r := circuit x (clock s) in
            {| clock := clock s;
               calls := update k (fun c => {| parent := parent c;
                                              cancelled_at := cancelled_at c;
                                              timer_st := Fired; ch := Some r;
                                              status := status c |}) (calls s);
               timer := timer s; cctx := cctx s; cancel := cancel s;
               invocations := invocations s ++ [x] |}
          else s
      | _ => s
      end
  | _, _ => s
  end.

Definition set_status (i : nat) (st : CallStatus) (s : LastState) : LastState :=
  set_calls s (update i (fun c => {| parent := parent c;
                                     cancelled_at := cancelled_at c;
                                     timer_st := timer_st c; ch := ch c;
                                     status := st |}) (calls s)).

(** [res := <-ch] followed by [return res.result, res.err]. *)
Definition receive (r : golang.result) (c : Call) : Call :=
  {| parent := parent c; cancelled_at := cancelled_at c;
     timer_st := timer_st c; ch := None; status := Returned r |}.

(** [cctx.Err()] on the shared [cctx] as it is now. *)
Definition shared_err (s : LastState) : option error :=
  match cctx s with
  | Some x =>
      match nth_error (calls s) x with
      | Some cx => derived_err cx (clock s)
      | None => None
      end
  | None => None
  end.

(** The [select] of call [i] proceeds, if a case is ready: the result
    case returns the pair received; the [Done] case returns
    [("", cctx.Err())], reading the shared [cctx] at this moment.  When
    both are ready [coin] picks the result case. *)
Definition wake (i : nat) (coin : bool) (s : LastState) : LastState :=
  match nth_error (calls s) i with
  | Some c =>
      match status c with
      | Waiting k =>
          let done_ready :=
            match nth_error (calls s) k with
            | Some ck => negb (is_nil (derived_err ck (clock s)))
            | None => false
            end in
          match ch c with
          | Some r =>
              if done_ready && negb coin
              then set_status i (Returned (""%string, shared_err s)) s
              else set_calls s (update i (receive r) (calls s))
          | None =>
              if done_ready
              then set_status i (Returned (""%string, shared_err s)) s
              else s
          end
      | _ => s
      end
  | None => s
  end.

(** The steps a schedule is made of. *)
Inductive Event : Type :=
| Advance (dt : Duration)
| Enter (ctx : Context)
| Select (i : nat)
| Fire (k : nat)
| Wake (i : nat) (coin : bool).

Definition step (circuit : nat -> Time -> golang.result) (d : Duration)
    (s : LastState) (e : Event) : LastState :=
  match e with
  | Advance dt =>
      {| clock := Add (clock s) (Z.max 0 dt); calls := calls s;
         timer := timer s; cctx := cctx s; cancel := cancel s;
         invocations := invocations s |}
  | Enter ctx => enter d ctx s
  | Select i => enter_select i s
  | Fire k => fire circuit k s
  | Wake i coin => wake i coin s
  end.

(** [DebounceLast(circuit, d)] under a schedule. *)
Definition DebounceLast (circuit : nat -> Time -> golang.result) (d : Duration)
    (schedule : list Event) (s : LastState) : LastState :=
  fold_left (step circuit d) schedule s.

(** What call [i] returned, if it has returned. *)
Definition returned (s : LastState) (i : nat) : option golang.result :=
  match nth_error (calls s) i with
  | Some c => match status c with Returned r => Some r | _ => None end
  | None => None
  end.

(** [Err()] of the context derived for call [i], read now. *)
Definition own_err (s : LastState) (i : nat) : option error :=
  match nth_error (calls s) i with
  | Some c => derived_err c (clock s)
  | None => None
  end.

(** A burst.  The first call is made and blocks in its [select].  Then,
    for each further call: [gap] passes; the timer of the waiting call
    fires if it is due; the new call runs its locked section; the
    goroutine of the superseded call proceeds; the new call blocks in its
    [select].  At the end the window passes, the timer of the last call
    fires and its goroutine proceeds. *)
Fixpoint supersede (i : nat) (ctxs : list Context) (gap : Duration)
  : list Event :=
  match ctxs with
  | [] => []
  | ctx :: rest =>
      [Advance gap; Fire i; Enter ctx; Wake i true; Select (S i)]
        ++ supersede (S i) rest gap
  end.

Definition burst (ctx0 : Context) (rest : list Context) (gap d : Duration)
  : list Event :=
  [Enter ctx0; Select 0]
    ++ supersede 0 rest gap
    ++ [Advance d; Fire (List.length rest); Wake (List.length rest) true].

(** The objects of a call that was superseded at [t]: timer stopped,
    context cancelled, nothing sent, and [("", nil)] returned. *)
Definition superseded_call (ctx : Context) (t : Time) : Call :=
  {| parent := ctx; cancelled_at := Some t; timer_st := Stopped;
     ch := None; status := Returned (""%string, None) |}.

(** The objects of call [i] while it waits for its timer. *)
Definition waiting_call (ctx : Context) (i : nat) (deadline : Time) : Call :=
  {| parent := ctx; cancelled_at := None; timer_st := Pending deadline;
     ch := None; status := Waiting i |}.

(** The state in which call [i], entered at [t] with [ctx], waits, the
    calls before it having left the objects [prev]. *)
Definition waiting_state (d : Duration) (prev : list Call) (ctx : Context)
    (i : nat) (t : Time) : LastState :=
  {| clock := t; calls := prev ++ [waiting_call ctx i (Add t d)];
     timer := Some i; cctx := Some i; cancel := Some i; invocations := [] |}.

(** The objects left by calls made [gap] apart from [t] on, each
    superseded by the next. *)
Fixpoint superseded_calls (t : Time) (gap : Duration) (ctxs : list Context)
  : list Call :=
  match ctxs with
  | [] => []
  | ctx :: rest =>
      superseded_call ctx (Add t gap) :: superseded_calls (Add t gap) gap rest
  end.

End DebounceLast.

(** A circuit that succeeds at once, whatever context it is given. *)
Definition quick (x : nat) (t : Time) : golang.result := ("ran"%string, None).

End debounce.

(** ** Package timeout *)

Module timeout.

(** One run of a [SlowFunction]: the pair it returns and the time from the
    entry of the wrapper to the worker goroutine's send on the result
    channel ([None]: the function never returns). *)
Record Run : Type := mkRun { took : option Duration; answer : result }.

(** [func(string) (string, error)], with the time each run takes. *)
Definition SlowFunction : Type := string -> Run.

(** The two cases of the [select]. *)
Inductive Case : Type := RecvResult | CtxDone.

(** The instant the result channel becomes ready, for a call entered at [t0]. *)
Definition result_ready (run : Run) (t0 : Time) : option Time :=
  option_map (Add t0) (took run).

(** The instant [ctx.Done()] becomes ready, as seen from [t0] onwards. *)
Definition done_ready (ctx : Context) (t0 : Time) : option Time :=
  option_map (Z.max t0) (done_at ctx).

(** A [select] over the two channels: it waits for the first of them to
    become ready and takes it; when both become ready at the same
    instant the runtime picks one at random, here [coin].  [None] when
    neither ever becomes ready. *)
Definition select (tc td : option Time) (coin : Case) : option (Case * Time) :=
  match tc, td with
  | None, None => None
  | Some a, None => Some (RecvResult, a)
  | None, Some b => Some (CtxDone, b)
  | Some a, Some b =>
      if a <? b then Some (RecvResult, a)
      else if b <? a then Some (CtxDone, b)
      else Some (coin, a)
  end.

(** What a call leaves behind: the pair returned and when; whether the
    worker goroutine was started; the instant and the value of the
    worker's send, which nothing can prevent once it is started; whether
    the caller received that value. *)
Record Call : Type := mkCall {
  ret : result;
  returned_at : Time;
  started : bool;
  sent : option (Time * result);
  received : bool
}.

(** The part both wrappers share: start the worker, then [select]. *)
Definition race (fn : SlowFunction) (ctx : Context) (arg : string)
    (t0 : Time) (coin : Case) : option Call :=
  let run := fn arg in
  let sent := option_map (fun t => (t, answer run)) (result_ready run t0) in
  match select (result_ready run t0) (done_ready ctx t0) coin with
  | None => None
  | Some (RecvResult, t) =>
      Some {| ret := answer run; returned_at := t; started := true;
              sent := sent; received := true |}
  | Some (CtxDone, t) =>
      Some {| ret := (""%string, Err ctx t); returned_at := t; started := true;
              sent := sent; received := false |}
  end.

(** [Timeout(fn)] called with [ctx] and [arg] at the instant [t0];
    [None] when the call blocks forever. *)
Definition Timeout (fn : SlowFunction) (ctx : Context) (arg : string)
    (t0 : Time) (coin : Case) : option Call :=
  race fn ctx arg t0 coin.

(** [TimeoutWithPrecheck(fn)] called with [ctx] and [arg] at [t0]. *)
Definition TimeoutWithPrecheck (fn : SlowFunction) (ctx : Context)
    (arg : string) (t0 : Time) (coin : Case) : option Call :=
  match Err ctx t0 with
  | Some err =>
      Some {| ret := (""%string, Some err); returned_at := t0;
              started := false; sent := None; received := false |}
  | None => race fn ctx arg t0 coin
  end.


(** The context is done strictly before the run completes. *)
Definition done_first (run : Run) (ctx : Context) (t0 : Time) : Prop :=
  exists D, done_at ctx = Some D
            /\ forall T, took run = Some T -> D < t0 + T.

(** A slow function that echoes its argument after [T] nanoseconds. *)
Definition echo_after (T : Duration) : SlowFunction :=
  fun arg => {| took := Some T; answer := (arg, None) |}.

(** A context with the deadline [D]. *)
Definition with_deadline (D : Time) : Context :=
  {| done_at := Some D; done_err := DeadlineExceeded |}.

End timeout.

(** ** Operations for concrete runs *)

Module runs.

(** Succeeds at its first [k] calls, fails from then on. *)
Definition succeeds_first (k : nat) : Operation nat :=
  retry.scripted (fun n => if (n <? k)%nat then ("ok"%string, None)
                           else (""%string, Some (Upstream n))).

End runs.

(** ** Runs of several calls *)

Module sequences.
Section Sequences.
Context {W : Type}.
Variable clock : W -> Time.

(** Calls of one breaker made one after the other, each with its context
    and the world it finds; the outcomes are listed in the order of the
    calls. *)
Fixpoint breaker_calls (circuit : circuitbreaker.Circuit (W := W))
    (threshold : Z) (st : circuitbreaker.State) (entries : list (Context * W))
  : list (Outcome W) * circuitbreaker.State :=
  match entries with
  | [] => ([], st)
  | (ctx, w) :: rest =>
      let '(o, st1) := circuitbreaker.Breaker clock circuit threshold st ctx w in
      let '(os, st2) := breaker_calls circuit threshold st1 rest in
      (o :: os, st2)
  end.

(** What happens to one throttle: a call, a tick of the refill
    goroutine's ticker, or that goroutine seeing its context done. *)
Inductive ThrottleEvent : Type :=
| TCall (ctx : Context) (w : W)
| TTick
| TStop (now : Time).

(** The events applied in order; beside the final state, the number of
    calls that reached the effector.  The events after a call that
    panicked are those of a program that recovered from the panic; a
    program that did not ends there, and its run is the run of the
    events up to that call. *)
Fixpoint throttle_run (effector : throttle.Effector (W := W)) (max refill : Z)
    (d : Duration) (st : throttle.State) (events : list ThrottleEvent)
  : throttle.State * nat :=
  match events with
  | [] => (st, 0%nat)
  | TCall ctx w :: rest =>
      let '(e, st1) := throttle.Throttle clock effector max refill d st ctx w in
      let '(st2, n) := throttle_run effector max refill d st1 rest in
      (st2, (throttle.calls e + n)%nat)
  | TTick :: rest => throttle_run effector max refill d (throttle.tick max refill st) rest
  | TStop now :: rest => throttle_run effector max refill d (throttle.stop st now) rest
  end.

(** The number of ticks among the events. *)
Fixpoint ticks (events : list ThrottleEvent) : nat :=
  match events with
  | [] => 0%nat
  | TTick :: rest => S (ticks rest)
  | _ :: rest => ticks rest
  end.

(** All events are calls whose context is live when they are made. *)
Fixpoint live_calls (events : list ThrottleEvent) : Prop :=
  match events with
  | [] => True
  | TCall ctx w :: rest => Err ctx (clock w) = None /\ live_calls rest
  | _ :: _ => False
  end.

End Sequences.
End sequences.

(** ** DebounceFirstContext (package debounce)

    Every call runs the circuit, with a context derived from its own; a
    call made inside the window of the previous call first cancels the
    context derived for that call.  The callers run concurrently, so the
    wrapper is given by its atomic steps: the locked section of a call,
    and the call of the circuit, which reads the captured variable
    [lastCtx] after the mutex was released. *)

Module debounce_context.

(** A context made by [context.WithCancel(parent)] and the instant its
    [cancel] was first called. *)
Record Derived : Type := mkDerived {
  parent : Context;
  cancelled_at : option Time
}.

(** [Err()] of a derived context at [now]. *)
Definition derived_err (c : Derived) (now : Time) : option error :=
  match cancelled_at c with
  | Some tc =>
      match done_at (parent c) with
      | Some tp => if tp <=? tc then Some (done_err (parent c)) else Some Canceled
      | None => Some Canceled
      end
  | None => Err (parent c) now
  end.

(** The captured variables [threshold], [lastCtx] and [lastCancel] (each
    of the last two [None] while nil, else the index of the call that
    made it); the context derived by each call, in the order of the
    calls; the clock; for each call of the circuit, the caller and the
    derived context it passed; and whether a nil [lastCancel] was
    called, which panics. *)
Record State : Type := mkState {
  clock : Time;
  threshold : Time;
  lastCtx : option nat;
  lastCancel : option nat;
  derived : list Derived;
  invocations : list (nat * option nat);
  panicked : bool
}.

Definition init (t : Time) : State :=
  {| clock := t; threshold := zero_time; lastCtx := None; lastCancel := None;
     derived := []; invocations := []; panicked := false |}.

(** [cancel()] at [now]: only the first call has an effect. *)
Definition do_cancel (now : Time) (c : Derived) : Derived :=
  match cancelled_at c with
  | Some _ => c
  | None => {| parent := parent c; cancelled_at := Some now |}
  end.

(** In-place update of the context derived by call [i]. *)
Fixpoint update (i : nat) (f : Derived -> Derived) (l : list Derived)
  : list Derived :=
  match l, i with
  | [], _ => []
  | c :: l', O => f c :: l'
  | c :: l', S i' => c :: update i' f l'
  end.

(** The locked section of a call made with [ctx]:
    [if time.Now().Before(threshold) { lastCancel() }], then the
    assignments to [lastCtx], [lastCancel] and [threshold]. *)
Definition enter (d : Duration) (ctx : Context) (s : State) : State :=
  if panicked s then s
  else
    let cancelled :=
      if Before (clock s) (threshold s) then
        match lastCancel s with
        | Some j => Some (update j (do_cancel (clock s)) (derived s))
        | None => None
        end
      else Some (derived s) in
    match cancelled with
    | None =>
        {| clock := clock s; threshold := threshold s; lastCtx := lastCtx s;
           lastCancel := lastCancel s; derived := derived s;
           invocations := invocations s; panicked := true |}
    | Some l =>
        let i := List.length l in
        {| clock := clock s; threshold := Add (clock s) d;
           lastCtx := Some i; lastCancel := Some i;
           derived := l ++ [ {| parent := ctx; cancelled_at := None |} ];
           invocations := invocations s; panicked := false |}
    end.

(** Call [i], past its locked section, calls [circuit(lastCtx)]. *)
Definition invoke (i : nat) (s : State) : State :=
  if panicked s then s
  else
    {| clock := clock s; threshold := threshold s; lastCtx := lastCtx s;
       lastCancel := lastCancel s; derived := derived s;
       invocations := invocations s ++ [(i, lastCtx s)];
       panicked := false |}.

Inductive Event : Type :=
| Advance (dt : Duration)
| Enter (ctx : Context)
| Invoke (i : nat).

Definition step (d : Duration) (s : State) (e : Event) : State :=
  match e with
  | Advance dt =>
      {| clock := Add (clock s) (Z.max 0 dt); threshold := threshold s;
         lastCtx := lastCtx s; lastCancel := lastCancel s;
         derived := derived s; invocations := invocations s;
         panicked := panicked s |}
  | Enter ctx => enter d ctx s
  | Invoke i => invoke i s
  end.

(** [DebounceFirstContext(circuit, d)] under a schedule. *)
Definition DebounceFirstContext (d : Duration) (schedule : list Event)
    (s : State) : State :=
  fold_left (step d) schedule s.

(** [Err()] of the context derived by call [i], read now. *)
Definition own_err (s : State) (i : nat) : option error :=
  match nth_error (derived s) i with
  | Some c => derived_err c (clock s)
  | None => None
  end.

(** The instant at which the context derived by call [i] was cancelled
    by the wrapper, if it was. *)
Definition cancelled (s : State) (i : nat) : option Time :=
  match nth_error (derived s) i with
  | Some c => cancelled_at c
  | None => None
  end.

(** What every state of an instance satisfies: no panic so far; the clock
    is not before the zero [Time]; [lastCtx] and [lastCancel] belong to
    the same call, the latest one; and while they are nil, [threshold]
    still has its zero value. *)
Definition invariant (s : State) : Prop :=
  panicked s = false
  /\ zero_time <= clock s
  /\ lastCtx s = lastCancel s
  /\ match lastCancel s with
     | None => threshold s = zero_time
               /\ derived s = []
     | Some j => S j = List.length (derived s)
     end.

End debounce_context.

(** ** Package future *)

Module future.

(** An [InnerFuture] made by [SlowFunction(ctx)] at the instant
    [made_at]: the context its goroutine watches, the case the runtime
    would pick if the timer and the context became ready together, and
    the fields [res], [err] and [once]. *)
Record InnerFuture : Type := mkFuture {
  made_at : Time;
  ctx : Context;
  coin : timeout.Case;
  res : string;
  err : option error;
  once : bool
}.

(** [SlowFunction(ctx)] called at [t]. *)
Definition SlowFunction (c : Context) (t : Time) (tie : timeout.Case)
  : InnerFuture :=
  {| made_at := t; ctx := c; coin := tie; res := ""%string; err := None;
     once := false |}.

(** The [select] of the goroutine: [time.After(2 * time.Second)], here the
    result case, against [ctx.Done()]. *)
Definition goroutine_select (f : InnerFuture) : option (timeout.Case * Time) :=
  timeout.select (Some (Add (made_at f) (2 * Second)))
                 (timeout.done_ready (ctx f) (made_at f)) (coin f).

(** What the goroutine sends on [resCh] and [errCh], and from when on it
    stands ready to send. *)
Definition goroutine_sends (f : InnerFuture) : option (result * Time) :=
  match goroutine_select f with
  | Some (timeout.RecvResult, t) =>
      Some (("I slept for 2 seconds"%string, None), t)
  | Some (timeout.CtxDone, t) => Some ((""%string, Err (ctx f) t), t)
  | None => None
  end.

(** [f.Result()] called at [t]: the pair returned, the instant of the
    return, and the future afterwards; [None] if the call never
    returns. *)
Definition Result (f : InnerFuture) (t : Time)
  : option (result * Time * InnerFuture) :=
  if once f then Some ((res f, err f), t, f)
  else
    match goroutine_sends f with
    | Some ((r, e), ready) =>
        Some ((r, e), Z.max t ready,
              {| made_at := made_at f; ctx := ctx f; coin := coin f;
                 res := r; err := e; once := true |})
    | None => None
    end.

End future.

(** ** Package chord: the collecting goroutine *)

Module chord.

(** The struct [input]: the index of the source and the value read. *)
Record input : Type := mkInput { idx : nat; value : Z }.

(** The variables of the collecting goroutine, and the slices it has
    sent on [dest] so far. *)
Record Collector : Type := mkCollector {
  res : list Z;
  sent : list bool;
  count : Z;
  emitted : list (list Z)
}.

(** [l[i] = x]; [None] is the panic of an index out of range. *)
Fixpoint set_nth {A : Type} (i : nat) (x : A) (l : list A) : option (list A) :=
  match l, i with
  | [], _ => None
  | _ :: l', O => Some (x :: l')
  | y :: l', S i' =>
      match set_nth i' x l' with
      | Some l'' => Some (y :: l'')
      | None => None
      end
  end.

(** The state before the loop, for [n] sources. *)
Definition start (n : nat) : Collector :=
  {| res := repeat 0 n; sent := repeat false n; count := Z.of_nat n;
     emitted := [] |}.

(** One iteration of [for r := range inputs], for [n] sources. *)
Definition receive (n : nat) (st : Collector) (r : input) : option Collector :=
  match set_nth (idx r) (value r) (res st), nth_error (sent st) (idx r) with
  | Some res1, Some was_sent =>
      let sent1 :=
        if was_sent then Some (sent st) else set_nth (idx r) true (sent st) in
      let count1 := if was_sent then count st else int_sub (count st) 1 in
      match sent1 with
      | Some sent1 =>
          if count1 =? 0 then
            Some {| res := res1;
                    sent := repeat false (List.length sent1);
                    count := Z.of_nat n;
                    emitted := emitted st ++ [res1] |}
          else
            Some {| res := res1; sent := sent1; count := count1;
                    emitted := emitted st |}
      | None => None
      end
  | _, _ => None
  end.

(** The loop over the values that arrive on [inputs], in their order of
    arrival. *)
Fixpoint collect_from (n : nat) (st : Collector) (inputs : list input)
  : option Collector :=
  match inputs with
  | [] => Some st
  | r :: rest =>
      match receive n st r with
      | Some st' => collect_from n st' rest
      | None => None
      end
  end.

(** The slices [Chord] sends on [dest] when its [n] sources deliver
    [inputs] in this order and are then closed. *)
Definition Chord (n : nat) (inputs : list input) : option (list (list Z)) :=
  option_map emitted (collect_from n (start n) inputs).

(** The last value source [i] delivered among [inputs]; 0 if none. *)
Definition latest (i : nat) (inputs : list input) : Z :=
  fold_left (fun acc r => if Nat.eqb (idx r) i then value r else acc) inputs 0.

(** For each of [n] sources, the last value it delivered. *)
Definition latest_values (n : nat) (inputs : list input) : list Z :=
  map (fun i => latest i inputs) (seq 0 n).

(** How many values source [i] delivered. *)
Definition delivered (i : nat) (inputs : list input) : nat :=
  List.length (filter (fun r => Nat.eqb (idx r) i) inputs).

(** The number of [true] in a slice of booleans. *)
Definition trues (l : list bool) : nat := List.length (filter (fun b => b) l).

(** What the loop keeps true after having received [pre]: [res] holds
    the last value of every source; [count] is the number of sources not
    yet marked in [sent], and is positive between two iterations; a
    marked source has delivered; and, for each source, the slices sent so
    far plus the mark of the source are covered by its deliveries. *)
Definition invariant (n : nat) (pre : list input) (st : Collector) : Prop :=
  res st = latest_values n pre
  /\ List.length (sent st) = n
  /\ count st = Z.of_nat n - Z.of_nat (trues (sent st))
  /\ (n = 0%nat \/ 0 < count st)
  /\ (forall i, i < n ->
        List.length (emitted st)
        + (if nth i (sent st) false then 1 else 0) <= delivered i pre)%nat
  /\ Forall (fun out =>
               exists p q, pre = p ++ q /\ out = latest_values n p
                           /\ forall i, (i < n)%nat -> In i (map idx p))
            (emitted st).

End chord.

(** ** Package sharding *)

Module sharding.

(** *** FNV-1a, 32 bits ([hash/fnv]) *)

Definition offset32 : Z := 2166136261.
Definition prime32 : Z := 16777619.

(** The bytes of a string. *)
Fixpoint bytes (s : string) : list Z :=
  match s with
  | EmptyString => []
  | String c s' => Z.of_N (Ascii.N_of_ascii c) :: bytes s'
  end.

(** One byte written to the hash: [hash ^= c; hash *= prime32] in a
    [uint32]. *)
Definition write_byte (hash c : Z) : Z := (Z.lxor hash c * prime32) mod 2 ^ 32.

(** [h := fnv.New32a(); h.Write([]byte(str)); h.Sum32()]. *)
Definition Sum32 (str : string) : Z := fold_left write_byte (bytes str) offset32.

Section ShardedMap.
Context {K V : Type}.

(** [==] on the key type.  On a [comparable] type it need not be the
    identity: a floating-point NaN is not equal to itself. *)
Variable key_eq : K -> K -> bool.

(** Whether a key can be hashed.  An interface value whose dynamic type
    is not comparable (a slice, a map, a function) is a key of
    [K = any]; using it as a map key panics. *)
Variable hashable : K -> bool.

(** [reflect.ValueOf(key).String()]: the key itself for a key of a
    string kind, a text that names the type for every other key. *)
Variable repr : K -> string.

(** The zero value of [V]. *)
Variable zero : V.

(** The greatest length for which [make([]*Shard[K, V], n)] and the
    allocations that follow it give a slice: above it the runtime panics
    with [len out of range] or, short of memory, ends the program. *)
Variable max_len : Z.

(** A [Shard]: its field [items], a Go map; [None] is the nil map of a
    zero-valued [Shard], else the entries, whose order is not
    observable. *)
Record Shard : Type := mkShard { items : option (list (K * V)) }.

(** [ShardedMap]: the slice of the pointers to the shards, [None] a nil
    pointer.  The value stands for the slice together with the shards
    it points to, each entry to a shard of its own, as [NewShardedMap]
    makes them. *)
Definition ShardedMap : Type := list (option Shard).

(** The entry of a Go map found for [key], with the second result of the
    comma-ok form. *)
Fixpoint lookup (entries : list (K * V)) (key : K) : option V :=
  match entries with
  | [] => None
  | (k, v) :: rest => if key_eq key k then Some v else lookup rest key
  end.

(** The entries after [items[key] = value]: the entry of an equal key is
    replaced, else one is added. *)
Fixpoint store (entries : list (K * V)) (key : K) (value : V) : list (K * V) :=
  match entries with
  | [] => [(key, value)]
  | (k, v) :: rest =>
      if key_eq key k then (key, value) :: rest
      else (k, v) :: store rest key value
  end.

(** The entries of a shard; a nil map has none. *)
Definition entries (shard : Shard) : list (K * V) :=
  match items shard with
  | Some es => es
  | None => []
  end.

(** [shard.items[key]]; [None] is the panic on a key that cannot be
    hashed.  A nil map reads as an empty one. *)
Definition read (shard : Shard) (key : K) : option V :=
  if hashable key then
    Some (match lookup (entries shard) key with Some v => v | None => zero end)
  else None.

(** [shard.items[key] = value]; [None] is the panic on a key that cannot
    be hashed or on a nil map. *)
Definition write (shard : Shard) (key : K) (value : V) : option Shard :=
  if hashable key then
    match items shard with
    | Some es => Some (mkShard (Some (store es key value)))
    | None => None
    end
  else None.

(** [NewShardedMap(nshards)]; [None] when [make] gives no slice: on a
    negative length, which panics, and above [max_len]. *)
Definition NewShardedMap (nshards : Z) : option ShardedMap :=
  if (nshards <? 0) || (max_len <? nshards) then None
  else Some (repeat (Some (mkShard (Some []))) (Z.to_nat nshards)).

(** [m.getShardIndex(key)]; [None] is the panic of the division by
    [len(m) = 0]. *)
Definition getShardIndex (m : ShardedMap) (key : K) : option Z :=
  let sum := Sum32 (repr key) in
  if Z.of_nat (List.length m) =? 0 then None
  else Some (Z.rem sum (Z.of_nat (List.length m))).

(** [m.getShard(key)]: the pointer [m[index]]; [None] also when the
    index is out of range. *)
Definition getShard (m : ShardedMap) (key : K) : option (option Shard) :=
  match getShardIndex m key with
  | Some index => if index <? 0 then None else nth_error m (Z.to_nat index)
  | None => None
  end.

(** [m.Get(key)]; [None] is a panic: of [getShard], of [shard.RLock()]
    on a nil pointer, or of the map access. *)
Definition Get (m : ShardedMap) (key : K) : option V :=
  match getShard m key with
  | Some (Some shard) => read shard key
  | _ => None
  end.

(** The pointer at [i] replaced. *)
Fixpoint replace_shard (m : ShardedMap) (i : nat) (shard : option Shard)
  : ShardedMap :=
  match m, i with
  | [], _ => []
  | _ :: rest, O => shard :: rest
  | s :: rest, S i' => s :: replace_shard rest i' shard
  end.

(** [m.Set(key, value)]: the map afterwards ([Set] is a reserved word);
    [None] is a panic, as in [Get] or of the assignment. *)
Definition Set' (m : ShardedMap) (key : K) (value : V) : option ShardedMap :=
  match getShardIndex m key, getShard m key with
  | Some index, Some (Some shard) =>
      match write shard key value with
      | Some shard' => Some (replace_shard m (Z.to_nat index) (Some shard'))
      | None => None
      end
  | _, _ => None
  end.

(** The keys of the shard behind a pointer. *)
Definition shard_keys (p : option Shard) : list K :=
  match p with
  | Some shard => map fst (entries shard)
  | None => []
  end.

(** [m.Keys()] may return [keys]: one goroutine per shard appends the
    keys of its shard, which it meets in the order of a Go map
    iteration, so every order of all the keys can come out.  On a nil
    pointer the goroutine panics in [s.RLock()] and nothing is
    returned. *)
Definition Keys (m : ShardedMap) (keys : list K) : Prop :=
  Forall (fun p => p <> None) m
  /\ Permutation.Permutation keys (flat_map shard_keys m).

(** [m.Set] for each pair in turn. *)
Fixpoint set_all (m : ShardedMap) (pairs : list (K * V)) : option ShardedMap :=
  match pairs with
  | [] => Some m
  | (k, v) :: rest =>
      match Set' m k v with
      | Some m' => set_all m' rest
      | None => None
      end
  end.

(** The value a plain map would hold for [key] after the same
    assignments. *)
Fixpoint last_set (pairs : list (K * V)) (key : K) : option V :=
  match pairs with
  | [] => None
  | (k, v) :: rest =>
      match last_set rest key with
      | Some v' => Some v'
      | None => if key_eq key k then Some v else None
      end
  end.

(** The shard a key belongs to in a map of [n] shards. *)
Definition home (n : nat) (key : K) : nat :=
  Z.to_nat (Z.rem (Sum32 (repr key)) (Z.of_nat n)).

(** Keys of a plain type, as integers and strings are: every key can be
    hashed and [==] is the identity. *)
Definition plain_keys : Prop :=
  (forall a, hashable a = true)
  /\ (forall a b, key_eq a b = true <-> a = b).

(** Every pointer of the slice is to a shard whose [items] is a map, not
    nil: what [NewShardedMap] makes and [Set] keeps. *)
Definition initialized (m : ShardedMap) : Prop :=
  Forall (fun p => exists es, p = Some (mkShard (Some es))) m.


End ShardedMap.
End sharding.

(** ** Package fanin *)

Module fanin.

(** The goroutines [Funnel] starts and the channels they use.  For each
    source: the values not yet forwarded (the source is closed behind
    them), whether its forwarding goroutine still runs, and whether the
    closing goroutine started in the same iteration of the loop has yet
    to run.  Then the counter of the [WaitGroup], whether [dest] is
    closed, what the reader of [dest] has received (with the index of the
    source each value came from), and whether a goroutine panicked. *)
Record State : Type := mkState {
  pending : list (list Z);
  forwarding : list bool;
  closers : list bool;
  wg : Z;
  dest_closed : bool;
  received : list (nat * Z);
  panicked : bool
}.

(** [l[i]] replaced by [x]; no change out of range. *)
Fixpoint put {A : Type} (i : nat) (x : A) (l : list A) : list A :=
  match l, i with
  | [], _ => []
  | _ :: l', O => x :: l'
  | y :: l', S i' => y :: put i' x l'
  end.

(** [Funnel(sources...)] has returned: [wg.Add(len(sources))] is done and
    two goroutines per source are started. *)
Definition Funnel (sources : list (list Z)) : State :=
  {| pending := sources;
     forwarding := repeat true (List.length sources);
     closers := repeat true (List.length sources);
     wg := Z.of_nat (List.length sources);
     dest_closed := false;
     received := [];
     panicked := false |}.

Definition set_panicked (s : State) : State :=
  {| pending := pending s; forwarding := forwarding s; closers := closers s;
     wg := wg s; dest_closed := dest_closed s; received := received s;
     panicked := true |}.

(** One iteration of [for n := range ch { dest <- n }] in the goroutine
    of source [i], the reader of [dest] being ready. *)
Definition forward (i : nat) (s : State) : State :=
  match nth_error (forwarding s) i, nth_error (pending s) i with
  | Some true, Some (v :: rest) =>
      if dest_closed s then set_panicked s
      else {| pending := put i rest (pending s); forwarding := forwarding s;
              closers := closers s; wg := wg s; dest_closed := false;
              received := received s ++ [(i, v)]; panicked := panicked s |}
  | _, _ => s
  end.

(** The end of the [range] over source [i], closed and drained, and the
    deferred [wg.Done()]. *)
Definition finish (i : nat) (s : State) : State :=
  match nth_error (forwarding s) i, nth_error (pending s) i with
  | Some true, Some [] =>
      {| pending := pending s; forwarding := put i false (forwarding s);
         closers := closers s; wg := int_sub (wg s) 1;
         dest_closed := dest_closed s; received := received s;
         panicked := panicked s |}
  | _, _ => s
  end.

(** The closing goroutine of iteration [i] gets past [wg.Wait()] and
    calls [close(dest)]; closing a closed channel panics. *)
Definition close (i : nat) (s : State) : State :=
  match nth_error (closers s) i with
  | Some true =>
      if wg s =? 0 then
        if dest_closed s then
          set_panicked
            {| pending := pending s; forwarding := forwarding s;
               closers := put i false (closers s); wg := wg s;
               dest_closed := true; received := received s;
               panicked := panicked s |}
        else
          {| pending := pending s; forwarding := forwarding s;
             closers := put i false (closers s); wg := wg s;
             dest_closed := true; received := received s;
             panicked := panicked s |}
      else s
  | _ => s
  end.

Inductive Event : Type :=
| Forward (i : nat)
| Finish (i : nat)
| Close (i : nat).

(** A panic ends the program: nothing runs after it. *)
Definition step (s : State) (e : Event) : State :=
  if panicked s then s
  else match e with
       | Forward i => forward i s
       | Finish i => finish i s
       | Close i => close i s
       end.

Definition run (schedule : list Event) (s : State) : State :=
  fold_left step schedule s.

(** The values received from source [i], in the order received. *)
Definition received_from (i : nat) (s : State) : list Z :=
  map snd (filter (fun r => Nat.eqb (fst r) i) (received s)).

(** The closing goroutine of iteration [i] has called [close(dest)]. *)
Definition has_closed (s : State) (i : nat) : Prop :=
  nth_error (closers s) i = Some false.

(** What holds of every state of a run.  Each source's values are partly
    received and partly pending, in order, and nothing is pending for a
    forwarding goroutine that has ended.  The counter is the number of
    forwarding goroutines that still run.  Without a panic at most one
    closing goroutine has run, and one has run exactly if [dest] is
    closed; after a panic two have. *)
Definition invariant (sources : list (list Z)) (s : State) : Prop :=
  List.length (pending s) = List.length sources
  /\ List.length (forwarding s) = List.length sources
  /\ List.length (closers s) = List.length sources
  /\ (forall i src, nth_error sources i = Some src ->
        exists rest, nth_error (pending s) i = Some rest
                     /\ src = received_from i s ++ rest)
  /\ (forall i, nth_error (forwarding s) i = Some false ->
        nth_error (pending s) i = Some [])
  /\ wg s = Z.of_nat (List.length (filter (fun b => b) (forwarding s)))
  /\ (dest_closed s = true -> wg s = 0)
  /\ (panicked s = false ->
      (dest_closed s = false -> forall i, ~ has_closed s i)
      /\ forall i j, has_closed s i -> has_closed s j -> i = j)
  /\ (dest_closed s = true -> exists i, has_closed s i)
  /\ (panicked s = true ->
      exists i j, i <> j /\ has_closed s i /\ has_closed s j).

End fanin.

(** * Properties *)

(** ** Machine integers *)

(** Settling a comparison of [Z] by linear arithmetic. *)
Ltac cmp_true b :=
  replace b with true
    by (symmetry; first [apply Z.leb_le | apply Z.ltb_lt];
        unfold Add, is_int, is_uint, int_min, int_max, uint_max in *; lia).

Ltac cmp_false b :=
  replace b with false
    by (symmetry; first [apply Z.leb_gt | apply Z.ltb_ge];
        unfold Add, is_int, is_uint, int_min, int_max, uint_max in *; lia).

Lemma wrap_int_id (z : Z) : is_int z -> wrap_int z = z.
Proof.
  unfold is_int, int_min, int_max, wrap_int. intros Hz.
  rewrite Z.mod_small; lia.
Qed.

Lemma wrap_uint_id (z : Z) : is_uint z -> wrap_uint z = z.
Proof.
  unfold is_uint, uint_max, wrap_uint. intros Hz.
  apply Z.mod_small; lia.
Qed.

Lemma wrap_int_range (z : Z) : is_int (wrap_int z).
Proof.
  unfold is_int, int_min, int_max, wrap_int.
  pose proof (Z.mod_pos_bound (z + 2 ^ 63) (2 ^ 64) ltac:(lia)). lia.
Qed.

Lemma wrap_uint_range (z : Z) : is_uint (wrap_uint z).
Proof.
  unfold is_uint, uint_max, wrap_uint.
  pose proof (Z.mod_pos_bound z (2 ^ 64) ltac:(lia)). lia.
Qed.

(** ** Retry *)

Section RetryFacts.
Context {W : Type}.
Variable effector : retry.Effector (W := W).
Variable maxRetries : Z.
Variable delay : Duration.
Variable ctx : Context.

(** A call of the effector that fails ends the loop at once, whatever
    the counter. *)
Lemma loop_returns_on_failure (fuel : nat) (r : Z) (w : W) (calls : nat)
    (logs : list retry.LogLine) (e : error) :
  snd (fst (effector ctx w)) = Some e ->
  retry.loop effector maxRetries delay ctx (S fuel) r w calls logs
  = Some (mkOutcome (fst (effector ctx w)) (snd (effector ctx w)) (S calls),
          logs).
Proof.
  intros He. simpl.
  destruct (effector ctx w) as [[response err] w'] eqn:Hcall.
  simpl in He. subst err. reflexivity.
Qed.

(** C1, on the code.  The loop returns as soon as a call of the effector
    fails: whatever the budget and the delay, an effector whose first
    call fails is called exactly once and the wrapper returns that
    failure, with no log line written and no wait.  So an effector that
    always fails is called once, not [maxRetries + 1] times, and a
    failure followed by a success is never retried. *)
Theorem Retry_gives_up_at_first_failure (w : W) (fuel : nat) (e : error) :
  snd (fst (effector ctx w)) = Some e ->
  retry.Retry effector maxRetries delay ctx (S fuel) w
  = Some (mkOutcome (fst (effector ctx w)) (snd (effector ctx w)) 1, []).
Proof.
  intros He. unfold retry.Retry. apply (loop_returns_on_failure _ _ _ _ _ e He).
Qed.

(** An effector that always fails is called once, never [maxRetries + 1]
    times when a retry was asked for. *)
Corollary Retry_always_failing_single_call (w : W) (fuel : nat) :
  retry.always_fails effector ctx ->
  1 <= maxRetries ->
  exists o logs,
    retry.Retry effector maxRetries delay ctx (S fuel) w = Some (o, logs)
    /\ invoked o = 1%nat
    /\ Z.of_nat (invoked o) <> maxRetries + 1.
Proof.
  intros Hfail Hmax. specialize (Hfail w).
  destruct (snd (fst (effector ctx w))) as [e|] eqn:He; [|congruence].
  eexists; eexists. split.
  - unfold retry.Retry. apply (loop_returns_on_failure fuel 0 w 0%nat [] e He).
  - simpl. split; [reflexivity | lia].
Qed.

(** The loop entered with counter [r] on an effector that never fails
    runs until the counter reaches [maxRetries]. *)
Lemma loop_never_fails (n : nat) :
  retry.never_fails effector ctx ->
  forall (r : Z) (w : W) (calls : nat) (logs : list retry.LogLine) (fuel : nat),
    0 <= r -> maxRetries <= int_max ->
    r + Z.of_nat n = maxRetries ->
    (n < fuel)%nat ->
    exists logs',
      retry.loop effector maxRetries delay ctx fuel r w calls logs
      = Some (mkOutcome (fst (effector ctx (retry.after_calls effector ctx n w)))
                        (retry.after_calls effector ctx (S n) w)
                        (calls + S n),
              logs').
Proof.
  intros Hok. induction n as [|n IH]; intros r w calls logs fuel Hr Hmax Hsum Hfuel.
  - destruct fuel as [|fuel]; [lia|]. simpl.
    pose proof (Hok w) as Hnil.
    destruct (effector ctx w) as [[response err] w'] eqn:Hcall.
    simpl in Hnil. subst err. simpl.
    cmp_true (maxRetries <=? r).
    exists logs. do 2 f_equal. f_equal. lia.
  - destruct fuel as [|fuel]; [lia|]. simpl.
    pose proof (Hok w) as Hnil.
    destruct (effector ctx w) as [[response err] w'] eqn:Hcall.
    simpl in Hnil. subst err. simpl.
    cmp_false (maxRetries <=? r).
    assert (Hr1 : int_add r 1 = r + 1).
    { apply wrap_int_id. unfold is_int, int_min, int_max in *. lia. }
    rewrite Hr1.
    destruct (IH (r + 1) w' (S calls) (logs ++ [(r + 1, delay)]) fuel)
      as [logs' Hloop]; try lia.
    exists logs'. rewrite Hloop. do 2 f_equal. f_equal. lia.
Qed.

(** C9: on an effector that never fails and a budget [0 <= maxRetries],
    the wrapper returns (with any fuel above the budget), has called the
    effector exactly [maxRetries + 1] times, and returns the pair and the
    world of the last of these calls: a success does not end the loop,
    only the exhausted budget does. *)
Theorem Retry_never_failing_runs_whole_budget (w : W) (fuel : nat) :
  retry.never_fails effector ctx ->
  0 <= maxRetries -> is_int maxRetries ->
  (Z.to_nat maxRetries < fuel)%nat ->
  exists (o : Outcome W) (logs : list retry.LogLine),
    retry.Retry effector maxRetries delay ctx fuel w = Some (o, logs)
    /\ Z.of_nat (invoked o) = maxRetries + 1
    /\ ret o = fst (effector ctx
                      (retry.after_calls effector ctx (Z.to_nat maxRetries) w))
    /\ world o = retry.after_calls effector ctx (S (Z.to_nat maxRetries)) w
    /\ snd (ret o) = None.
Proof.
  intros Hok Hpos Hint Hfuel. unfold retry.Retry.
  destruct (loop_never_fails (Z.to_nat maxRetries) Hok 0 w 0%nat [] fuel)
    as [logs Hloop]; try lia.
  { unfold is_int in Hint. lia. }
  eexists; exists logs. split; [exact Hloop|]. simpl.
  repeat split; try lia. apply Hok.
Qed.

End RetryFacts.

(** A run of C9: an effector that succeeds at every call, budget 3. *)
Lemma Retry_never_failing_runs_whole_budget_witness :
  exists (o : Outcome nat) (logs : list retry.LogLine),
    retry.Retry (retry.fails_first 0) 3 Second Background 4 0%nat = Some (o, logs)
    /\ Z.of_nat (invoked o) = 3 + 1
    /\ ret o = fst (retry.fails_first 0 Background
                      (retry.after_calls (retry.fails_first 0) Background (Z.to_nat 3) 0%nat))
    /\ world o = retry.after_calls (retry.fails_first 0) Background (S (Z.to_nat 3)) 0%nat
    /\ snd (ret o) = None.
Proof.
  apply (Retry_never_failing_runs_whole_budget
           (retry.fails_first 0) 3 Second Background 0%nat 4).
  - intros w. reflexivity.
  - lia.
  - unfold is_int, int_min, int_max. lia.
  - simpl. lia.
Defined.

(** Runs of C1 with a budget of 2 retries: an effector that fails at every
    call, and one that fails once and would succeed at its second call.
    Both are called once and the wrapper returns the first failure. *)
Lemma Retry_gives_up_at_first_failure_witness :
  retry.Retry retry.failing 2 Second Background 10 0%nat
  = Some (mkOutcome (""%string, Some (Upstream 0)) 1%nat 1, [])
  /\ retry.Retry (retry.fails_first 1) 2 Second Background 10 0%nat
     = Some (mkOutcome (""%string, Some (Upstream 0)) 1%nat 1, []).
Proof.
  split.
  - apply (Retry_gives_up_at_first_failure retry.failing 2 Second Background
             0%nat 9 (Upstream 0)). reflexivity.
  - apply (Retry_gives_up_at_first_failure (retry.fails_first 1) 2 Second
             Background 0%nat 9 (Upstream 0)). reflexivity.
Defined.

(** ** Circuit breaker *)

Section BreakerFacts.
Context {W : Type}.
Variable clock : W -> Time.
Variable circuit : circuitbreaker.Circuit (W := W).
Variable threshold : Z.

Lemma shl_seconds_exact (d : Z) :
  0 <= d <= 32 -> int_mul (int_shl 2 d) Second = 2 ^ (d + 1) * Second.
Proof.
  intros Hd. unfold int_mul, int_shl. rewrite Z.shiftl_mul_pow2 by lia.
  assert (H1 : 2 ^ (d + 1) = 2 * 2 ^ d)
    by (rewrite Z.pow_add_r by lia; change (2 ^ 1) with 2; lia).
  assert (H2 : 1 <= 2 ^ d) by (apply (Z.pow_le_mono_r 2 0 d); lia).
  assert (H3 : 2 ^ d <= 2 ^ 32) by (apply Z.pow_le_mono_r; lia).
  rewrite (wrap_int_id (2 * 2 ^ d)).
  - rewrite wrap_int_id; [lia|].
    unfold is_int, int_min, int_max, Second. lia.
  - unfold is_int, int_min, int_max. lia.
Qed.

Lemma wrap_int_mul_l (a b : Z) : wrap_int (wrap_int a * b) = wrap_int (a * b).
Proof.
  unfold wrap_int. f_equal.
  replace (((a + 2 ^ 63) mod 2 ^ 64 - 2 ^ 63) * b + 2 ^ 63)
    with ((a + 2 ^ 63) mod 2 ^ 64 * b + (2 ^ 63 - 2 ^ 63 * b)) by ring.
  rewrite <- Zplus_mod_idemp_l, Zmult_mod_idemp_l, Zplus_mod_idemp_l.
  f_equal. ring.
Qed.

(** From an overflow of 54 on, the cool-down the code computes is zero. *)
Lemma shl_seconds_vanishes (d : Z) :
  54 <= d -> int_mul (int_shl 2 d) Second = 0.
Proof.
  intros Hd. unfold int_mul, int_shl. rewrite wrap_int_mul_l.
  rewrite Z.shiftl_mul_pow2 by lia.
  replace d with (54 + (d - 54)) by lia. rewrite Z.pow_add_r by lia.
  replace (2 * (2 ^ 54 * 2 ^ (d - 54)) * Second)
    with (1953125 * 2 ^ (d - 54) * 2 ^ 64) by (unfold Second; lia).
  unfold wrap_int. rewrite Z.add_comm, Z_mod_plus_full. reflexivity.
Qed.

(** From an overflow of 54 on, the breaker lets every call through that
    is made after [last]: it no longer opens. *)
Lemma Breaker_never_opens_from_54 (st : circuitbreaker.State) (now : Time) :
  54 <= circuitbreaker.failures st - threshold <= int_max ->
  circuitbreaker.last st < now ->
  circuitbreaker.blocked threshold st now = false.
Proof.
  intros Hd Hnow. unfold circuitbreaker.blocked, int_sub.
  rewrite wrap_int_id by (unfold is_int, int_min, int_max in *; lia).
  cmp_true (0 <=? circuitbreaker.failures st - threshold).
  rewrite shl_seconds_vanishes by lia.
  unfold After, Add. rewrite Z.add_0_r.
  cmp_true (circuitbreaker.last st <? now).
  reflexivity.
Qed.

(** While the overflow [failures - threshold] lies in [0 .. 32] the code
    computes the cool-down of the specification and turns the call away
    up to and including the instant [last + cooldown]. *)
Lemma Breaker_open_rejects (st : circuitbreaker.State) (ctx : Context) (w : W) :
  0 <= circuitbreaker.failures st - threshold <= 32 ->
  clock w <= circuitbreaker.open_until_spec threshold st ->
  circuitbreaker.Breaker clock circuit threshold st ctx w
  = (mkOutcome (""%string, Some ErrServiceUnavailable) w 0, st).
Proof.
  intros Hd Hnow. unfold circuitbreaker.Breaker, circuitbreaker.blocked.
  unfold int_sub. rewrite wrap_int_id
    by (unfold is_int, int_min, int_max; lia).
  cmp_true (0 <=? circuitbreaker.failures st - threshold).
  rewrite shl_seconds_exact by lia.
  unfold circuitbreaker.open_until_spec, circuitbreaker.cooldown_spec in Hnow.
  unfold After, Add.
  replace (_ <? clock w) with false by (symmetry; apply Z.ltb_ge; lia).
  reflexivity.
Qed.

(** C3: a call either is turned away, and then changes nothing and calls
    nothing, or calls the circuit once and returns its pair verbatim; in
    the second case [last] becomes the clock read after the circuit
    returned, the counter becomes 0 if the circuit succeeded, and is
    incremented by 1 (the [int] increment, which is [+ 1] below the
    largest [int]) if it failed.  So the counter is reset only by a
    success of the circuit and raised only by a failure of the circuit. *)
Theorem Breaker_counter_follows_circuit
    (st : circuitbreaker.State) (ctx : Context) (w : W) :
  let o := fst (circuitbreaker.Breaker clock circuit threshold st ctx w) in
  let st' := snd (circuitbreaker.Breaker clock circuit threshold st ctx w) in
  (invoked o = 0%nat /\ st' = st /\ world o = w
   /\ ret o = (""%string, Some ErrServiceUnavailable))
  \/
  (invoked o = 1%nat
   /\ ret o = fst (circuit ctx w)
   /\ world o = snd (circuit ctx w)
   /\ circuitbreaker.last st' = clock (snd (circuit ctx w))
   /\ match snd (fst (circuit ctx w)) with
      | None => circuitbreaker.failures st' = 0
      | Some e =>
          circuitbreaker.failures st' = int_add (circuitbreaker.failures st) 1
          /\ (int_min <= circuitbreaker.failures st < int_max ->
              circuitbreaker.failures st' = circuitbreaker.failures st + 1)
      end).
Proof.
  unfold circuitbreaker.Breaker.
  destruct (circuitbreaker.blocked threshold st (clock w)).
  - left. simpl. auto.
  - right. destruct (circuit ctx w) as [[response err] w'].
    destruct err as [e|]; simpl.
    + repeat split; try reflexivity.
      intros Hf. unfold int_add. apply wrap_int_id.
      unfold is_int, int_min, int_max in *. lia.
    + repeat split; reflexivity.
Qed.

End BreakerFacts.

(** A run of C3: the fresh breaker with threshold 2 and a failing circuit. *)
Lemma Breaker_counter_follows_circuit_witness :
  let circuit := examples.op 1000 examples.bad_answer in
  let w := examples.mkWorld 5000 0 in
  let call := circuitbreaker.Breaker examples.now circuit 2
                circuitbreaker.init Background w in
  invoked (fst call) = 1%nat
  /\ ret (fst call) = ("partial"%string, Some (Upstream 0))
  /\ circuitbreaker.last (snd call) = 6000
  /\ circuitbreaker.failures (snd call) = 0 + 1.
Proof.
  intros circuit w call.
  destruct (Breaker_counter_follows_circuit examples.now circuit 2
              circuitbreaker.init Background w)
    as [(Hno & _) | (Hinv & Hret & _ & Hlast & _ & Hplus)].
  - vm_compute in Hno. discriminate Hno.
  - split; [exact Hinv|]. split; [exact Hret|]. split; [exact Hlast|].
    apply Hplus. vm_compute. split; [discriminate | reflexivity].
Defined.

(** C2, evaluated on the code.  Threshold 1; 34 callers pass the
    read-locked check of the fresh breaker together, their circuits all
    fail, and the counter stands at 34 with [last = T].  The cool-down of
    the specification is [2^34] seconds, so a call one second after [T]
    falls inside it; the code computes the cool-down in an [int64] of
    nanoseconds, where [2^34 * 10^9] wraps to a negative duration, lets
    the call through and calls the circuit.  With the counter at 55 the
    product is 0 and the circuit stays closed for every later instant. *)
Theorem Breaker_backoff_wraps_around :
  let T := 63000000000 * Second in
  let st := circuitbreaker.settle_failures 34 circuitbreaker.init T (Upstream 0) in
  let w := examples.mkWorld (T + Second) 34 in
  let call := circuitbreaker.Breaker examples.now
                (examples.op 1000 examples.bad_answer) 1 st Background w in
  circuitbreaker.blocked 1 circuitbreaker.init T = false
  /\ st = circuitbreaker.mkState 34 T
  /\ 1 <= circuitbreaker.failures st
  /\ examples.now w <= circuitbreaker.open_until_spec 1 st
  /\ int_mul (int_shl 2 33) Second < 0
  /\ invoked (fst call) = 1%nat
  /\ ret (fst call) = ("partial"%string, Some (Upstream 34))
  /\ snd call = circuitbreaker.mkState 35 (T + Second + 1000)
  /\ int_mul (int_shl 2 54) Second = 0.
Proof. vm_compute. repeat split; congruence. Qed.

(** ** Throttle *)

Section ThrottleFacts.
Context {W : Type}.
Variable clock : W -> Time.
Variable effector : throttle.Effector (W := W).
Variables max refill : Z.
Variable d : Duration.

Lemma tick_tokens_bounds (st : throttle.State) :
  0 <= max ->
  0 <= throttle.tokens st <= max ->
  0 <= throttle.tokens (throttle.tick max refill st) <= max.
Proof.
  intros Hmax Hst. unfold throttle.tick.
  destruct (throttle.refill_loop st); simpl; [|exact Hst].
  pose proof (wrap_uint_range (throttle.tokens st + refill)) as Hr.
  unfold is_uint, uint_add in *. lia.
Qed.

Lemma once_do_tokens (st : throttle.State) (ctx : Context) :
  throttle.tokens (fst (throttle.once_do d st ctx)) = throttle.tokens st.
Proof.
  unfold throttle.once_do. destruct (throttle.once st); [reflexivity|].
  destruct (d <=? 0); reflexivity.
Qed.

(** [once.Do] panics exactly at the first use with a non-positive
    interval. *)
Lemma once_do_panics (st : throttle.State) (ctx : Context) :
  snd (throttle.once_do d st ctx) = negb (throttle.once st) && (d <=? 0).
Proof.
  unfold throttle.once_do. destruct (throttle.once st); [reflexivity|].
  destruct (d <=? 0); reflexivity.
Qed.

Lemma call_tokens_bounds (st : throttle.State) (ctx : Context) (w : W) :
  is_uint max ->
  0 <= throttle.tokens st <= max ->
  0 <= throttle.tokens
         (snd (throttle.Throttle clock effector max refill d st ctx w)) <= max.
Proof.
  intros Hmax Hst. unfold throttle.Throttle.
  destruct (negb (is_nil (Err ctx (clock w)))); [exact Hst|].
  pose proof (once_do_tokens st ctx) as Hsame.
  destruct (throttle.once_do d st ctx) as [st1 panic]. cbn [fst] in Hsame.
  destruct panic; [cbn [snd]; rewrite Hsame; exact Hst|].
  rewrite Hsame.
  destruct (throttle.tokens st <=? 0) eqn:Hz.
  - cbn [snd]. rewrite ?Hsame. exact Hst.
  - apply Z.leb_gt in Hz. destruct (effector ctx w) as [r w'].
    cbn [snd throttle.tokens]. rewrite ?Hsame. unfold uint_sub.
    rewrite wrap_uint_id; unfold is_uint, uint_max in *; lia.
Qed.

Lemma stop_tokens (st : throttle.State) (now : Time) :
  throttle.tokens (throttle.stop st now) = throttle.tokens st.
Proof.
  unfold throttle.stop. destruct (throttle.refill_loop st) as [c|]; [|reflexivity].
  destruct (is_nil (Err c now)); reflexivity.
Qed.

(** The bucket starts full; in every state an instance can reach, by
    calls (also one that panics), refill ticks and the end of the refill
    goroutine in any order, the token count lies between 0 and the
    capacity, for every interval and every refill; a tick of the running
    refill goroutine sets the count to the minimum of the [uint] sum
    [tokens + refill] and [max], which is the minimum of the plain sum
    and [max] whenever that sum fits a [uint]. *)
Theorem Throttle_tokens_within_capacity :
  is_uint max ->
  throttle.tokens (throttle.init max) = max
  /\ (forall st, throttle.reachable clock effector max refill d st ->
        0 <= throttle.tokens st <= max)
  /\ (forall st c, throttle.refill_loop st = Some c ->
        throttle.tokens (throttle.tick max refill st)
        = Z.min (uint_add (throttle.tokens st) refill) max
        /\ (0 <= throttle.tokens st + refill <= uint_max ->
            throttle.tokens (throttle.tick max refill st)
            = Z.min (throttle.tokens st + refill) max)).
Proof.
  intros Hmax. split; [reflexivity|]. split.
  - intros st Hreach. induction Hreach.
    + simpl. unfold is_uint in Hmax. lia.
    + apply call_tokens_bounds; assumption.
    + apply tick_tokens_bounds; [unfold is_uint in Hmax; lia | assumption].
    + rewrite stop_tokens. assumption.
  - intros st c Hloop. unfold throttle.tick. rewrite Hloop. simpl.
    split; [reflexivity|]. intros Hfit. unfold uint_add.
    rewrite wrap_uint_id; [reflexivity | exact Hfit].
Qed.

(** C5, amended.  A call whose context is already done returns the
    context's error, leaves the state (the token count with it) and the
    world as they were and calls nothing.  Otherwise the first such call
    of an instance made with an interval [d <= 0] panics in
    [time.NewTicker]: no token is taken, the effector is not called, and
    the [sync.Once] is left done with no refill goroutine.  Otherwise a
    call that finds no token is turned away with the error of an
    exhausted bucket, the count still 0 and the effector not called;
    otherwise the count drops by exactly one, the effector is called once
    and its pair is returned verbatim. *)
Theorem Throttle_call_cases (st : throttle.State) (ctx : Context) (w : W) :
  is_uint (throttle.tokens st) ->
  let e := fst (throttle.Throttle clock effector max refill d st ctx w) in
  let st' := snd (throttle.Throttle clock effector max refill d st ctx w) in
  match Err ctx (clock w) with
  | Some err =>
      e = throttle.Returned (mkOutcome (""%string, Some err) w 0) /\ st' = st
  | None =>
      if negb (throttle.once st) && (d <=? 0) then
        e = throttle.Panicked
        /\ throttle.tokens st' = throttle.tokens st
        /\ throttle.once st' = true
        /\ throttle.refill_loop st' = None
      else if throttle.tokens st =? 0 then
        e = throttle.Returned
              (mkOutcome (""%string, Some (Errorf "too many calls")) w 0)
        /\ throttle.tokens st' = 0
      else
        exists o, e = throttle.Returned o
                  /\ invoked o = 1%nat
                  /\ throttle.tokens st' = throttle.tokens st - 1
                  /\ ret o = fst (effector ctx w)
                  /\ world o = snd (effector ctx w)
  end.
Proof.
  intros Hu. unfold throttle.Throttle.
  destruct (Err ctx (clock w)) as [err|]; cbn [is_nil negb]; [cbn; auto|].
  unfold throttle.once_do.
  destruct (throttle.once st) eqn:Honce; cbn [negb andb].
  - destruct (throttle.tokens st =? 0) eqn:Hz.
    + apply Z.eqb_eq in Hz. rewrite Hz. cbn. auto.
    + apply Z.eqb_neq in Hz.
      cmp_false (throttle.tokens st <=? 0).
      destruct (effector ctx w) as [r w'].
      cbn [fst snd throttle.tokens].
      eexists. split; [reflexivity|]. cbn [ret invoked world].
      repeat split. unfold uint_sub. apply wrap_uint_id.
      unfold is_uint, uint_max in *. lia.
  - destruct (d <=? 0); [cbn; auto|].
    cbn [throttle.tokens].
    destruct (throttle.tokens st =? 0) eqn:Hz.
    + apply Z.eqb_eq in Hz. rewrite Hz. cbn. auto.
    + apply Z.eqb_neq in Hz.
      cmp_false (throttle.tokens st <=? 0).
      destruct (effector ctx w) as [r w'].
      cbn [fst snd throttle.tokens].
      eexists. split; [reflexivity|]. cbn [ret invoked world].
      repeat split. unfold uint_sub. apply wrap_uint_id.
      unfold is_uint, uint_max in *. lia.
Qed.

End ThrottleFacts.

(** A run: capacity 3, refill 2, after two admitted calls and a tick. *)
Lemma Throttle_tokens_within_capacity_witness :
  throttle.tokens (throttle.init 3) = 3
  /\ 0 <= throttle.tokens
            (throttle.tick 3 2
               (snd (throttle.Throttle examples.now
                       (examples.op 5 examples.ok_answer) 3 2 Second
                       (snd (throttle.Throttle examples.now
                               (examples.op 5 examples.ok_answer) 3 2 Second
                               (throttle.init 3) Background (examples.mkWorld 10 0)))
                       Background (examples.mkWorld 20 1)))) <= 3.
Proof.
  destruct (Throttle_tokens_within_capacity examples.now
              (examples.op 5 examples.ok_answer) 3 2 Second) as (Hinit & Hinv & _).
  - unfold is_uint, uint_max. lia.
  - split; [exact Hinit|]. apply Hinv.
    apply throttle.reach_tick, throttle.reach_call, throttle.reach_call,
      throttle.reach_init.
Defined.

(** C4, evaluated on the code.  Capacity 2, refill [2^64 - 1] (the
    largest [uint]), interval one second.  After one admitted call the
    bucket holds 1 token and the refill goroutine runs.  The
    specification's tick fills the bucket: [min(1 + refill, 2) = 2].  The
    code adds in a [uint], where [1 + refill] wraps to 0: the tick empties
    the bucket, and the next call is turned away. *)
Theorem Throttle_refill_wraps_around :
  let effector := examples.op 5 examples.ok_answer in
  let refill := uint_max in
  let st := snd (throttle.Throttle examples.now effector 2 refill Second
                   (throttle.init 2) Background (examples.mkWorld 10 0)) in
  let next := throttle.Throttle examples.now effector 2 refill Second
                (throttle.tick 2 refill st) Background (examples.mkWorld 20 1) in
  throttle.reachable examples.now effector 2 refill Second st
  /\ throttle.tokens st = 1
  /\ throttle.refill_loop st = Some Background
  /\ Z.min (throttle.tokens st + refill) 2 = 2
  /\ throttle.tokens (throttle.tick 2 refill st) = 0
  /\ fst next
     = throttle.Returned
         (mkOutcome (""%string, Some (Errorf "too many calls"))
            (examples.mkWorld 20 1) 0).
Proof.
  intros effector refill st next. split.
  - apply throttle.reach_call, throttle.reach_init.
  - vm_compute. repeat split.
Qed.

(** A run of C5: a bucket holding two tokens, a live context, an interval
    of one second. *)
Lemma Throttle_call_cases_witness :
  let call := throttle.Throttle examples.now (examples.op 5 examples.ok_answer)
                3 2 Second (throttle.mkState 2 false None) Background
                (examples.mkWorld 10 0) in
  exists o, fst call = throttle.Returned o
            /\ invoked o = 1%nat
            /\ throttle.tokens (snd call) = 2 - 1
            /\ ret o = fst (examples.op 5 examples.ok_answer Background
                              (examples.mkWorld 10 0))
            /\ world o = snd (examples.op 5 examples.ok_answer Background
                                (examples.mkWorld 10 0)).
Proof.
  apply (Throttle_call_cases examples.now (examples.op 5 examples.ok_answer)
           3 2 Second (throttle.mkState 2 false None) Background
           (examples.mkWorld 10 0)).
  unfold is_uint, uint_max. simpl. lia.
Defined.

(** C5 as stated fails.  [Throttle(effector, 3, 2, 0)]: the first call,
    with a live context and a full bucket, does not consume a token and
    does not return the effector's pair; it panics. *)
Lemma Throttle_call_cases_counterexample :
  let call := throttle.Throttle examples.now (examples.op 5 examples.ok_answer)
                3 2 0 (throttle.init 3) Background (examples.mkWorld 10 0) in
  Err Background (examples.now (examples.mkWorld 10 0)) = None
  /\ throttle.tokens (throttle.init 3) <> 0
  /\ ~ (exists o, fst call = throttle.Returned o
                  /\ invoked o = 1%nat
                  /\ throttle.tokens (snd call) = 3 - 1).
Proof.
  split; [reflexivity|]. split; [discriminate|].
  intros (o & Ho & _). vm_compute in Ho. discriminate Ho.
Qed.

(** ** DebounceFirst *)

Section DebounceFirstFacts.
Context {W : Type}.
Variable clock : W -> Time.
Variable circuit : debounce.Circuit (W := W).
Variable d : Duration.

(** The cache holds the pair of the most recent call that ran the
    circuit; before the first such call the variables have their zero
    values. *)
Lemma first_cache_is_last_run (st : debounce.FirstState) (h : option result) :
  debounce.first_reachable clock circuit d st h ->
  match h with
  | None => st = debounce.first_init
  | Some r => (debounce.result st, debounce.err st) = r
  end.
Proof.
  intros Hreach. induction Hreach as [|st h ctx w Hreach IH Hclock].
  - reflexivity.
  - unfold debounce.DebounceFirst.
    destruct (Before (clock w) (debounce.threshold st)) eqn:Hb.
    + exact IH.
    + destruct (circuit ctx w) as [[result' err'] w']. reflexivity.
Qed.

(** C6: in a state an instance has reached, a call made strictly before
    [threshold] does not call the circuit, changes neither state nor
    world, and returns the cached pair, which is the pair of the most
    recent call that ran the circuit; a call made at or after
    [threshold] calls the circuit once, returns and caches its pair, and
    moves [threshold] to [d] after the clock read when the circuit
    returned. *)
Theorem DebounceFirst_window
    (st : debounce.FirstState) (h : option result) (ctx : Context) (w : W) :
  debounce.first_reachable clock circuit d st h ->
  zero_time <= clock w ->
  let o := fst (debounce.DebounceFirst clock circuit d st ctx w) in
  let st' := snd (debounce.DebounceFirst clock circuit d st ctx w) in
  if clock w <? debounce.threshold st then
    h = Some (ret o)
    /\ ret o = (debounce.result st, debounce.err st)
    /\ invoked o = 0%nat /\ st' = st /\ world o = w
  else
    invoked o = 1%nat
    /\ ret o = fst (circuit ctx w)
    /\ world o = snd (circuit ctx w)
    /\ (debounce.result st', debounce.err st') = fst (circuit ctx w)
    /\ debounce.threshold st' = clock (snd (circuit ctx w)) + d.
Proof.
  intros Hreach Hclock. pose proof (first_cache_is_last_run st h Hreach) as Hcache.
  unfold debounce.DebounceFirst, Before.
  destruct (clock w <? debounce.threshold st) eqn:Hb.
  - cbn [fst snd ret invoked world]. repeat split.
    destruct h as [r|].
    + rewrite Hcache. reflexivity.
    + subst st. apply Z.ltb_lt in Hb. cbn in Hb.
      unfold zero_time in *. lia.
  - destruct (circuit ctx w) as [[result' err'] w']. cbn. auto.
Qed.

End DebounceFirstFacts.

(** A run of C6: window of one second; the first call runs the circuit,
    a second call half a second later is served from the cache. *)
Lemma DebounceFirst_window_witness :
  let circuit := examples.op 1000 examples.bad_answer in
  let w0 := examples.mkWorld 5000 0 in
  let first := debounce.DebounceFirst examples.now circuit Second
                 debounce.first_init Background w0 in
  let w1 := examples.sleep 500000000 (world (fst first)) in
  let second := debounce.DebounceFirst examples.now circuit Second
                  (snd first) Background w1 in
  Some (ret (fst first)) = Some (ret (fst second))
  /\ ret (fst second) = (debounce.result (snd first), debounce.err (snd first))
  /\ invoked (fst second) = 0%nat /\ snd second = snd first
  /\ world (fst second) = w1.
Proof.
  intros circuit w0 first w1.
  apply (DebounceFirst_window examples.now circuit Second
           (snd first) (Some (ret (fst first))) Background w1).
  - apply (debounce.first_reach_call examples.now circuit Second
             debounce.first_init None Background w0).
    + apply debounce.first_reach_init.
    + vm_compute. discriminate.
  - vm_compute. discriminate.
Defined.

(** ** Timeout and TimeoutWithPrecheck *)

Section TimeoutFacts.
Variable fn : timeout.SlowFunction.
Variable ctx : Context.
Variable arg : string.
Variable t0 : Time.









End TimeoutFacts.

(** ** DebounceLast *)

Section DebounceLastFacts.
Variable d : Duration.

Lemma nth_error_update_same (f : debounce.Call -> debounce.Call)
    (l : list debounce.Call) (i : nat) (c : debounce.Call) :
  nth_error l i = Some c ->
  nth_error (debounce.update i f l) i = Some (f c).
Proof.
  revert i. induction l as [|x l IH]; intros [|i] H; simpl in *;
    try discriminate.
  - injection H as ->. reflexivity.
  - apply IH. exact H.
Qed.

(** A call that waits on its own derived context, which is still the
    shared [cctx], is superseded by a call whose context is live: its
    timer is stopped and its own context is cancelled, yet when its
    [select] proceeds it returns a nil error, because [cctx.Err()] reads
    the context of the superseding call. *)
Lemma superseded_call_reads_new_context
    (s : debounce.LastState) (i : nat) (c : debounce.Call)
    (ctx : Context) (coin : bool) :
  nth_error (debounce.calls s) i = Some c ->
  debounce.status c = debounce.Waiting i ->
  debounce.ch c = None ->
  debounce.derived_err c (debounce.clock s) = None ->
  debounce.timer s = Some i ->
  debounce.cancel s = Some i ->
  Err ctx (debounce.clock s) = None ->
  let s' := debounce.wake i coin (debounce.enter d ctx s) in
  debounce.returned s' i = Some (""%string, None)
  /\ debounce.own_err s' i = Some Canceled.
Proof.
  intros Hi Hst Hch Hlive Ht Hc Hctx.
  assert (Hnc : debounce.cancelled_at c = None).
  { unfold debounce.derived_err in Hlive.
    destruct (debounce.cancelled_at c); [|reflexivity].
    destruct (done_at (debounce.parent c)); [|discriminate].
    destruct (_ <=? _); discriminate. }
  assert (Hpar : Err (debounce.parent c) (debounce.clock s) = None).
  { unfold debounce.derived_err in Hlive. rewrite Hnc in Hlive. exact Hlive. }
  set (c1 := debounce.do_cancel (debounce.clock s) (debounce.stop_timer c)).
  assert (Hc1 : debounce.status c1 = debounce.Waiting i
                /\ debounce.ch c1 = None
                /\ debounce.cancelled_at c1 = Some (debounce.clock s)
                /\ debounce.parent c1 = debounce.parent c).
  { unfold c1, debounce.do_cancel, debounce.stop_timer.
    destruct (debounce.timer_st c); simpl; rewrite Hnc; simpl; auto. }
  destruct Hc1 as (Hst1 & Hch1 & Hca1 & Hpa1).
  assert (Herr1 : debounce.derived_err c1 (debounce.clock s) = Some Canceled).
  { unfold debounce.derived_err. rewrite Hca1, Hpa1.
    unfold Err in Hpar. destruct (done_at (debounce.parent c)) as [tp|];
      [|reflexivity].
    destruct (tp <=? debounce.clock s); [discriminate | reflexivity]. }
  set (l1 := debounce.update i (debounce.do_cancel (debounce.clock s))
               (debounce.update i debounce.stop_timer (debounce.calls s))).
  assert (Hl1 : nth_error l1 i = Some c1).
  { unfold l1, c1. apply nth_error_update_same, nth_error_update_same, Hi. }
  assert (Hlen : (i < List.length l1)%nat).
  { apply nth_error_Some. rewrite Hl1. discriminate. }
  set (new := debounce.mkCall ctx None (debounce.Pending (Add (debounce.clock s) d))
                None debounce.Entered).
  assert (Henter : debounce.enter d ctx s
                   = debounce.mkLastState (debounce.clock s) (l1 ++ [new])
                       (Some (List.length l1)) (Some (List.length l1))
                       (Some (List.length l1)) (debounce.invocations s)).
  { unfold debounce.enter. rewrite Ht, Hc. reflexivity. }
  intros s'. subst s'. rewrite Henter.
  unfold debounce.wake. cbn [debounce.calls debounce.clock].
  assert (Hl2 : nth_error (l1 ++ [new]) i = Some c1)
    by (rewrite nth_error_app1 by exact Hlen; exact Hl1).
  rewrite Hl2. cbn beta iota. rewrite Hst1. cbn beta iota.
  rewrite Hl2, Hch1, Herr1. cbn [is_nil negb].
  unfold debounce.shared_err. cbn [debounce.cctx debounce.calls debounce.clock].
  rewrite nth_error_app2 by lia. rewrite Nat.sub_diag. cbn [nth_error].
  unfold new at 1. unfold debounce.derived_err at 1.
  cbn [debounce.cancelled_at debounce.parent]. rewrite Hctx.
  unfold debounce.returned, debounce.own_err, debounce.set_status,
    debounce.set_calls. cbn [debounce.calls debounce.clock].
  rewrite !(nth_error_update_same _ _ _ _ Hl2). cbn [debounce.status].
  split; [reflexivity|]. exact Herr1.
Qed.

Variable circuit : nat -> Time -> result.

Lemma nth_error_middle (prev rest : list debounce.Call) (c : debounce.Call)
    (i : nat) :
  List.length prev = i -> nth_error (prev ++ c :: rest) i = Some c.
Proof.
  intros <-. rewrite nth_error_app2 by lia. rewrite Nat.sub_diag. reflexivity.
Qed.

Lemma update_middle (f : debounce.Call -> debounce.Call)
    (prev rest : list debounce.Call) (c : debounce.Call) (i : nat) :
  List.length prev = i ->
  debounce.update i f (prev ++ c :: rest) = prev ++ f c :: rest.
Proof.
  intros <-. induction prev as [|x prev IH]; simpl; [reflexivity|].
  rewrite IH. reflexivity.
Qed.

(** One round of a burst: the waiting call [i] is superseded [gap] after
    it was made, its timer not yet due, and returns a nil error. *)
Lemma supersede_once (prev : list debounce.Call) (ctx ctx' : Context)
    (i : nat) (t : Time) (gap : Duration) :
  List.length prev = i ->
  done_at ctx = None -> done_at ctx' = None ->
  0 <= gap < d ->
  fold_left (debounce.step circuit d)
    [debounce.Advance gap; debounce.Fire i; debounce.Enter ctx';
     debounce.Wake i true; debounce.Select (S i)]
    (debounce.waiting_state d prev ctx i t)
  = debounce.waiting_state d
      (prev ++ [debounce.superseded_call ctx (Add t gap)]) ctx' (S i) (Add t gap).
Proof.
  intros Hlen Hctx Hctx' Hgap.
  set (w := debounce.waiting_call ctx i (Add t d)).
  set (s1 := debounce.mkLastState (Add t gap) (prev ++ [w])
               (Some i) (Some i) (Some i) []).
  set (w1 := debounce.mkCall ctx (Some (Add t gap)) debounce.Stopped None
               (debounce.Waiting i)).
  set (new := debounce.mkCall ctx' None (debounce.Pending (Add (Add t gap) d))
                None debounce.Entered).
  set (s3 := debounce.mkLastState (Add t gap) ((prev ++ [w1]) ++ [new])
               (Some (S i)) (Some (S i)) (Some (S i)) []).
  set (sup := debounce.superseded_call ctx (Add t gap)).
  set (s4 := debounce.mkLastState (Add t gap) (prev ++ [sup; new])
               (Some (S i)) (Some (S i)) (Some (S i)) []).
  assert (E1 : debounce.step circuit d (debounce.waiting_state d prev ctx i t)
                 (debounce.Advance gap) = s1).
  { unfold debounce.step, debounce.waiting_state, s1.
    cbn [debounce.clock debounce.calls debounce.timer debounce.cctx
         debounce.cancel debounce.invocations].
    rewrite Z.max_r by lia. reflexivity. }
  assert (E2 : debounce.step circuit d s1 (debounce.Fire i) = s1).
  { unfold debounce.step, debounce.fire, s1.
    cbn [debounce.clock debounce.calls debounce.cctx].
    rewrite (nth_error_middle prev [] w i Hlen).
    unfold w at 1. cbn [debounce.timer_st debounce.waiting_call].
    cmp_false (Add t d <=? Add t gap).
    reflexivity. }
  assert (Hlen1 : List.length (prev ++ [w1]) = S i).
  { rewrite length_app. cbn [List.length]. lia. }
  assert (E3 : debounce.step circuit d s1 (debounce.Enter ctx') = s3).
  { unfold debounce.step, debounce.enter, s1.
    cbn [debounce.timer debounce.cancel debounce.calls debounce.clock
         debounce.set_calls debounce.invocations].
    rewrite (update_middle debounce.stop_timer prev [] w i Hlen).
    rewrite (update_middle (debounce.do_cancel (Add t gap)) prev []
               (debounce.stop_timer w) i Hlen).
    change (debounce.do_cancel (Add t gap) (debounce.stop_timer w)) with w1.
    rewrite Hlen1. reflexivity. }
  assert (Hw1 : nth_error ((prev ++ [w1]) ++ [new]) i = Some w1).
  { rewrite <- app_assoc. apply nth_error_middle, Hlen. }
  assert (Hnew : nth_error ((prev ++ [w1]) ++ [new]) (S i) = Some new).
  { apply nth_error_middle, Hlen1. }
  assert (E4 : debounce.step circuit d s3 (debounce.Wake i true) = s4).
  { unfold debounce.step, debounce.wake, s3.
    cbn [debounce.calls debounce.clock]. rewrite Hw1.
    cbn [w1 debounce.status debounce.ch]. rewrite Hw1.
    assert (Hd1 : debounce.derived_err w1 (Add t gap) = Some Canceled)
      by (unfold debounce.derived_err, w1;
          cbn [debounce.cancelled_at debounce.parent]; rewrite Hctx; reflexivity).
    rewrite Hd1. cbn [is_nil negb].
    unfold debounce.shared_err. cbn [debounce.cctx debounce.calls debounce.clock].
    rewrite Hnew.
    assert (Hd2 : debounce.derived_err new (Add t gap) = None)
      by (unfold debounce.derived_err, new, Err;
          cbn [debounce.cancelled_at debounce.parent]; rewrite Hctx'; reflexivity).
    rewrite Hd2.
    unfold debounce.set_status, debounce.set_calls.
    cbn [debounce.calls debounce.clock debounce.timer debounce.cctx
         debounce.cancel debounce.invocations].
    rewrite <- app_assoc. cbn [app].
    rewrite (update_middle _ prev [new] w1 i Hlen). reflexivity. }
  assert (E5 : debounce.step circuit d s4 (debounce.Select (S i))
               = debounce.waiting_state d (prev ++ [sup]) ctx' (S i) (Add t gap)).
  { assert (Hlen2 : List.length (prev ++ [sup]) = S i)
      by (rewrite length_app; cbn [List.length]; lia).
    unfold debounce.step, debounce.enter_select, s4.
    cbn [debounce.calls debounce.cctx].
    change (prev ++ [sup; new]) with (prev ++ [sup] ++ [new]).
    rewrite app_assoc.
    rewrite (nth_error_middle (prev ++ [sup]) [] new (S i) Hlen2).
    cbn [new debounce.status]. unfold debounce.set_calls.
    cbn [debounce.calls debounce.clock debounce.timer debounce.cctx
         debounce.cancel debounce.invocations].
    rewrite (update_middle _ (prev ++ [sup]) [] new (S i) Hlen2).
    reflexivity. }
  cbn [fold_left]. rewrite E1, E2, E3, E4, E5. reflexivity.
Qed.

Lemma last_cons (a b : Context) (l : list Context) :
  last (a :: l) b = last l a.
Proof.
  revert a b. induction l as [|x l IH]; intros a b; [reflexivity|].
  change (last (a :: x :: l) b) with (last (x :: l) b).
  rewrite (IH x b), (IH x a). reflexivity.
Qed.

Lemma last_live (rest : list Context) :
  Forall (fun c => done_at c = None) rest ->
  forall ctx, done_at ctx = None -> done_at (last rest ctx) = None.
Proof.
  intros Hrest. induction Hrest as [|c rest Hc Hrest IH]; intros ctx Hctx.
  - exact Hctx.
  - rewrite last_cons. apply IH, Hc.
Qed.

(** The rounds of a burst, from the state in which call [i] waits. *)
Lemma supersede_all (gap : Duration) (rest : list Context) :
  0 <= gap < d ->
  Forall (fun c => done_at c = None) rest ->
  forall (prev : list debounce.Call) (ctx : Context) (i : nat) (t : Time),
    List.length prev = i ->
    done_at ctx = None ->
    fold_left (debounce.step circuit d) (debounce.supersede i rest gap)
      (debounce.waiting_state d prev ctx i t)
    = debounce.waiting_state d
        (prev ++ debounce.superseded_calls t gap (removelast (ctx :: rest)))
        (last rest ctx) (i + List.length rest)
        (t + gap * Z.of_nat (List.length rest)).
Proof.
  intros Hgap Hrest. induction Hrest as [|ctx' rest Hctx' Hrest IH];
    intros prev ctx i t Hlen Hctx.
  - cbn [debounce.supersede fold_left removelast debounce.superseded_calls
         last List.length].
    rewrite app_nil_r, Nat.add_0_r. f_equal. cbn. lia.
  - cbn [debounce.supersede]. rewrite fold_left_app.
    rewrite (supersede_once prev ctx ctx' i t gap Hlen Hctx Hctx' Hgap).
    rewrite (IH (prev ++ [debounce.superseded_call ctx (Add t gap)]) ctx' (S i)
               (Add t gap)); [| rewrite length_app; cbn [List.length]; lia
                             | exact Hctx'].
    rewrite last_cons. rewrite <- app_assoc.
    change (removelast (ctx :: ctx' :: rest))
      with (ctx :: removelast (ctx' :: rest)).
    cbn [debounce.superseded_calls app List.length].
    f_equal; unfold Add; lia.
Qed.

(** The end of a burst: the window passes, the timer of the waiting call
    fires, the circuit runs with the shared [cctx], and the call returns
    what the circuit returned. *)
Lemma last_round (prev : list debounce.Call) (ctx : Context) (n : nat)
    (t : Time) :
  List.length prev = n -> done_at ctx = None -> 0 <= d ->
  fold_left (debounce.step circuit d)
    [debounce.Advance d; debounce.Fire n; debounce.Wake n true]
    (debounce.waiting_state d prev ctx n t)
  = debounce.mkLastState (Add t d)
      (prev ++ [debounce.mkCall ctx None debounce.Fired None
                  (debounce.Returned (circuit n (Add t d)))])
      (Some n) (Some n) (Some n) [n].
Proof.
  intros Hlen Hctx Hd.
  set (w := debounce.waiting_call ctx n (Add t d)).
  set (r := circuit n (Add t d)).
  set (s1 := debounce.mkLastState (Add t d) (prev ++ [w])
               (Some n) (Some n) (Some n) []).
  set (f := debounce.mkCall ctx None debounce.Fired (Some r) (debounce.Waiting n)).
  set (s2 := debounce.mkLastState (Add t d) (prev ++ [f])
               (Some n) (Some n) (Some n) [n]).
  assert (E1 : debounce.step circuit d (debounce.waiting_state d prev ctx n t)
                 (debounce.Advance d) = s1).
  { unfold debounce.step, debounce.waiting_state, s1.
    cbn [debounce.clock debounce.calls debounce.timer debounce.cctx
         debounce.cancel debounce.invocations].
    rewrite Z.max_r by lia. reflexivity. }
  assert (E2 : debounce.step circuit d s1 (debounce.Fire n) = s2).
  { unfold debounce.step, debounce.fire, s1.
    cbn [debounce.clock debounce.calls debounce.cctx debounce.timer
         debounce.cancel debounce.invocations].
    rewrite (nth_error_middle prev [] w n Hlen).
    unfold w at 1. cbn [debounce.timer_st debounce.waiting_call].
    rewrite Z.leb_refl.
    rewrite (update_middle _ prev [] w n Hlen). reflexivity. }
  cbn [fold_left]. rewrite E1, E2.
  unfold debounce.step, debounce.wake, s2. cbn [debounce.calls debounce.clock].
  rewrite (nth_error_middle prev [] f n Hlen).
  cbn [f debounce.status debounce.ch].
  rewrite (nth_error_middle prev [] f n Hlen).
  assert (Hlive : debounce.derived_err f (Add t d) = None)
    by (unfold debounce.derived_err, f, Err;
        cbn [debounce.cancelled_at debounce.parent]; rewrite Hctx; reflexivity).
  rewrite Hlive. cbn [is_nil negb andb].
  unfold debounce.set_calls.
  cbn [debounce.calls debounce.clock debounce.timer debounce.cctx
       debounce.cancel debounce.invocations].
  rewrite (update_middle _ prev [] f n Hlen). reflexivity.
Qed.

Lemma length_superseded_calls (t : Time) (gap : Duration) (ctxs : list Context) :
  List.length (debounce.superseded_calls t gap ctxs) = List.length ctxs.
Proof.
  revert t. induction ctxs as [|c ctxs IH]; intros t; simpl; [|rewrite IH];
    reflexivity.
Qed.

(** Each of the superseded calls returned a nil error, although its own
    derived context reports [Canceled]. *)
Lemma superseded_calls_spec (gap : Duration) (ctxs : list Context) :
  Forall (fun c => done_at c = None) ctxs ->
  forall (t : Time) (j : nat) (c : debounce.Call),
    nth_error (debounce.superseded_calls t gap ctxs) j = Some c ->
    debounce.status c = debounce.Returned (""%string, None)
    /\ forall now, debounce.derived_err c now = Some Canceled.
Proof.
  intros Hall. induction Hall as [|ctx ctxs Hctx Hall IH]; intros t j c Hj.
  - destruct j; discriminate Hj.
  - destruct j as [|j]; simpl in Hj.
    + injection Hj as <-. split; [reflexivity|]. intros now.
      unfold debounce.derived_err. simpl. rewrite Hctx. reflexivity.
    + exact (IH _ _ _ Hj).
Qed.

Lemma Forall_removelast (P : Context -> Prop) (l : list Context) :
  Forall P l -> Forall P (removelast l).
Proof.
  intros H. induction H as [|x l Hx Hl IH]; [constructor|].
  destruct l as [|y l]; [constructor|].
  change (removelast (x :: y :: l)) with (x :: removelast (y :: l)).
  constructor; assumption.
Qed.

Lemma length_removelast_cons (a : Context) (l : list Context) :
  List.length (removelast (a :: l)) = List.length l.
Proof.
  revert a. induction l as [|x l IH]; intros a; [reflexivity|].
  change (removelast (a :: x :: l)) with (a :: removelast (x :: l)).
  cbn [List.length]. rewrite IH. reflexivity.
Qed.

(** C7, on the code.  Every burst of calls whose contexts are never
    cancelled, made less than the window apart: the circuit is called
    exactly once, with the context derived for the last call, and the
    last call returns the circuit's pair; but every superseded call
    returns the empty string with a nil error, while the context derived
    for it reports [Canceled]. *)
Theorem DebounceLast_superseded_calls_return_nil_error
    (ctx0 : Context) (rest : list Context)
    (gap : Duration) (t0 : Time) :
  done_at ctx0 = None ->
  Forall (fun c => done_at c = None) rest ->
  0 <= gap < d ->
  let n := List.length rest in
  let s := debounce.DebounceLast circuit d (debounce.burst ctx0 rest gap d)
             (debounce.last_init t0) in
  debounce.invocations s = [n]
  /\ debounce.returned s n
     = Some (circuit n (t0 + gap * Z.of_nat n + d))
  /\ forall j, (j < n)%nat ->
       debounce.returned s j = Some (""%string, None)
       /\ debounce.own_err s j = Some Canceled.
Proof.
  intros Hctx0 Hrest Hgap n s.
  assert (Hs : s = debounce.mkLastState (Add (t0 + gap * Z.of_nat n) d)
                 (debounce.superseded_calls t0 gap (removelast (ctx0 :: rest))
                  ++ [debounce.mkCall (last rest ctx0) None debounce.Fired None
                        (debounce.Returned
                           (circuit n (Add (t0 + gap * Z.of_nat n) d)))])
                 (Some n) (Some n) (Some n) [n]).
  { unfold s, debounce.DebounceLast, debounce.burst.
    rewrite fold_left_app.
    change (fold_left (debounce.step circuit d)
              [debounce.Enter ctx0; debounce.Select 0] (debounce.last_init t0))
      with (debounce.waiting_state d [] ctx0 0 t0).
    rewrite fold_left_app.
    rewrite (supersede_all gap rest Hgap Hrest [] ctx0 0 t0 eq_refl Hctx0).
    cbn [app Nat.add]. fold n.
    apply last_round; [| | lia].
    - rewrite length_superseded_calls. apply length_removelast_cons.
    - apply last_live; assumption. }
  assert (Hlen : List.length
                   (debounce.superseded_calls t0 gap (removelast (ctx0 :: rest)))
                 = n).
  { rewrite length_superseded_calls. apply length_removelast_cons. }
  rewrite Hs. split; [reflexivity|]. split.
  - unfold debounce.returned. cbn [debounce.calls].
    rewrite (nth_error_middle _ [] _ n Hlen). reflexivity.
  - intros j Hj. unfold debounce.returned, debounce.own_err.
    cbn [debounce.calls debounce.clock].
    rewrite nth_error_app1 by lia.
    destruct (nth_error (debounce.superseded_calls t0 gap
                           (removelast (ctx0 :: rest))) j) as [c|] eqn:Hc.
    + destruct (superseded_calls_spec gap (removelast (ctx0 :: rest))
                  (Forall_removelast _ _ (Forall_cons _ Hctx0 Hrest))
                  t0 j c Hc) as [Hst Herr].
      rewrite Hst, Herr. split; reflexivity.
    + apply nth_error_None in Hc. lia.
Qed.

End DebounceLastFacts.

(** A run of C7: three calls with [context.Background()], 100 ms apart,
    window of one second. *)
Lemma DebounceLast_superseded_calls_return_nil_error_witness :
  let s := debounce.DebounceLast debounce.quick Second
             (debounce.burst Background [Background; Background]
                             100000000 Second)
             (debounce.last_init 5000) in
  debounce.invocations s = [2%nat]
  /\ debounce.returned s 2
     = Some (debounce.quick 2 (5000 + 100000000 * Z.of_nat 2 + Second))
  /\ forall j, (j < 2)%nat ->
       debounce.returned s j = Some (""%string, None)
       /\ debounce.own_err s j = Some Canceled.
Proof.
  apply (DebounceLast_superseded_calls_return_nil_error Second debounce.quick
           Background [Background; Background] 100000000 5000).
  - reflexivity.
  - repeat constructor.
  - unfold Second. lia.
Defined.

(** The same run, by evaluation of the schedule. *)
Example DebounceLast_three_calls :
  let s := debounce.DebounceLast debounce.quick Second
             (debounce.burst Background [Background; Background]
                             100000000 Second)
             (debounce.last_init 5000) in
  debounce.invocations s = [2%nat]
  /\ debounce.returned s 2 = Some ("ran"%string, None)
  /\ debounce.own_err s 0 = Some Canceled
  /\ debounce.returned s 0 = Some (""%string, None)
  /\ debounce.own_err s 1 = Some Canceled
  /\ debounce.returned s 1 = Some (""%string, None).
Proof. vm_compute. repeat split; reflexivity. Qed.

(** C8, evaluated on the code.  [Timeout(fn)] is called at instant 1000
    with a context whose deadline passed at instant 500, and the worker
    goroutine has sent the pair of [fn] by the time the caller reaches
    the [select] (a run that takes no time).  The context is done first,
    so the call is to return the empty string and the context's error.
    Both cases of the [select] are ready and the runtime picks one: the
    call may return the pair of [fn], with a nil error.
    [TimeoutWithPrecheck], which reads [ctx.Err()] first, returns the
    context's error whatever the runtime picks. *)
Theorem Timeout_returns_result_under_done_context :
  let fn := timeout.echo_after 0 in
  let ctx := timeout.with_deadline 500 in
  timeout.done_first (fn "job"%string) ctx 1000
  /\ Err ctx 1000 = Some DeadlineExceeded
  /\ timeout.Timeout fn ctx "job"%string 1000 timeout.RecvResult
     = Some (timeout.mkCall ("job"%string, None) 1000 true
               (Some (1000, ("job"%string, None))) true)
  /\ timeout.Timeout fn ctx "job"%string 1000 timeout.CtxDone
     = Some (timeout.mkCall (""%string, Some DeadlineExceeded) 1000 true
               (Some (1000, ("job"%string, None))) false)
  /\ forall coin,
       timeout.TimeoutWithPrecheck fn ctx "job"%string 1000 coin
       = Some (timeout.mkCall (""%string, Some DeadlineExceeded) 1000 false
                 None false).
Proof.
  intros fn ctx. split.
  - exists 500. split; [reflexivity|].
    intros T HT. injection HT as <-. lia.
  - split; [reflexivity|]. split; [reflexivity|]. split; [reflexivity|].
    intros coin. reflexivity.
Qed.



(** * Further properties of the wrappers *)

(** ** Retry: the attempts are bounded *)

Section RetryBounds.
Context {W : Type}.
Variable effector : retry.Effector (W := W).
Variable maxRetries : Z.
Variable delay : Duration.
Variable ctx : Context.

(** The loop entered with counter [r] makes [k + 1] calls, with [k] at
    most the remaining budget: the first [k] succeeded, each followed by
    one log line, and the loop returns the pair and the world of the last
    call, which is a failure unless the budget is used up. *)
Lemma loop_spec (n : nat) :
  forall (r : Z) (w : W) (calls : nat) (logs : list retry.LogLine) (fuel : nat),
    0 <= r -> maxRetries <= int_max ->
    Z.to_nat (maxRetries - r) = n ->
    (n < fuel)%nat ->
    exists (o : Outcome W) (logs' : list retry.LogLine) (k : nat),
      retry.loop effector maxRetries delay ctx fuel r w calls logs
      = Some (o, logs')
      /\ invoked o = (calls + S k)%nat
      /\ (k <= n)%nat
      /\ List.length logs' = (List.length logs + k)%nat
      /\ ret o = fst (effector ctx (retry.after_calls effector ctx k w))
      /\ world o = retry.after_calls effector ctx (S k) w
      /\ (snd (ret o) = None -> k = n)
      /\ (forall j, (j < k)%nat ->
            snd (fst (effector ctx (retry.after_calls effector ctx j w))) = None).
Proof.
  induction n as [|n IH]; intros r w calls logs fuel Hr Hmax Hn Hfuel;
    (destruct fuel as [|fuel]; [lia|]); simpl;
    destruct (effector ctx w) as [[response err] w'] eqn:Hcall.
  - exists (mkOutcome (response, err) w' (S calls)), logs, 0%nat.
    assert (Hexit : negb (is_nil err) || (maxRetries <=? r) = true).
    { cmp_true (maxRetries <=? r). apply orb_true_r. }
    rewrite Hexit. simpl. rewrite Hcall. simpl.
    repeat split; try lia.
  - destruct err as [e|]; simpl.
    + exists (mkOutcome (response, Some e) w' (S calls)), logs, 0%nat.
      simpl. rewrite Hcall. simpl.
      repeat split; try lia; try discriminate.
    + cmp_false (maxRetries <=? r).
      assert (Hr1 : int_add r 1 = r + 1).
      { apply wrap_int_id. unfold is_int, int_min, int_max in *. lia. }
      rewrite Hr1.
      destruct (IH (r + 1) w' (S calls) (logs ++ [(r + 1, delay)]) fuel)
        as (o & logs' & k & Hloop & Hinv & Hk & Hlogs & Hret & Hworld
            & Hnil & Hprev); try lia.
      exists o, logs', (S k). rewrite Hloop.
      rewrite length_app in Hlogs. cbn [List.length] in Hlogs.
      simpl. rewrite Hcall. simpl.
      repeat split; try lia; try assumption.
      * intros Hn'. specialize (Hnil Hn'). lia.
      * intros [|j] Hj; simpl; rewrite Hcall; simpl; [reflexivity|].
        apply Hprev. lia.
Qed.

(** Whatever the effector does, the wrapper returns; it has made at
    least one and at most [max(maxRetries, 0) + 1] calls and written one
    log line for each call but the last; it returns the pair of its last
    call, every earlier call having succeeded. *)
Theorem Retry_attempts_bounded (w : W) (fuel : nat) :
  is_int maxRetries ->
  (Z.to_nat maxRetries < fuel)%nat ->
  exists (o : Outcome W) (logs : list retry.LogLine),
    retry.Retry effector maxRetries delay ctx fuel w = Some (o, logs)
    /\ (1 <= invoked o)%nat
    /\ Z.of_nat (invoked o) <= Z.max maxRetries 0 + 1
    /\ List.length logs = (invoked o - 1)%nat
    /\ ret o = fst (effector ctx
                      (retry.after_calls effector ctx (invoked o - 1) w))
    /\ forall j, (j < invoked o - 1)%nat ->
         snd (fst (effector ctx (retry.after_calls effector ctx j w))) = None.
Proof.
  intros Hint Hfuel. unfold retry.Retry.
  destruct (loop_spec (Z.to_nat maxRetries) 0 w 0%nat [] fuel)
    as (o & logs & k & Hloop & Hinv & Hk & Hlogs & Hret & _ & _ & Hprev);
    try lia.
  { unfold is_int in Hint. lia. }
  exists o, logs. rewrite Hloop, Hinv. cbn [Nat.add List.length] in *.
  replace (S k - 1)%nat with k by lia.
  repeat split; try lia; assumption.
Qed.

(** A success is returned only by the call that uses up the budget: if
    the wrapper returns a nil error it has made exactly
    [max(maxRetries, 0) + 1] calls, all of which succeeded. *)
Theorem Retry_success_costs_whole_budget (w : W) (fuel : nat)
    (o : Outcome W) (logs : list retry.LogLine) :
  is_int maxRetries ->
  (Z.to_nat maxRetries < fuel)%nat ->
  retry.Retry effector maxRetries delay ctx fuel w = Some (o, logs) ->
  snd (ret o) = None ->
  Z.of_nat (invoked o) = Z.max maxRetries 0 + 1
  /\ forall j, (j < invoked o)%nat ->
       snd (fst (effector ctx (retry.after_calls effector ctx j w))) = None.
Proof.
  intros Hint Hfuel Hrun Hnil. unfold retry.Retry in Hrun.
  destruct (loop_spec (Z.to_nat maxRetries) 0 w 0%nat [] fuel)
    as (o' & logs' & k & Hloop & Hinv & Hk & _ & Hret & _ & Hlast & Hprev);
    try lia.
  { unfold is_int in Hint. lia. }
  rewrite Hloop in Hrun. injection Hrun as <- <-.
  specialize (Hlast Hnil). rewrite Hinv. cbn [Nat.add]. split; [lia|].
  intros j Hj. destruct (Nat.eq_dec j k) as [->|Hne].
  - rewrite <- Hret. exact Hnil.
  - apply Hprev. lia.
Qed.

End RetryBounds.

(** A run: an effector that succeeds three times and fails from then on,
    budget 5.  The fourth call fails and ends the loop. *)
Lemma Retry_attempts_bounded_witness :
  exists (o : Outcome nat) (logs : list retry.LogLine),
    retry.Retry (runs.succeeds_first 3) 5 Second Background 6 0%nat
    = Some (o, logs)
    /\ (1 <= invoked o)%nat
    /\ Z.of_nat (invoked o) <= Z.max 5 0 + 1
    /\ List.length logs = (invoked o - 1)%nat
    /\ ret o = fst (runs.succeeds_first 3 Background
                      (retry.after_calls (runs.succeeds_first 3) Background
                                         (invoked o - 1) 0%nat))
    /\ forall j, (j < invoked o - 1)%nat ->
         snd (fst (runs.succeeds_first 3 Background
                     (retry.after_calls (runs.succeeds_first 3) Background
                                        j 0%nat))) = None.
Proof.
  apply (Retry_attempts_bounded (runs.succeeds_first 3) 5 Second Background
           0%nat 6).
  - unfold is_int, int_min, int_max. lia.
  - simpl. lia.
Defined.

(** A run: an effector that never fails, budget 2: three calls. *)
Lemma Retry_success_costs_whole_budget_witness :
  Z.of_nat (invoked (mkOutcome ("ok"%string, @None error) 3%nat 3)) = Z.max 2 0 + 1
  /\ forall j, (j < 3)%nat ->
       snd (fst (retry.fails_first 0 Background
                   (retry.after_calls (retry.fails_first 0) Background j 0%nat)))
       = None.
Proof.
  apply (Retry_success_costs_whole_budget (retry.fails_first 0) 2 Second
           Background 0%nat 3 (mkOutcome ("ok"%string, None) 3%nat 3)
           [(1, Second); (2, Second)]).
  - unfold is_int, int_min, int_max. lia.
  - simpl. lia.
  - reflexivity.
  - reflexivity.
Defined.

(** ** Circuit breaker: when the circuit is open *)

Section BreakerWindow.
Context {W : Type}.
Variable clock : W -> Time.
Variable circuit : circuitbreaker.Circuit (W := W).
Variable threshold : Z.

(** The test of [Breaker] in closed form, while the shift does not wrap. *)
Lemma blocked_iff_window (st : circuitbreaker.State) (now : Time) :
  int_min <= circuitbreaker.failures st - threshold <= 32 ->
  circuitbreaker.blocked threshold st now = true
  <-> (threshold <= circuitbreaker.failures st
       /\ now <= circuitbreaker.open_until_spec threshold st).
Proof.
  intros Hd. unfold circuitbreaker.blocked, int_sub.
  rewrite wrap_int_id by (unfold is_int, int_min, int_max in *; lia).
  destruct (0 <=? circuitbreaker.failures st - threshold) eqn:Hge.
  - apply Z.leb_le in Hge. rewrite shl_seconds_exact by lia.
    unfold circuitbreaker.open_until_spec, circuitbreaker.cooldown_spec,
      After, Add.
    rewrite negb_true_iff, Z.ltb_ge. split; [intros H; split; lia | intros [_ H]; lia].
  - apply Z.leb_gt in Hge. split; [discriminate | intros [H _]; lia].
Qed.

(** As long as the counter is at most 32 above the threshold, a call is
    turned away exactly when the counter has reached the threshold and
    the clock has not passed [last + 2^(failures - threshold + 1)]
    seconds: below the threshold the circuit is closed, and after the
    cool-down the next call is let through as a probe. *)
Theorem Breaker_blocks_exactly_in_window (st : circuitbreaker.State) (now : Time) :
  int_min <= circuitbreaker.failures st - threshold <= 32 ->
  circuitbreaker.blocked threshold st now = true
  <-> (threshold <= circuitbreaker.failures st
       /\ now <= circuitbreaker.open_until_spec threshold st).
Proof. exact (blocked_iff_window st now). Qed.

(** A call that was let through and whose circuit failed, the counter
    being at most 31 above the threshold before it.  Afterwards a call is
    turned away exactly when the counter, now one higher, has reached the
    threshold and the clock has not passed
    [2^(failures - threshold + 2)] seconds from the instant the circuit
    returned ([failures] as before the call).  So below the threshold a
    failure opens nothing, the failure that reaches the threshold opens
    the circuit for 2 s, and every failure of a probe doubles the
    cool-down and restarts it. *)
Theorem Breaker_failure_doubles_window
    (st : circuitbreaker.State) (ctx : Context) (w : W) (e : error) (now : Time) :
  int_min <= circuitbreaker.failures st - threshold <= 31 ->
  int_min <= circuitbreaker.failures st < int_max ->
  circuitbreaker.blocked threshold st (clock w) = false ->
  snd (fst (circuit ctx w)) = Some e ->
  let st' := snd (circuitbreaker.Breaker clock circuit threshold st ctx w) in
  circuitbreaker.blocked threshold st' now = true
  <-> (threshold <= circuitbreaker.failures st + 1
       /\ now <= clock (snd (circuit ctx w))
                 + 2 ^ (circuitbreaker.failures st - threshold + 2) * Second).
Proof.
  intros Hd Hint Hopen Hfail st'.
  assert (Hst' : st' = circuitbreaker.mkState (circuitbreaker.failures st + 1)
                         (clock (snd (circuit ctx w)))).
  { unfold st', circuitbreaker.Breaker. rewrite Hopen.
    destruct (circuit ctx w) as [[response err] w']. simpl in Hfail. subst err.
    simpl. unfold circuitbreaker.settle, int_add. simpl.
    rewrite wrap_int_id; [reflexivity|].
    unfold is_int, int_min, int_max in *. lia. }
  rewrite Hst'. rewrite blocked_iff_window
    by (cbn [circuitbreaker.failures]; unfold int_min in *; lia).
  unfold circuitbreaker.open_until_spec, circuitbreaker.cooldown_spec.
  cbn [circuitbreaker.failures circuitbreaker.last].
  replace (circuitbreaker.failures st + 1 - threshold + 1)
    with (circuitbreaker.failures st - threshold + 2) by lia.
  reflexivity.
Qed.

(** With a threshold of at least 1, one success closes the circuit: the
    next call is let through whenever it is made. *)
Theorem Breaker_success_closes
    (st : circuitbreaker.State) (ctx : Context) (w : W) (now : Time) :
  1 <= threshold -> is_int threshold ->
  circuitbreaker.blocked threshold st (clock w) = false ->
  snd (fst (circuit ctx w)) = None ->
  let st' := snd (circuitbreaker.Breaker clock circuit threshold st ctx w) in
  circuitbreaker.failures st' = 0
  /\ circuitbreaker.blocked threshold st' now = false.
Proof.
  intros Hth Hint Hopen Hok st'.
  assert (Hst' : st' = circuitbreaker.mkState 0 (clock (snd (circuit ctx w)))).
  { unfold st', circuitbreaker.Breaker. rewrite Hopen.
    destruct (circuit ctx w) as [[response err] w']. simpl in Hok. subst err.
    reflexivity. }
  rewrite Hst'. split; [reflexivity|].
  destruct (circuitbreaker.blocked threshold _ now) eqn:Hb; [|reflexivity].
  apply blocked_iff_window in Hb.
  - cbn [circuitbreaker.failures] in Hb. lia.
  - cbn [circuitbreaker.failures]. unfold is_int, int_min, int_max in *. lia.
Qed.

(** The fresh breaker, called as often as the threshold says with a
    circuit that fails every time: every call reaches the circuit and
    returns its failure, the counter ends at the threshold, and from then
    on a call is turned away if it is made no later than two seconds
    after the last failure returned. *)
Theorem Breaker_trips_after_threshold_failures
    (entries : list (Context * W)) (now : Time) :
  1 <= threshold -> is_int threshold ->
  (forall ctx w, snd (fst (circuit ctx w)) <> None) ->
  Z.of_nat (List.length entries) = threshold ->
  let run := sequences.breaker_calls clock circuit threshold
               circuitbreaker.init entries in
  Forall2 (fun o '(ctx, w) => invoked o = 1%nat /\ ret o = fst (circuit ctx w))
          (fst run) entries
  /\ circuitbreaker.failures (snd run) = threshold
  /\ (now <= circuitbreaker.last (snd run) + 2 * Second ->
      circuitbreaker.blocked threshold (snd run) now = true).
Proof.
  intros Hth Hint Hfail Hlen run.
  assert (Hrun : forall es st,
             0 <= circuitbreaker.failures st ->
             circuitbreaker.failures st + Z.of_nat (List.length es) <= threshold ->
             Forall2 (fun o '(ctx, w) =>
                        invoked o = 1%nat /\ ret o = fst (circuit ctx w))
                     (fst (sequences.breaker_calls clock circuit threshold st es)) es
             /\ circuitbreaker.failures
                  (snd (sequences.breaker_calls clock circuit threshold st es))
                = circuitbreaker.failures st + Z.of_nat (List.length es)).
  { induction es as [|[ctx w] es IH]; intros st Hpos Hsum.
    - simpl. split; [constructor | lia].
    - cbn [List.length] in Hsum. cbn [sequences.breaker_calls].
      assert (Hopen : circuitbreaker.blocked threshold st (clock w) = false).
      { destruct (circuitbreaker.blocked threshold st (clock w)) eqn:Hb;
          [|reflexivity].
        apply blocked_iff_window in Hb; [lia|].
        unfold is_int, int_min, int_max in *. lia. }
      pose proof (Hfail ctx w) as Hne.
      destruct (circuit ctx w) as [[response err] w'] eqn:Hcall.
      destruct err as [e|]; [|exfalso; apply Hne; reflexivity].
      set (st1 := circuitbreaker.settle st (clock w') (Some e)).
      assert (HB : circuitbreaker.Breaker clock circuit threshold st ctx w
                   = (mkOutcome (response, Some e) w' 1, st1))
        by (unfold circuitbreaker.Breaker; rewrite Hopen, Hcall; reflexivity).
      rewrite HB.
      assert (Hf1 : circuitbreaker.failures st1 = circuitbreaker.failures st + 1).
      { unfold st1, circuitbreaker.settle, int_add. simpl.
        apply wrap_int_id. unfold is_int, int_min, int_max in *. lia. }
      destruct (IH st1) as [Hall Hcount]; [lia | lia |].
      destruct (sequences.breaker_calls clock circuit threshold st1 es)
        as [os st2].
      cbn [fst snd] in *. split.
      + constructor; [cbn; rewrite Hcall; split; reflexivity | exact Hall].
      + rewrite Hcount, Hf1. cbn [List.length]. lia. }
  destruct (Hrun entries circuitbreaker.init) as [Hall Hcount].
  { simpl. lia. }
  { simpl. lia. }
  fold run in Hall, Hcount. cbn [circuitbreaker.failures circuitbreaker.init] in Hcount.
  split; [exact Hall|]. split; [lia|].
  intros Hnow. apply blocked_iff_window.
  - unfold int_min. lia.
  - split; [lia|]. unfold circuitbreaker.open_until_spec,
      circuitbreaker.cooldown_spec.
    replace (circuitbreaker.failures (snd run) - threshold + 1) with 1 by lia.
    change (2 ^ 1) with 2. exact Hnow.
Qed.

End BreakerWindow.

(** ** Throttle: how many calls get through *)

Section ThrottleRate.
Context {W : Type}.
Variable clock : W -> Time.
Variable effector : throttle.Effector (W := W).
Variables max refill : Z.
Variable d : Duration.

(** One call takes at most one token, and only if it reaches the
    effector; a call that is rejected or panics takes none. *)
Lemma call_pays_one_token (st : throttle.State) (ctx : Context) (w : W) :
  is_uint (throttle.tokens st) ->
  throttle.tokens (snd (throttle.Throttle clock effector max refill d st ctx w))
  + Z.of_nat (throttle.calls
                (fst (throttle.Throttle clock effector max refill d st ctx w)))
  = throttle.tokens st.
Proof.
  intros Hu. unfold throttle.Throttle.
  destruct (Err ctx (clock w)) as [e|];
    cbn [is_nil negb fst snd throttle.calls invoked]; [lia|].
  pose proof (once_do_tokens d st ctx) as Hsame.
  destruct (throttle.once_do d st ctx) as [st1 panic]. cbn [fst] in Hsame.
  destruct panic; [cbn [fst snd throttle.calls]; lia|].
  rewrite Hsame.
  destruct (throttle.tokens st <=? 0) eqn:Hz.
  - cbn [fst snd throttle.calls invoked]. lia.
  - apply Z.leb_gt in Hz. destruct (effector ctx w) as [r w'].
    cbn [fst snd throttle.calls invoked throttle.tokens]. rewrite ?Hsame.
    unfold uint_sub. rewrite wrap_uint_id; unfold is_uint, uint_max in *; lia.
Qed.

Lemma call_keeps_uint (st : throttle.State) (ctx : Context) (w : W) :
  is_uint (throttle.tokens st) ->
  is_uint (throttle.tokens
             (snd (throttle.Throttle clock effector max refill d st ctx w))).
Proof.
  intros Hu. pose proof (call_pays_one_token st ctx w Hu) as Hpay.
  assert (Hpos : 0 <= throttle.tokens
                        (snd (throttle.Throttle clock effector max refill d
                                st ctx w))).
  { apply (call_tokens_bounds clock effector uint_max refill d st ctx w).
    - unfold is_uint, uint_max. lia.
    - exact Hu. }
  unfold is_uint in *. lia.
Qed.

(** A tick adds at most [refill] tokens. *)
Lemma tick_adds_at_most_refill (st : throttle.State) :
  0 <= refill -> 0 <= throttle.tokens st ->
  throttle.tokens (throttle.tick max refill st) <= throttle.tokens st + refill.
Proof.
  intros Hr Ht. unfold throttle.tick.
  destruct (throttle.refill_loop st); cbn [throttle.tokens]; [|lia].
  unfold uint_add, wrap_uint.
  pose proof (Z.mod_le (throttle.tokens st + refill) (2 ^ 64)
                ltac:(lia) ltac:(lia)). lia.
Qed.

Lemma tick_keeps_uint (st : throttle.State) :
  is_uint max -> is_uint (throttle.tokens st) ->
  is_uint (throttle.tokens (throttle.tick max refill st)).
Proof.
  intros Hm Hu. unfold throttle.tick.
  destruct (throttle.refill_loop st); cbn [throttle.tokens]; [|exact Hu].
  pose proof (wrap_uint_range (throttle.tokens st + refill)) as Hr.
  unfold is_uint, uint_add in *. lia.
Qed.

Lemma throttle_run_uint (events : list (@sequences.ThrottleEvent W)) :
  is_uint max ->
  forall st, is_uint (throttle.tokens st) ->
    is_uint (throttle.tokens
               (fst (sequences.throttle_run clock effector max refill d st events))).
Proof.
  intros Hm. induction events as [|[ctx w| |now] rest IH]; intros st Hu;
    cbn [sequences.throttle_run].
  - exact Hu.
  - pose proof (call_keeps_uint st ctx w Hu) as Hu1.
    destruct (throttle.Throttle clock effector max refill d st ctx w) as [o st1].
    cbn [snd] in Hu1. specialize (IH st1 Hu1).
    destruct (sequences.throttle_run clock effector max refill d st1 rest).
    exact IH.
  - apply IH, tick_keeps_uint; assumption.
  - apply IH. rewrite stop_tokens. exact Hu.
Qed.

(** The token-bucket bound: over any sequence of calls, ticks and stops,
    the calls that reach the effector number at most the tokens in the
    bucket at the start plus [refill] for every tick. *)
Lemma throttle_run_bound (events : list (@sequences.ThrottleEvent W)) :
  is_uint max -> 0 <= refill ->
  forall st, is_uint (throttle.tokens st) ->
    Z.of_nat (snd (sequences.throttle_run clock effector max refill d st events))
    + throttle.tokens
        (fst (sequences.throttle_run clock effector max refill d st events))
    <= throttle.tokens st + Z.of_nat (sequences.ticks events) * refill.
Proof.
  intros Hm Hr. induction events as [|[ctx w| |now] rest IH]; intros st Hu.
  - simpl. lia.
  - cbn [sequences.throttle_run sequences.ticks].
    pose proof (call_pays_one_token st ctx w Hu) as Hpay.
    pose proof (call_keeps_uint st ctx w Hu) as Hu1.
    destruct (throttle.Throttle clock effector max refill d st ctx w) as [o st1].
    cbn [fst snd] in *. specialize (IH st1 Hu1).
    destruct (sequences.throttle_run clock effector max refill d st1 rest)
      as [st2 n]. cbn [fst snd] in *. lia.
  - cbn [sequences.throttle_run sequences.ticks].
    specialize (IH (throttle.tick max refill st) (tick_keeps_uint st Hm Hu)).
    pose proof (tick_adds_at_most_refill st Hr ltac:(unfold is_uint in Hu; lia)).
    lia.
  - cbn [sequences.throttle_run sequences.ticks].
    specialize (IH (throttle.stop st now)). rewrite stop_tokens in IH.
    apply IH. exact Hu.
Qed.

(** From the full bucket, for every interval [d], also one for which
    the first call panics: the calls that reach the effector number at
    most [max] plus [refill] for every tick of the ticker, whatever the
    order of calls and ticks. *)
Theorem Throttle_admissions_bounded
    (events : list (@sequences.ThrottleEvent W)) :
  is_uint max -> 0 <= refill ->
  Z.of_nat (snd (sequences.throttle_run clock effector max refill d
                   (throttle.init max) events))
  <= max + Z.of_nat (sequences.ticks events) * refill.
Proof.
  intros Hm Hr.
  pose proof (throttle_run_bound events Hm Hr (throttle.init max) Hm) as Hb.
  pose proof (throttle_run_uint events Hm (throttle.init max) Hm) as Hpos.
  unfold is_uint in Hpos.
  cbn [throttle.tokens throttle.init] in Hb. lia.
Qed.

(** A call with a live context that does not panic takes the last token
    or is turned away. *)
Lemma live_call_cases (st : throttle.State) (ctx : Context) (w : W) :
  is_uint (throttle.tokens st) ->
  Err ctx (clock w) = None ->
  throttle.once st = true \/ 0 < d ->
  let e := fst (throttle.Throttle clock effector max refill d st ctx w) in
  let st' := snd (throttle.Throttle clock effector max refill d st ctx w) in
  throttle.once st' = true
  /\ ((throttle.tokens st = 0 /\ throttle.calls e = 0%nat
       /\ throttle.tokens st' = 0
       /\ e = throttle.Returned
                (mkOutcome (""%string, Some (Errorf "too many calls")) w 0))
      \/ (0 < throttle.tokens st /\ throttle.calls e = 1%nat
          /\ throttle.tokens st' = throttle.tokens st - 1
          /\ exists o, e = throttle.Returned o
                       /\ ret o = fst (effector ctx w))).
Proof.
  intros Hu Hlive Hstart. unfold throttle.Throttle. rewrite Hlive.
  cbn [is_nil negb].
  assert (Hdo : exists loop,
             throttle.once_do d st ctx
             = (throttle.mkState (throttle.tokens st) true loop, false)).
  { unfold throttle.once_do. destruct (throttle.once st) eqn:Honce.
    - exists (throttle.refill_loop st). destruct st as [t o l].
      cbn in Honce |- *. subst o. reflexivity.
    - destruct Hstart as [Hyes | Hpos]; [discriminate|].
      cmp_false (d <=? 0). eexists. reflexivity. }
  destruct Hdo as (loop & Hdo). rewrite Hdo. cbn [throttle.tokens].
  destruct (throttle.tokens st <=? 0) eqn:Hz.
  - apply Z.leb_le in Hz. cbn [fst snd throttle.calls invoked throttle.once].
    split; [reflexivity|]. left.
    assert (Hzero : throttle.tokens st = 0) by (unfold is_uint in Hu; lia).
    rewrite Hzero. repeat split; reflexivity.
  - apply Z.leb_gt in Hz. destruct (effector ctx w) as [r w'].
    cbn [fst snd throttle.calls invoked throttle.tokens throttle.once].
    split; [reflexivity|]. right.
    unfold uint_sub. rewrite wrap_uint_id by (unfold is_uint, uint_max in *; lia).
    split; [lia|]. split; [reflexivity|]. split; [reflexivity|].
    eexists. split; reflexivity.
Qed.

Lemma throttle_burst (events : list (@sequences.ThrottleEvent W)) :
  sequences.live_calls clock events ->
  forall st, is_uint (throttle.tokens st) ->
    throttle.once st = true \/ 0 < d ->
    Z.of_nat (snd (sequences.throttle_run clock effector max refill d st events))
    = Z.min (Z.of_nat (List.length events)) (throttle.tokens st)
    /\ throttle.tokens
         (fst (sequences.throttle_run clock effector max refill d st events))
       = throttle.tokens st
         - Z.min (Z.of_nat (List.length events)) (throttle.tokens st).
Proof.
  induction events as [|[ctx w| |now] rest IH]; intros Hlive st Hu Hstart;
    try contradiction.
  - simpl. unfold is_uint in Hu. lia.
  - destruct Hlive as [Hctx Hrest].
    cbn [sequences.throttle_run List.length].
    pose proof (live_call_cases st ctx w Hu Hctx Hstart) as Hcase.
    pose proof (call_keeps_uint st ctx w Hu) as Hu1.
    destruct (throttle.Throttle clock effector max refill d st ctx w) as [o st1].
    cbn [fst snd] in *. destruct Hcase as [Honce1 Hcase].
    destruct (IH Hrest st1 Hu1 (or_introl Honce1)) as [Hn Htok].
    destruct (sequences.throttle_run clock effector max refill d st1 rest)
      as [st2 n]. cbn [fst snd] in *.
    destruct Hcase as [(H0 & Hinv & Ht1 & _) | (Hpos & Hinv & Ht1 & _)];
      rewrite Hinv; lia.
Qed.

(** A burst on the full bucket of an instance made with a positive
    interval: of [n] calls with live contexts and no tick in between,
    exactly [min(n, max)] reach the effector, and the bucket is left with
    the rest. *)
Theorem Throttle_burst_admits_capacity
    (events : list (@sequences.ThrottleEvent W)) :
  is_uint max -> 0 < d ->
  sequences.live_calls clock events ->
  let run := sequences.throttle_run clock effector max refill d
               (throttle.init max) events in
  Z.of_nat (snd run) = Z.min (Z.of_nat (List.length events)) max
  /\ throttle.tokens (fst run) = max - Z.of_nat (snd run).
Proof.
  intros Hm Hd Hlive run.
  destruct (throttle_burst events Hlive (throttle.init max) Hm (or_intror Hd))
    as [Hn Htok].
  fold run in Hn, Htok. cbn [throttle.tokens throttle.init] in Hn, Htok.
  split; [exact Hn | lia].
Qed.

(** Once the [sync.Once] is done and no refill goroutine runs, none is
    ever started: the bucket is only drawn from. *)
Lemma ended_refill_stays_ended (events : list (@sequences.ThrottleEvent W)) :
  forall st,
    throttle.once st = true -> throttle.refill_loop st = None ->
    is_uint (throttle.tokens st) ->
    let run := sequences.throttle_run clock effector max refill d st events in
    throttle.tokens (fst run) + Z.of_nat (snd run) = throttle.tokens st
    /\ throttle.refill_loop (fst run) = None.
Proof.
  induction events as [|[ctx w| |now] rest IH]; intros st Honce Hloop Hu;
    cbn [sequences.throttle_run].
  - simpl. split; [lia | exact Hloop].
  - pose proof (call_pays_one_token st ctx w Hu) as Hpay.
    pose proof (call_keeps_uint st ctx w Hu) as Hu1.
    assert (Hkeep : throttle.once (snd (throttle.Throttle clock effector max
                                          refill d st ctx w)) = true
                    /\ throttle.refill_loop
                         (snd (throttle.Throttle clock effector max refill d
                                 st ctx w)) = None).
    { unfold throttle.Throttle, throttle.once_do. rewrite Honce.
      destruct (negb (is_nil (Err ctx (clock w)))); [auto|].
      destruct (throttle.tokens st <=? 0); [auto|].
      destruct (effector ctx w). auto. }
    destruct Hkeep as [Honce1 Hloop1].
    destruct (throttle.Throttle clock effector max refill d st ctx w) as [o st1].
    cbn [fst snd] in *. specialize (IH st1 Honce1 Hloop1 Hu1). cbv zeta in IH.
    destruct (sequences.throttle_run clock effector max refill d st1 rest)
      as [st2 n]. cbn [fst snd] in *. destruct IH as [Hsum Hnone].
    split; [lia | exact Hnone].
  - assert (Htick : throttle.tick max refill st = st)
      by (unfold throttle.tick; rewrite Hloop; reflexivity).
    rewrite Htick. apply IH; assumption.
  - assert (Hstop : throttle.stop st now = st)
      by (unfold throttle.stop; rewrite Hloop; reflexivity).
    rewrite Hstop. apply IH; assumption.
Qed.

(** For an instance made with a positive interval, the refill goroutine
    lives on the context of the first call that got past the context
    check.  Once that context is done and the goroutine has seen it, no
    tick adds a token any more and no later call starts a new goroutine:
    whatever follows, every call that reaches the effector is paid from
    the tokens that were left. *)
Theorem Throttle_refill_ends_with_first_context
    (c : Context) (w : W) (now : Time)
    (events : list (@sequences.ThrottleEvent W)) :
  is_uint max -> 0 < d ->
  Err c (clock w) = None -> Err c now <> None ->
  let s0 := snd (throttle.Throttle clock effector max refill d
                   (throttle.init max) c w) in
  let st1 := fst (sequences.throttle_run clock effector max refill d
                    (throttle.init max)
                    [sequences.TCall c w; sequences.TStop now]) in
  let run := sequences.throttle_run clock effector max refill d st1 events in
  throttle.refill_loop s0 = Some c
  /\ throttle.refill_loop st1 = None
  /\ throttle.tokens (fst run) + Z.of_nat (snd run) = throttle.tokens st1
  /\ throttle.tokens (fst run) <= throttle.tokens st1 <= max.
Proof.
  intros Hm Hd Hlive Hdone s0 st1 run.
  assert (Hs0 : throttle.once s0 = true /\ throttle.refill_loop s0 = Some c
                /\ is_uint (throttle.tokens s0) /\ throttle.tokens s0 <= max).
  { pose proof (call_keeps_uint (throttle.init max) c w Hm) as Hu.
    pose proof (call_pays_one_token (throttle.init max) c w Hm) as Hpay.
    fold s0 in Hu, Hpay. cbn [throttle.tokens throttle.init] in Hpay.
    repeat split; try (unfold is_uint in *; lia).
    - unfold s0, throttle.Throttle, throttle.once_do. rewrite Hlive.
      cbn [is_nil negb throttle.once throttle.init].
      cmp_false (d <=? 0). cbn [throttle.tokens].
      destruct (_ <=? 0); [reflexivity|]. destruct (effector c w). reflexivity.
    - unfold s0, throttle.Throttle, throttle.once_do. rewrite Hlive.
      cbn [is_nil negb throttle.once throttle.init].
      cmp_false (d <=? 0). cbn [throttle.tokens].
      destruct (_ <=? 0); [reflexivity|]. destruct (effector c w). reflexivity. }
  destruct Hs0 as (Honce & Hloop & Hu & Hle).
  assert (Hst1 : st1 = throttle.mkState (throttle.tokens s0) true None).
  { unfold st1. cbn [sequences.throttle_run].
    fold s0. destruct (throttle.Throttle clock effector max refill d
                         (throttle.init max) c w) as [o s0'] eqn:Hcall.
    cbn [snd] in s0. subst s0. cbn [fst].
    unfold throttle.stop. rewrite Hloop.
    destruct (Err c now) as [e|]; [|contradiction]. cbn [is_nil].
    rewrite Honce. reflexivity. }
  destruct (ended_refill_stays_ended events st1) as [Hsum Hnone].
  { rewrite Hst1. reflexivity. }
  { rewrite Hst1. reflexivity. }
  { rewrite Hst1. exact Hu. }
  fold run in Hsum, Hnone.
  split; [exact Hloop|].
  split; [rewrite Hst1; reflexivity|]. split; [exact Hsum|].
  rewrite Hst1 in *. cbn [throttle.tokens] in *. lia.
Qed.

(** An instance made with an interval [d <= 0].  Its first call with a
    live context panics in [time.NewTicker]: the effector is not called
    and the bucket stays full.  The [sync.Once] is done all the same, so
    if the program recovers no refill goroutine is ever started: no tick
    adds a token, and whatever follows, the calls that reach the effector
    are paid from the [max] tokens of the start. *)
Theorem Throttle_nonpositive_interval_never_refills
    (c : Context) (w : W) (events : list (@sequences.ThrottleEvent W)) :
  is_uint max -> d <= 0 ->
  Err c (clock w) = None ->
  let first := throttle.Throttle clock effector max refill d
                 (throttle.init max) c w in
  let run := sequences.throttle_run clock effector max refill d
               (snd first) events in
  fst first = throttle.Panicked
  /\ snd first = throttle.mkState max true None
  /\ throttle.refill_loop (fst run) = None
  /\ throttle.tokens (fst run) + Z.of_nat (snd run) = max.
Proof.
  intros Hm Hd Hlive first run.
  assert (Hfirst : first = (throttle.Panicked, throttle.mkState max true None)).
  { unfold first, throttle.Throttle, throttle.once_do. rewrite Hlive.
    cbn [is_nil negb throttle.once throttle.init].
    cmp_true (d <=? 0). reflexivity. }
  destruct (ended_refill_stays_ended events (snd first)) as [Hsum Hnone].
  { rewrite Hfirst. reflexivity. }
  { rewrite Hfirst. reflexivity. }
  { rewrite Hfirst. exact Hm. }
  fold run in Hsum, Hnone.
  split; [rewrite Hfirst; reflexivity|].
  split; [rewrite Hfirst; reflexivity|].
  split; [exact Hnone|].
  rewrite Hsum, Hfirst. reflexivity.
Qed.

End ThrottleRate.

(** *** Runs of the breaker and the throttle *)

(** Threshold 2, counter 3: the cool-down is 4 s; a call 3 s after the
    last attempt is turned away. *)
Lemma Breaker_blocks_exactly_in_window_witness :
  circuitbreaker.blocked 2 (circuitbreaker.mkState 3 (1000 * Second))
                         (1003 * Second) = true.
Proof.
  apply (proj2 (Breaker_blocks_exactly_in_window 2
                  (circuitbreaker.mkState 3 (1000 * Second)) (1003 * Second)
                  ltac:(vm_compute; split; discriminate))).
  vm_compute. split; discriminate.
Defined.

(** Threshold 1, counter 56: a call one nanosecond after the last attempt
    is let through. *)
Lemma Breaker_never_opens_from_54_witness :
  circuitbreaker.blocked 1 (circuitbreaker.mkState 56 (1000 * Second))
                         (1000 * Second + 1) = false.
Proof.
  apply (Breaker_never_opens_from_54 1
           (circuitbreaker.mkState 56 (1000 * Second)) (1000 * Second + 1)).
  - vm_compute. split; discriminate.
  - vm_compute. reflexivity.
Defined.

(** Threshold 2, counter 2, a probe after the 2 s cool-down fails: the
    circuit is open again 3 s after the probe returned.  Threshold 5,
    counter 0: the failure opens nothing. *)
Lemma Breaker_failure_doubles_window_witness :
  let w := examples.mkWorld (1003 * Second) 2 in
  let st' := snd (circuitbreaker.Breaker examples.now
                    (examples.op 1000 examples.bad_answer) 2
                    (circuitbreaker.mkState 2 (1000 * Second)) Background w) in
  let st5 := snd (circuitbreaker.Breaker examples.now
                    (examples.op 1000 examples.bad_answer) 5
                    circuitbreaker.init Background w) in
  circuitbreaker.blocked 2 st' (1006 * Second) = true
  /\ circuitbreaker.blocked 5 st5 (1004 * Second) <> true.
Proof.
  intros w st' st5. split.
  - apply (proj2 (Breaker_failure_doubles_window examples.now
                    (examples.op 1000 examples.bad_answer) 2
                    (circuitbreaker.mkState 2 (1000 * Second)) Background w
                    (Upstream 2) (1006 * Second)
                    ltac:(vm_compute; split; discriminate)
                    ltac:(vm_compute; split; [discriminate | reflexivity])
                    eq_refl eq_refl)).
    vm_compute. split; discriminate.
  - intros Hb.
    apply (proj1 (Breaker_failure_doubles_window examples.now
                    (examples.op 1000 examples.bad_answer) 5
                    circuitbreaker.init Background w
                    (Upstream 2) (1004 * Second)
                    ltac:(vm_compute; split; discriminate)
                    ltac:(vm_compute; split; [discriminate | reflexivity])
                    eq_refl eq_refl)) in Hb.
    destruct Hb as [H _]. vm_compute in H. apply H. reflexivity.
Defined.

(** Threshold 2, counter 2, a probe after the cool-down succeeds. *)
Lemma Breaker_success_closes_witness :
  let w := examples.mkWorld (1003 * Second) 2 in
  let st' := snd (circuitbreaker.Breaker examples.now
                    (examples.op 1000 examples.ok_answer) 2
                    (circuitbreaker.mkState 2 (1000 * Second)) Background w) in
  circuitbreaker.failures st' = 0
  /\ circuitbreaker.blocked 2 st' (1003 * Second + 1000) = false.
Proof.
  intros w st'.
  apply (Breaker_success_closes examples.now
           (examples.op 1000 examples.ok_answer) 2
           (circuitbreaker.mkState 2 (1000 * Second)) Background w
           (1003 * Second + 1000)).
  - lia.
  - vm_compute. split; discriminate.
  - reflexivity.
  - reflexivity.
Defined.

(** Threshold 2 and two failing calls. *)
Lemma Breaker_trips_after_threshold_failures_witness :
  let circuit := examples.op 1000 examples.bad_answer in
  let entries := [(Background, examples.mkWorld 5000 0);
                  (Background, examples.mkWorld 9000 1)] in
  let run := sequences.breaker_calls examples.now circuit 2
               circuitbreaker.init entries in
  Forall2 (fun o '(ctx, w) => invoked o = 1%nat /\ ret o = fst (circuit ctx w))
          (fst run) entries
  /\ circuitbreaker.failures (snd run) = 2
  /\ (Second <= circuitbreaker.last (snd run) + 2 * Second ->
      circuitbreaker.blocked 2 (snd run) Second = true).
Proof.
  intros circuit entries.
  apply (Breaker_trips_after_threshold_failures examples.now circuit 2
           entries Second).
  - lia.
  - vm_compute. split; discriminate.
  - intros ctx w. discriminate.
  - reflexivity.
Defined.

(** Capacity 2, refill 1: four calls with a tick after the third. *)
Lemma Throttle_admissions_bounded_witness :
  let events := [sequences.TCall Background (examples.mkWorld 10 0);
                 sequences.TCall Background (examples.mkWorld 20 1);
                 sequences.TCall Background (examples.mkWorld 30 2);
                 sequences.TTick;
                 sequences.TCall Background (examples.mkWorld 40 2)] in
  Z.of_nat (snd (sequences.throttle_run examples.now
                   (examples.op 5 examples.ok_answer) 2 1 Second
                   (throttle.init 2) events))
  <= 2 + Z.of_nat (sequences.ticks events) * 1.
Proof.
  intros events.
  apply (Throttle_admissions_bounded examples.now
           (examples.op 5 examples.ok_answer) 2 1 Second events).
  - vm_compute. split; discriminate.
  - lia.
Defined.

(** Capacity 2 and three calls in a row. *)
Lemma Throttle_burst_admits_capacity_witness :
  let events := [sequences.TCall Background (examples.mkWorld 10 0);
                 sequences.TCall Background (examples.mkWorld 20 1);
                 sequences.TCall Background (examples.mkWorld 30 2)] in
  let run := sequences.throttle_run examples.now
               (examples.op 5 examples.ok_answer) 2 1 Second
               (throttle.init 2) events in
  Z.of_nat (snd run) = Z.min (Z.of_nat (List.length events)) 2
  /\ throttle.tokens (fst run) = 2 - Z.of_nat (snd run).
Proof.
  intros events.
  apply (Throttle_burst_admits_capacity examples.now
           (examples.op 5 examples.ok_answer) 2 1 Second events).
  - vm_compute. split; discriminate.
  - reflexivity.
  - simpl. auto.
Defined.

(** Capacity 2, refill 2; the first caller's context has a deadline at
    instant 100.  After it, ticks and calls go on. *)
Lemma Throttle_refill_ends_with_first_context_witness :
  let c := mkContext (Some 100) DeadlineExceeded in
  let effector := examples.op 5 examples.ok_answer in
  let s0 := snd (throttle.Throttle examples.now effector 2 2 Second
                   (throttle.init 2) c (examples.mkWorld 10 0)) in
  let st1 := fst (sequences.throttle_run examples.now effector 2 2 Second
                    (throttle.init 2)
                    [sequences.TCall c (examples.mkWorld 10 0);
                     sequences.TStop 100]) in
  let run := sequences.throttle_run examples.now effector 2 2 Second st1
               [sequences.TTick;
                sequences.TCall Background (examples.mkWorld 200 1);
                sequences.TTick;
                sequences.TCall Background (examples.mkWorld 300 2)] in
  throttle.refill_loop s0 = Some c
  /\ throttle.refill_loop st1 = None
  /\ throttle.tokens (fst run) + Z.of_nat (snd run) = throttle.tokens st1
  /\ throttle.tokens (fst run) <= throttle.tokens st1 <= 2.
Proof.
  intros c effector.
  apply (Throttle_refill_ends_with_first_context examples.now effector 2 2
           Second c (examples.mkWorld 10 0) 100).
  - vm_compute. split; discriminate.
  - reflexivity.
  - reflexivity.
  - discriminate.
Defined.

(** Capacity 2 and an interval of zero: the first call panics; of the
    three calls of a program that recovered, two reach the effector, and
    the tick in between adds nothing. *)
Lemma Throttle_nonpositive_interval_never_refills_witness :
  let effector := examples.op 5 examples.ok_answer in
  let first := throttle.Throttle examples.now effector 2 1 0
                 (throttle.init 2) Background (examples.mkWorld 10 0) in
  let run := sequences.throttle_run examples.now effector 2 1 0 (snd first)
               [sequences.TCall Background (examples.mkWorld 20 0);
                sequences.TCall Background (examples.mkWorld 30 1);
                sequences.TTick;
                sequences.TCall Background (examples.mkWorld 40 2)] in
  fst first = throttle.Panicked
  /\ snd first = throttle.mkState 2 true None
  /\ throttle.refill_loop (fst run) = None
  /\ throttle.tokens (fst run) + Z.of_nat (snd run) = 2.
Proof.
  intros effector.
  apply (Throttle_nonpositive_interval_never_refills examples.now effector
           2 1 0 Background (examples.mkWorld 10 0)).
  - vm_compute. split; discriminate.
  - lia.
  - reflexivity.
Defined.

(** ** Timeouts: the wait is bounded by the deadline *)

Section TimeoutBounds.
Variable fn : timeout.SlowFunction.
Variable ctx : Context.
Variable arg : string.
Variable t0 : Time.

Lemma race_with_deadline (coin : timeout.Case) (D : Time) :
  (forall T, timeout.took (fn arg) = Some T -> 0 <= T) ->
  done_at ctx = Some D ->
  exists c,
    timeout.race fn ctx arg t0 coin = Some c
    /\ t0 <= timeout.returned_at c <= Z.max t0 D
    /\ (timeout.received c = false ->
        timeout.ret c = (""%string, Some (done_err ctx)))
    /\ (timeout.received c = true -> timeout.ret c = timeout.answer (fn arg)).
Proof.
  intros Hpos HD. unfold timeout.race, timeout.result_ready,
    timeout.done_ready, timeout.select, Add. rewrite HD.
  assert (HErr : Err ctx (Z.max t0 D) = Some (done_err ctx))
    by (unfold Err; rewrite HD; cmp_true (D <=? Z.max t0 D); reflexivity).
  destruct (timeout.took (fn arg)) as [T|] eqn:HT; cbn [option_map].
  - specialize (Hpos T eq_refl).
    destruct (t0 + T <? Z.max t0 D) eqn:H1.
    + apply Z.ltb_lt in H1. eexists. split; [reflexivity|].
      cbn [timeout.returned_at timeout.received timeout.ret].
      repeat split; try lia; try discriminate.
    + apply Z.ltb_ge in H1. destruct (Z.max t0 D <? t0 + T) eqn:H2.
      * eexists. split; [reflexivity|].
        cbn [timeout.returned_at timeout.received timeout.ret].
        rewrite HErr. repeat split; try lia; try discriminate.
      * apply Z.ltb_ge in H2. assert (Heq : t0 + T = Z.max t0 D) by lia.
        destruct coin; eexists; (split; [reflexivity|]);
          cbn [timeout.returned_at timeout.received timeout.ret];
          rewrite ?Heq, ?HErr; repeat split; try lia; try discriminate.
  - eexists. split; [reflexivity|].
    cbn [timeout.returned_at timeout.received timeout.ret]. rewrite HErr.
    repeat split; try lia; try discriminate.
Qed.

(** Under a context that is done at some instant [D], both wrappers
    return, whatever the slow function does, even if it never returns:
    not before the call was made and no later than [D] (at once, if [D]
    is past).  A call that did not receive the function's pair returns
    the empty string and the context's error, never a nil error. *)
Theorem Timeout_wait_is_bounded_by_deadline (coin : timeout.Case) (D : Time) :
  (forall T, timeout.took (fn arg) = Some T -> 0 <= T) ->
  done_at ctx = Some D ->
  exists c c',
    timeout.Timeout fn ctx arg t0 coin = Some c
    /\ timeout.TimeoutWithPrecheck fn ctx arg t0 coin = Some c'
    /\ t0 <= timeout.returned_at c <= Z.max t0 D
    /\ t0 <= timeout.returned_at c' <= Z.max t0 D
    /\ (timeout.received c = false ->
        timeout.ret c = (""%string, Some (done_err ctx)))
    /\ (timeout.received c' = false ->
        timeout.ret c' = (""%string, Some (done_err ctx))).
Proof.
  intros Hpos HD.
  destruct (race_with_deadline coin D Hpos HD) as (c & Hc & Hat & Hctx & _).
  unfold timeout.Timeout, timeout.TimeoutWithPrecheck.
  exists c. destruct (Err ctx t0) as [e|] eqn:HErr.
  - eexists. split; [exact Hc|]. split; [reflexivity|].
    cbn [timeout.returned_at timeout.received timeout.ret].
    unfold Err in HErr. rewrite HD in HErr.
    destruct (D <=? t0); [|discriminate]. injection HErr as <-.
    repeat split; try lia; auto.
  - exists c. repeat split; try assumption; lia.
Qed.

End TimeoutBounds.

(** A run: a function that never returns, under a deadline. *)
Lemma Timeout_wait_is_bounded_by_deadline_witness :
  exists c c',
    timeout.Timeout (fun arg => timeout.mkRun None (arg, None))
      (timeout.with_deadline 1500) "job"%string 1000 timeout.RecvResult = Some c
    /\ timeout.TimeoutWithPrecheck (fun arg => timeout.mkRun None (arg, None))
         (timeout.with_deadline 1500) "job"%string 1000 timeout.RecvResult
       = Some c'
    /\ 1000 <= timeout.returned_at c <= Z.max 1000 1500
    /\ 1000 <= timeout.returned_at c' <= Z.max 1000 1500
    /\ (timeout.received c = false ->
        timeout.ret c = (""%string, Some DeadlineExceeded))
    /\ (timeout.received c' = false ->
        timeout.ret c' = (""%string, Some DeadlineExceeded)).
Proof.
  apply (Timeout_wait_is_bounded_by_deadline
           (fun arg => timeout.mkRun None (arg, None))
           (timeout.with_deadline 1500) "job"%string 1000
           timeout.RecvResult 1500).
  - intros T HT. discriminate HT.
  - reflexivity.
Defined.

(** ** DebounceFirst with a window that is not positive *)

Section DebounceFirstEdge.
Context {W : Type}.
Variable clock : W -> Time.
Variable circuit : debounce.Circuit (W := W).
Variable d : Duration.

(** With a zero or negative window nothing is ever served from the cache:
    after a call that ran the circuit, a call made no earlier than that
    one returned runs the circuit again. *)
Theorem DebounceFirst_nonpositive_window_passes_all
    (st : debounce.FirstState) (ctx1 ctx2 : Context) (w1 w2 : W) :
  d <= 0 ->
  let first := debounce.DebounceFirst clock circuit d st ctx1 w1 in
  invoked (fst first) = 1%nat ->
  clock (world (fst first)) <= clock w2 ->
  let second := debounce.DebounceFirst clock circuit d (snd first) ctx2 w2 in
  invoked (fst second) = 1%nat
  /\ ret (fst second) = fst (circuit ctx2 w2).
Proof.
  intros Hd first Hran Hlater second. unfold second, first in *.
  unfold debounce.DebounceFirst in *.
  destruct (Before (clock w1) (debounce.threshold st)); [discriminate Hran|].
  destruct (circuit ctx1 w1) as [[r1 e1] w1'].
  cbn [fst snd world debounce.threshold] in *.
  unfold Before, Add. cmp_false (clock w2 <? clock w1' + d).
  destruct (circuit ctx2 w2) as [[r2 e2] w2']. split; reflexivity.
Qed.

End DebounceFirstEdge.

(** A run with a window of zero. *)
Lemma DebounceFirst_nonpositive_window_passes_all_witness :
  let circuit := examples.op 1000 examples.ok_answer in
  let first := debounce.DebounceFirst examples.now circuit 0
                 debounce.first_init Background (examples.mkWorld 5000 0) in
  let second := debounce.DebounceFirst examples.now circuit 0 (snd first)
                  Background (world (fst first)) in
  invoked (fst second) = 1%nat
  /\ ret (fst second) = fst (circuit Background (world (fst first))).
Proof.
  intros circuit first.
  apply (DebounceFirst_nonpositive_window_passes_all examples.now circuit 0
           debounce.first_init Background Background
           (examples.mkWorld 5000 0) (world (fst first))).
  - lia.
  - reflexivity.
  - vm_compute. discriminate.
Defined.

(** ** DebounceLast: a caller that gives up *)

(** A single call whose own context is done while it waits for the
    window to pass: the call returns the empty string and the context's
    error, but its timer is not stopped; when the window has passed the
    circuit is called all the same, with the context derived for the
    call, and its pair is left in the channel. *)
Theorem DebounceLast_cancelled_caller_still_runs_circuit
    (circuit : nat -> Time -> result) (d : Duration) (ctx : Context)
    (D t0 : Time) (g : Duration) (coin : bool) :
  done_at ctx = Some D -> 0 <= g < d -> D <= t0 + g ->
  let s := debounce.DebounceLast circuit d
             [debounce.Enter ctx; debounce.Select 0; debounce.Advance g;
              debounce.Wake 0 coin; debounce.Advance (d - g); debounce.Fire 0]
             (debounce.last_init t0) in
  debounce.returned s 0 = Some (""%string, Some (done_err ctx))
  /\ debounce.invocations s = [0%nat]
  /\ exists c, nth_error (debounce.calls s) 0 = Some c
               /\ debounce.ch c = Some (circuit 0%nat (t0 + d))
               /\ debounce.timer_st c = debounce.Fired.
Proof.
  intros HD Hg HDg s. subst s.
  assert (HErr : Err ctx (Add t0 g) = Some (done_err ctx)).
  { unfold Err, Add. rewrite HD. cmp_true (D <=? t0 + g). reflexivity. }
  unfold debounce.DebounceLast. cbn [fold_left].
  cbn [debounce.step debounce.enter debounce.last_init debounce.timer
       debounce.calls debounce.clock debounce.invocations List.length app
       debounce.enter_select nth_error debounce.cctx debounce.status
       debounce.set_calls debounce.update debounce.cancel].
  rewrite (Z.max_r 0 g), (Z.max_r 0 (d - g)) by lia.
  unfold debounce.wake.
  cbn [debounce.calls nth_error debounce.status debounce.clock debounce.ch
       debounce.derived_err debounce.cancelled_at debounce.parent].
  rewrite HErr. cbn [is_nil negb].
  unfold debounce.shared_err, debounce.set_status, debounce.set_calls,
    debounce.fire.
  cbn [debounce.calls nth_error debounce.status debounce.clock debounce.ch
       debounce.derived_err debounce.cancelled_at debounce.parent
       debounce.cctx debounce.update debounce.timer_st debounce.timer
       debounce.cancel debounce.invocations].
  rewrite HErr.
  cmp_true (Add t0 d <=? Add (Add t0 g) (d - g)).
  unfold debounce.returned.
  cbn [debounce.calls nth_error debounce.status debounce.clock debounce.ch
       debounce.update debounce.invocations app].
  split; [reflexivity|]. split; [reflexivity|].
  eexists. split; [reflexivity|]. cbn [debounce.ch debounce.timer_st].
  split; [|reflexivity]. do 2 f_equal. unfold Add. lia.
Qed.

(** A run: window of one second, the caller's deadline after 300 ms. *)
Lemma DebounceLast_cancelled_caller_still_runs_circuit_witness :
  let s := debounce.DebounceLast debounce.quick Second
             [debounce.Enter (mkContext (Some 300005000) DeadlineExceeded);
              debounce.Select 0; debounce.Advance 300000000;
              debounce.Wake 0 true; debounce.Advance (Second - 300000000);
              debounce.Fire 0]
             (debounce.last_init 5000) in
  debounce.returned s 0 = Some (""%string, Some DeadlineExceeded)
  /\ debounce.invocations s = [0%nat]
  /\ exists c, nth_error (debounce.calls s) 0 = Some c
               /\ debounce.ch c = Some (debounce.quick 0%nat (5000 + Second))
               /\ debounce.timer_st c = debounce.Fired.
Proof.
  apply (DebounceLast_cancelled_caller_still_runs_circuit debounce.quick Second
           (mkContext (Some 300005000) DeadlineExceeded)
           300005000 5000 300000000 true).
  - reflexivity.
  - unfold Second. lia.
  - lia.
Defined.

(** ** DebounceFirstContext *)

Section DebounceFirstContextFacts.
Variable d : Duration.

Lemma context_length_update (f : debounce_context.Derived -> debounce_context.Derived)
    (l : list debounce_context.Derived) (i : nat) :
  List.length (debounce_context.update i f l) = List.length l.
Proof.
  revert i. induction l as [|x l IH]; intros [|i]; simpl; auto.
Qed.

Lemma context_update_other (f : debounce_context.Derived -> debounce_context.Derived)
    (l : list debounce_context.Derived) (i j : nat) :
  i <> j ->
  nth_error (debounce_context.update j f l) i = nth_error l i.
Proof.
  revert i j. induction l as [|x l IH]; intros [|i] [|j] Hne; simpl;
    try reflexivity; try congruence.
  apply IH. congruence.
Qed.

Lemma context_update_same (f : debounce_context.Derived -> debounce_context.Derived)
    (l : list debounce_context.Derived) (i : nat) (c : debounce_context.Derived) :
  nth_error l i = Some c ->
  nth_error (debounce_context.update i f l) i = Some (f c).
Proof.
  revert i. induction l as [|x l IH]; intros [|i] H; simpl in *;
    try discriminate.
  - injection H as ->. reflexivity.
  - apply IH, H.
Qed.

Lemma context_inv_init (t0 : Time) :
  zero_time <= t0 -> debounce_context.invariant (debounce_context.init t0).
Proof. intros H. repeat split; assumption. Qed.

(** The locked section of a call in a state that satisfies the
    invariant: it does not panic, it appends the context it derives, and
    it leaves the contexts of all calls but the latest as they are. *)
Lemma context_enter_spec (ctx : Context) (s : debounce_context.State) :
  debounce_context.invariant s ->
  let s' := debounce_context.enter d ctx s in
  debounce_context.invariant s'
  /\ debounce_context.clock s' = debounce_context.clock s
  /\ debounce_context.threshold s' = Add (debounce_context.clock s) d
  /\ debounce_context.invocations s' = debounce_context.invocations s
  /\ List.length (debounce_context.derived s')
     = S (List.length (debounce_context.derived s))
  /\ debounce_context.lastCtx s'
     = Some (List.length (debounce_context.derived s))
  /\ nth_error (debounce_context.derived s')
               (List.length (debounce_context.derived s))
     = Some (debounce_context.mkDerived ctx None)
  /\ (forall i, S i < List.length (debounce_context.derived s) ->
        nth_error (debounce_context.derived s') i
        = nth_error (debounce_context.derived s) i)%nat.
Proof.
  intros (Hpanic & Hclock & Hsame & Hlast) s'. subst s'.
  unfold debounce_context.enter. rewrite Hpanic.
  destruct (Before (debounce_context.clock s) (debounce_context.threshold s))
    eqn:Hbefore.
  - destruct (debounce_context.lastCancel s) as [j|] eqn:Hj.
    + cbn [debounce_context.clock debounce_context.threshold
           debounce_context.invocations debounce_context.derived
           debounce_context.lastCtx].
      rewrite length_app, context_length_update. cbn [List.length].
      repeat split; try lia; try assumption.
      * unfold debounce_context.invariant. cbn. rewrite length_app, context_length_update.
        cbn [List.length]. repeat split; try assumption; lia.
      * rewrite nth_error_app2 by (rewrite context_length_update; lia).
        rewrite context_length_update, Nat.sub_diag. reflexivity.
      * intros i Hi. rewrite nth_error_app1
          by (rewrite context_length_update; lia).
        apply context_update_other. lia.
    + destruct Hlast as [Hth _]. unfold Before in Hbefore.
      rewrite Hth in Hbefore. apply Z.ltb_lt in Hbefore. lia.
  - cbn [debounce_context.clock debounce_context.threshold
         debounce_context.invocations debounce_context.derived
         debounce_context.lastCtx].
    rewrite length_app. cbn [List.length].
    repeat split; try lia; try assumption.
    + unfold debounce_context.invariant. cbn. rewrite length_app. cbn [List.length].
      repeat split; try assumption; lia.
    + rewrite nth_error_app2 by lia. rewrite Nat.sub_diag. reflexivity.
    + intros i Hi. apply nth_error_app1. lia.
Qed.

Lemma context_inv_step (s : debounce_context.State) (e : debounce_context.Event) :
  debounce_context.invariant s -> debounce_context.invariant (debounce_context.step d s e).
Proof.
  intros Hinv. destruct e as [dt|ctx|i].
  - destruct Hinv as (Hpanic & Hclock & Hsame & Hlast).
    unfold debounce_context.invariant. cbn. unfold Add. repeat split; try assumption; lia.
  - apply (context_enter_spec ctx s Hinv).
  - destruct Hinv as (Hpanic & Hclock & Hsame & Hlast).
    unfold debounce_context.invariant, debounce_context.step, debounce_context.invoke.
    rewrite Hpanic. cbn. repeat split; assumption.
Qed.

Lemma context_inv_run (schedule : list debounce_context.Event) :
  forall s, debounce_context.invariant s ->
            debounce_context.invariant (debounce_context.DebounceFirstContext d schedule s).
Proof.
  unfold debounce_context.DebounceFirstContext.
  induction schedule as [|e rest IH]; intros s Hinv; [exact Hinv|].
  cbn [fold_left]. apply IH, context_inv_step, Hinv.
Qed.

(** No schedule of calls makes the wrapper call a nil [lastCancel]: the
    window test can only succeed after some call has set both
    [threshold] and [lastCancel]. *)
Theorem DebounceFirstContext_never_calls_nil_cancel
    (t0 : Time) (schedule : list debounce_context.Event) :
  zero_time <= t0 ->
  debounce_context.panicked
    (debounce_context.DebounceFirstContext d schedule (debounce_context.init t0))
  = false.
Proof.
  intros Ht0.
  apply (context_inv_run schedule _ (context_inv_init t0 Ht0)).
Qed.

(** The contexts of all calls but the latest are out of the wrapper's
    reach: no step changes them. *)
Lemma context_step_keeps_older (s : debounce_context.State)
    (e : debounce_context.Event) (i : nat) :
  debounce_context.invariant s ->
  (S i < List.length (debounce_context.derived s))%nat ->
  nth_error (debounce_context.derived (debounce_context.step d s e)) i
  = nth_error (debounce_context.derived s) i
  /\ (S i < List.length (debounce_context.derived (debounce_context.step d s e)))%nat.
Proof.
  intros Hinv Hi. destruct e as [dt|ctx|j].
  - cbn. auto.
  - destruct (context_enter_spec ctx s Hinv) as (_ & _ & _ & _ & Hlen & _ & _ & Hold).
    cbn [debounce_context.step]. rewrite Hlen. split; [apply Hold, Hi | lia].
  - destruct Hinv as (Hpanic & _). cbn [debounce_context.step].
    unfold debounce_context.invoke. rewrite Hpanic. cbn. auto.
Qed.

Lemma context_run_keeps_older (schedule : list debounce_context.Event) (i : nat) :
  forall s, debounce_context.invariant s ->
    (S i < List.length (debounce_context.derived s))%nat ->
    nth_error (debounce_context.derived
                 (debounce_context.DebounceFirstContext d schedule s)) i
    = nth_error (debounce_context.derived s) i.
Proof.
  unfold debounce_context.DebounceFirstContext.
  induction schedule as [|e rest IH]; intros s Hinv Hi; [reflexivity|].
  cbn [fold_left].
  destruct (context_step_keeps_older s e i Hinv Hi) as [Hkeep Hi'].
  rewrite IH; [exact Hkeep | apply context_inv_step, Hinv | exact Hi'].
Qed.

(** Preemption reaches exactly one call back.  Take a call that reaches
    [circuit(lastCtx)] before the next call enters: it runs the circuit
    with the context derived for it.  If the next call enters less than
    the window after it, it cancels that context; otherwise it does not,
    and then no later call does either: the wrapper has dropped the only
    [cancel] that could. *)
Theorem DebounceFirstContext_preempts_inside_window_only
    (t0 : Time) (before after : list debounce_context.Event)
    (ctx1 ctx2 : Context) (gap : Duration) :
  zero_time <= t0 -> 0 <= gap ->
  let s := debounce_context.DebounceFirstContext d before
             (debounce_context.init t0) in
  let i := List.length (debounce_context.derived s) in
  let final := debounce_context.DebounceFirstContext d
                 (before ++ [debounce_context.Enter ctx1;
                             debounce_context.Invoke i;
                             debounce_context.Advance gap;
                             debounce_context.Enter ctx2] ++ after)
                 (debounce_context.init t0) in
  In (i, Some i) (debounce_context.invocations final)
  /\ debounce_context.cancelled final i
     = (if gap <? d then Some (debounce_context.clock s + gap) else None).
Proof.
  intros Ht0 Hgap s i final.
  pose proof (context_inv_run before _ (context_inv_init t0 Ht0)) as Hs.
  fold s in Hs.
  destruct (context_enter_spec ctx1 s Hs)
    as (H1 & Hclock1 & Hth1 & Hinv1 & Hlen1 & Hlast1 & Hnew1 & _).
  set (s1 := debounce_context.enter d ctx1 s) in *.
  set (s2 := debounce_context.step d s1 (debounce_context.Invoke i)).
  set (s3 := debounce_context.step d s2 (debounce_context.Advance gap)).
  set (s4 := debounce_context.step d s3 (debounce_context.Enter ctx2)).
  assert (Hfinal : final = debounce_context.DebounceFirstContext d after s4).
  { unfold final, debounce_context.DebounceFirstContext.
    rewrite fold_left_app. fold (debounce_context.DebounceFirstContext d before
                                   (debounce_context.init t0)). fold s.
    rewrite fold_left_app. reflexivity. }
  assert (Hp1 : debounce_context.panicked s1 = false) by apply H1.
  assert (Hs2 : s2 = debounce_context.mkState
                       (debounce_context.clock s1) (debounce_context.threshold s1)
                       (debounce_context.lastCtx s1) (debounce_context.lastCancel s1)
                       (debounce_context.derived s1)
                       (debounce_context.invocations s1 ++ [(i, Some i)]) false).
  { unfold s2, debounce_context.step, debounce_context.invoke.
    rewrite Hp1, Hlast1. reflexivity. }
  assert (H2 : debounce_context.invariant s2) by (apply context_inv_step, H1).
  assert (H3 : debounce_context.invariant s3) by (apply context_inv_step, H2).
  assert (H4 : debounce_context.invariant s4) by (apply context_inv_step, H3).
  assert (Hd3 : debounce_context.derived s3 = debounce_context.derived s1)
    by (unfold s3; rewrite Hs2; reflexivity).
  assert (Hc3 : debounce_context.clock s3 = debounce_context.clock s + gap).
  { unfold s3. rewrite Hs2. cbn. rewrite Hclock1, Z.max_r by lia. reflexivity. }
  assert (Ht3 : debounce_context.threshold s3 = debounce_context.clock s + d).
  { unfold s3. rewrite Hs2. cbn. rewrite Hth1. reflexivity. }
  assert (Hl3 : debounce_context.lastCancel s3 = Some i).
  { destruct H1 as (_ & _ & Hsame & _).
    unfold s3. rewrite Hs2. cbn. rewrite <- Hsame. exact Hlast1. }
  assert (Hi3 : debounce_context.invocations s3
                = debounce_context.invocations s ++ [(i, Some i)]).
  { unfold s3. rewrite Hs2. cbn. rewrite Hinv1. reflexivity. }
  assert (Hp3 : debounce_context.panicked s3 = false) by apply H3.
  (* the second call *)
  assert (Hs4 : nth_error (debounce_context.derived s4) i
                = Some (debounce_context.mkDerived ctx1
                          (if gap <? d
                           then Some (debounce_context.clock s + gap) else None))
                /\ List.length (debounce_context.derived s4) = S (S i)
                /\ debounce_context.invocations s4
                   = debounce_context.invocations s ++ [(i, Some i)]).
  { unfold s4, debounce_context.step, debounce_context.enter.
    rewrite Hp3, Hl3, Hc3, Ht3, Hd3, Hi3. unfold Before.
    replace (debounce_context.clock s + gap <? debounce_context.clock s + d)
      with (gap <? d)
      by (destruct (gap <? d) eqn:H; symmetry;
          [apply Z.ltb_lt; apply Z.ltb_lt in H | apply Z.ltb_ge; apply Z.ltb_ge in H];
          lia).
    destruct (gap <? d).
    - cbn [debounce_context.derived debounce_context.invocations].
      rewrite length_app, context_length_update, Hlen1. cbn [List.length].
      split; [|split; [fold i; lia | reflexivity]].
      rewrite nth_error_app1 by (rewrite context_length_update, Hlen1; fold i; lia).
      rewrite (context_update_same _ _ _ _ Hnew1). reflexivity.
    - cbn [debounce_context.derived debounce_context.invocations].
      rewrite length_app, Hlen1. cbn [List.length].
      split; [|split; [fold i; lia | reflexivity]].
      rewrite nth_error_app1 by (rewrite Hlen1; fold i; lia). exact Hnew1. }
  destruct Hs4 as (Hnth4 & Hlen4 & Hinv4).
  rewrite Hfinal. split.
  - assert (Hmono : forall evs st,
               In (i, Some i) (debounce_context.invocations st) ->
               debounce_context.panicked st = false ->
               debounce_context.invariant st ->
               In (i, Some i)
                  (debounce_context.invocations
                     (debounce_context.DebounceFirstContext d evs st))).
    { unfold debounce_context.DebounceFirstContext.
      induction evs as [|e evs IH]; intros st Hin Hp Hst; [exact Hin|].
      cbn [fold_left]. apply IH.
      - destruct e as [dt|ctx|j].
        + exact Hin.
        + destruct (context_enter_spec ctx st Hst) as (_ & _ & _ & Hi & _).
          cbn [debounce_context.step]. rewrite Hi. exact Hin.
        + cbn [debounce_context.step]. unfold debounce_context.invoke.
          rewrite Hp. cbn. apply in_or_app. left. exact Hin.
      - apply (context_inv_step st e Hst).
      - apply context_inv_step, Hst. }
    apply Hmono; [| apply H4 | exact H4].
    rewrite Hinv4. apply in_or_app. right. left. reflexivity.
  - unfold debounce_context.cancelled.
    rewrite (context_run_keeps_older after i s4 H4) by lia.
    rewrite Hnth4. reflexivity.
Qed.

(** A call that is overtaken.  [circuit(lastCtx)] reads the captured
    variable after the mutex is released: if the next call enters before
    a call has reached that statement, the call runs the circuit with the
    context derived for the next call, which nothing has cancelled, and
    not with its own. *)
Theorem DebounceFirstContext_overtaken_call_runs_with_next_context
    (t0 : Time) (before : list debounce_context.Event)
    (ctx1 ctx2 : Context) (gap : Duration) :
  zero_time <= t0 ->
  let s := debounce_context.DebounceFirstContext d before
             (debounce_context.init t0) in
  let i := List.length (debounce_context.derived s) in
  let final := debounce_context.DebounceFirstContext d
                 (before ++ [debounce_context.Enter ctx1;
                             debounce_context.Advance gap;
                             debounce_context.Enter ctx2;
                             debounce_context.Invoke i])
                 (debounce_context.init t0) in
  debounce_context.invocations final
  = debounce_context.invocations s ++ [(i, Some (S i))]
  /\ nth_error (debounce_context.derived final) (S i)
     = Some (debounce_context.mkDerived ctx2 None).
Proof.
  intros Ht0 s i final.
  pose proof (context_inv_run before _ (context_inv_init t0 Ht0)) as Hs.
  fold s in Hs.
  destruct (context_enter_spec ctx1 s Hs)
    as (H1 & _ & _ & Hinv1 & Hlen1 & _ & _ & _).
  set (s1 := debounce_context.enter d ctx1 s) in *.
  set (s2 := debounce_context.step d s1 (debounce_context.Advance gap)).
  assert (H2 : debounce_context.invariant s2) by (apply context_inv_step, H1).
  assert (Hd2 : debounce_context.derived s2 = debounce_context.derived s1)
    by reflexivity.
  assert (Hi2 : debounce_context.invocations s2
                = debounce_context.invocations s1) by reflexivity.
  destruct (context_enter_spec ctx2 s2 H2)
    as (H3 & _ & _ & Hinv3 & _ & Hlast3 & Hnew3 & _).
  set (s3 := debounce_context.enter d ctx2 s2) in *.
  rewrite Hd2, Hlen1 in Hlast3, Hnew3. fold i in Hlast3, Hnew3.
  assert (Hfinal : final = debounce_context.invoke i s3).
  { unfold final, debounce_context.DebounceFirstContext.
    rewrite fold_left_app. fold (debounce_context.DebounceFirstContext d before
                                   (debounce_context.init t0)). fold s.
    reflexivity. }
  assert (Hp3 : debounce_context.panicked s3 = false) by apply H3.
  rewrite Hfinal. unfold debounce_context.invoke. rewrite Hp3.
  cbn [debounce_context.invocations debounce_context.derived].
  rewrite Hlast3, Hinv3, Hi2, Hinv1. split; [reflexivity | exact Hnew3].
Qed.

End DebounceFirstContextFacts.

(** Runs of the two properties of [DebounceFirstContext]. *)
Lemma DebounceFirstContext_never_calls_nil_cancel_witness :
  debounce_context.panicked
    (debounce_context.DebounceFirstContext Second
       [debounce_context.Enter Background; debounce_context.Invoke 0;
        debounce_context.Advance 10; debounce_context.Enter Background]
       (debounce_context.init 5000))
  = false.
Proof.
  apply (DebounceFirstContext_never_calls_nil_cancel Second 5000).
  vm_compute. discriminate.
Defined.

(** Two calls 100 ns apart under a window of one second, and a third call
    three seconds later. *)
Lemma DebounceFirstContext_preempts_inside_window_only_witness :
  let final := debounce_context.DebounceFirstContext Second
                 ([] ++ [debounce_context.Enter Background;
                         debounce_context.Invoke 0;
                         debounce_context.Advance 100;
                         debounce_context.Enter Background]
                     ++ [debounce_context.Advance (3 * Second);
                         debounce_context.Enter Background])
                 (debounce_context.init 5000) in
  In (0%nat, Some 0%nat) (debounce_context.invocations final)
  /\ debounce_context.cancelled final 0
     = (if 100 <? Second then Some (5000 + 100) else None).
Proof.
  apply (DebounceFirstContext_preempts_inside_window_only Second 5000 []
           [debounce_context.Advance (3 * Second);
            debounce_context.Enter Background]
           Background Background 100).
  - vm_compute. discriminate.
  - lia.
Defined.

(** Two calls 100 ns apart; the first reaches the circuit only after the
    second has entered, and runs it with the context derived for the
    second. *)
Lemma DebounceFirstContext_overtaken_call_runs_with_next_context_witness :
  let final := debounce_context.DebounceFirstContext Second
                 ([] ++ [debounce_context.Enter Background;
                         debounce_context.Advance 100;
                         debounce_context.Enter (mkContext (Some 9000) Canceled);
                         debounce_context.Invoke 0])
                 (debounce_context.init 5000) in
  debounce_context.invocations final = [] ++ [(0%nat, Some 1%nat)]
  /\ nth_error (debounce_context.derived final) 1
     = Some (debounce_context.mkDerived (mkContext (Some 9000) Canceled) None).
Proof.
  apply (DebounceFirstContext_overtaken_call_runs_with_next_context Second
           5000 [] Background (mkContext (Some 9000) Canceled) 100).
  vm_compute. discriminate.
Defined.

(** ** Future *)

Section FutureFacts.
Variable c : Context.
Variable made : Time.
Variable tie : timeout.Case.

(** [Result] always returns.  If the context is not done within two
    seconds of the start, it returns the result and a nil error, no
    earlier than two seconds after the start; if the context is done
    before that, it returns the empty string and the context's error, as
    soon as the context is done. *)
Theorem Future_result_is_timer_or_context (t : Time) :
  let f := future.SlowFunction c made tie in
  ((forall D, done_at c = Some D -> made + 2 * Second < D) ->
   exists f', future.Result f t
              = Some (("I slept for 2 seconds"%string, None),
                      Z.max t (made + 2 * Second), f'))
  /\ (forall D, done_at c = Some D -> D < made + 2 * Second ->
      exists f', future.Result f t
                 = Some ((""%string, Some (done_err c)),
                         Z.max t (Z.max made D), f')).
Proof.
  intros f. assert (HS : 0 < Second) by (unfold Second; lia).
  unfold f, future.Result, future.SlowFunction, future.goroutine_sends,
    future.goroutine_select, timeout.select, timeout.done_ready, Add.
  cbn [future.once future.made_at future.ctx future.coin]. split.
  - intros Hlive. destruct (done_at c) as [D|]; cbn [option_map].
    + specialize (Hlive D eq_refl).
      cmp_true (made + 2 * Second <? Z.max made D). eexists. reflexivity.
    + eexists. reflexivity.
  - intros D HD Hlt. rewrite HD. cbn [option_map].
    cmp_false (made + 2 * Second <? Z.max made D).
    cmp_true (Z.max made D <? made + 2 * Second).
    assert (HErr : Err c (Z.max made D) = Some (done_err c))
      by (unfold Err; rewrite HD; cmp_true (D <=? Z.max made D); reflexivity).
    rewrite HErr. eexists. reflexivity.
Qed.

(** The pair is fetched once: a second [Result] returns the pair of the
    first one at once, whatever has happened to the context since, and
    leaves the future as it is. *)
Theorem Future_result_is_fetched_once
    (t1 t2 : Time) (r : result) (at1 : Time) (f1 : future.InnerFuture) :
  future.Result (future.SlowFunction c made tie) t1 = Some (r, at1, f1) ->
  future.Result f1 t2 = Some (r, t2, f1).
Proof.
  unfold future.Result at 1. cbn [future.once future.SlowFunction].
  destruct (future.goroutine_sends _) as [[[r0 e0] ready]|]; [|discriminate].
  intros H. injection H as <- <- <-. reflexivity.
Qed.

End FutureFacts.

(** Runs: a context with a deadline one second after the start, and the
    second call of [Result] on a future that slept. *)
Lemma Future_result_is_timer_or_context_witness :
  exists f', future.Result
               (future.SlowFunction (timeout.with_deadline (1000 + Second)) 1000
                                    timeout.RecvResult) 1500
             = Some ((""%string, Some DeadlineExceeded),
                     Z.max 1500 (Z.max 1000 (1000 + Second)), f').
Proof.
  apply (proj2 (Future_result_is_timer_or_context
                  (timeout.with_deadline (1000 + Second)) 1000
                  timeout.RecvResult 1500) (1000 + Second)).
  - reflexivity.
  - unfold Second. lia.
Defined.

(** A future that has slept, asked again three seconds later. *)
Lemma Future_result_is_fetched_once_witness :
  let f1 := future.mkFuture 1000 Background timeout.RecvResult
              "I slept for 2 seconds"%string None true in
  future.Result f1 (5 * Second)
  = Some (("I slept for 2 seconds"%string, None), 5 * Second, f1).
Proof.
  intros f1.
  apply (Future_result_is_fetched_once Background 1000 timeout.RecvResult
           1500 (5 * Second) ("I slept for 2 seconds"%string, None)
           (Z.max 1500 (1000 + 2 * Second)) f1).
  reflexivity.
Defined.

(** ** Chord *)

Section ChordFacts.
Variable n : nat.

Lemma set_nth_spec {A : Type} (x : A) (l : list A) (i : nat) :
  (i < List.length l)%nat ->
  exists l', chord.set_nth i x l = Some l'
             /\ List.length l' = List.length l
             /\ nth_error l' i = Some x
             /\ forall j, j <> i -> nth_error l' j = nth_error l j.
Proof.
  revert i. induction l as [|y l IH]; intros [|i] Hi; simpl in *; try lia.
  - eexists. split; [reflexivity|]. repeat split. intros [|j] Hj; [congruence|reflexivity].
  - destruct (IH i ltac:(lia)) as (l' & Hset & Hlen & Hnth & Hother).
    rewrite Hset. eexists. split; [reflexivity|]. simpl. repeat split; try lia; try assumption.
    intros [|j] Hj; [reflexivity|]. simpl. apply Hother. congruence.
Qed.

Lemma latest_snoc (i : nat) (pre : list chord.input) (r : chord.input) :
  chord.latest i (pre ++ [r])
  = if Nat.eqb (chord.idx r) i then chord.value r else chord.latest i pre.
Proof. unfold chord.latest. rewrite fold_left_app. reflexivity. Qed.

Lemma nth_error_latest_values (pre : list chord.input) (j : nat) :
  nth_error (chord.latest_values n pre) j
  = if (j <? n)%nat then Some (chord.latest j pre) else None.
Proof.
  unfold chord.latest_values. rewrite nth_error_map, nth_error_seq.
  destruct (j <? n)%nat; reflexivity.
Qed.

Lemma length_latest_values (pre : list chord.input) :
  List.length (chord.latest_values n pre) = n.
Proof. unfold chord.latest_values. rewrite length_map, length_seq. reflexivity. Qed.

Lemma latest_values_snoc (pre : list chord.input) (r : chord.input) :
  (chord.idx r < n)%nat ->
  chord.set_nth (chord.idx r) (chord.value r) (chord.latest_values n pre)
  = Some (chord.latest_values n (pre ++ [r])).
Proof.
  intros Hr.
  destruct (set_nth_spec (chord.value r) (chord.latest_values n pre) (chord.idx r))
    as (l' & Hset & Hlen & Hnth & Hother).
  { rewrite length_latest_values. exact Hr. }
  rewrite Hset. f_equal. apply nth_error_ext. intros j.
  rewrite nth_error_latest_values, latest_snoc.
  destruct (Nat.eq_dec j (chord.idx r)) as [->|Hne].
  - rewrite Hnth, Nat.eqb_refl.
    replace (chord.idx r <? n)%nat with true by (symmetry; apply Nat.ltb_lt; lia).
    reflexivity.
  - rewrite (Hother j Hne), nth_error_latest_values.
    replace (Nat.eqb (chord.idx r) j) with false
      by (symmetry; apply Nat.eqb_neq; congruence).
    reflexivity.
Qed.

Lemma delivered_snoc (i : nat) (pre : list chord.input) (r : chord.input) :
  chord.delivered i (pre ++ [r])
  = (chord.delivered i pre + (if Nat.eqb (chord.idx r) i then 1 else 0))%nat.
Proof.
  unfold chord.delivered. rewrite filter_app, length_app. simpl.
  destruct (Nat.eqb (chord.idx r) i); reflexivity.
Qed.

Lemma trues_repeat_false (k : nat) : chord.trues (repeat false k) = 0%nat.
Proof. induction k; [reflexivity | exact IHk]. Qed.

Lemma trues_le_length (l : list bool) : (chord.trues l <= List.length l)%nat.
Proof.
  unfold chord.trues. induction l as [|[|] l IH]; simpl; lia.
Qed.

Lemma trues_full (l : list bool) :
  chord.trues l = List.length l ->
  forall i, (i < List.length l)%nat -> nth i l false = true.
Proof.
  induction l as [|b l IH]; intros Hfull i Hi; simpl in *; [lia|].
  pose proof (trues_le_length l) as Hle. unfold chord.trues in *.
  destruct b; simpl in *.
  - destruct i as [|i]; [reflexivity|]. apply IH; lia.
  - lia.
Qed.

Lemma trues_set (l l' : list bool) (i : nat) :
  nth_error l i = Some false ->
  chord.set_nth i true l = Some l' ->
  chord.trues l' = S (chord.trues l)
  /\ forall j, nth j l' false = if Nat.eqb j i then true else nth j l false.
Proof.
  revert i l'. induction l as [|b l IH]; intros [|i] l' Hnth Hset; simpl in *;
    try discriminate.
  - injection Hnth as ->. injection Hset as <-. split; [reflexivity|].
    intros [|j]; reflexivity.
  - destruct (chord.set_nth i true l) as [l''|] eqn:Hs; [|discriminate].
    injection Hset as <-. destruct (IH i l'' Hnth Hs) as [Ht Hj].
    unfold chord.trues in *. split.
    + destruct b; simpl; lia.
    + intros [|j]; [reflexivity|]. simpl. apply Hj.
Qed.


Lemma delivered_in (i : nat) (pre : list chord.input) :
  (0 < chord.delivered i pre)%nat -> In i (map chord.idx pre).
Proof.
  unfold chord.delivered. induction pre as [|r pre IH]; simpl; [lia|].
  destruct (Nat.eqb (chord.idx r) i) eqn:He.
  - intros _. left. apply Nat.eqb_eq, He.
  - intros H. right. apply IH, H.
Qed.

Ltac split_invariant :=
  unfold chord.invariant;
  cbn [chord.res chord.sent chord.count chord.emitted];
  split; [|split; [|split; [|split; [|split]]]].

Lemma invariant_start : chord.invariant n [] (chord.start n).
Proof.
  unfold chord.start. split_invariant.
  - apply nth_error_ext. intros j. rewrite nth_error_latest_values.
    destruct (j <? n)%nat eqn:Hj.
    + apply Nat.ltb_lt in Hj. rewrite nth_error_repeat by exact Hj. reflexivity.
    + apply Nat.ltb_ge in Hj. apply nth_error_None. rewrite repeat_length. exact Hj.
  - apply repeat_length.
  - rewrite trues_repeat_false. lia.
  - destruct n; [left; reflexivity | right; lia].
  - intros i Hi. rewrite nth_repeat. simpl. lia.
  - constructor.
Qed.

Lemma invariant_receive (pre : list chord.input) (st : chord.Collector)
    (r : chord.input) :
  Z.of_nat n <= int_max ->
  (chord.idx r < n)%nat ->
  chord.invariant n pre st ->
  exists st', chord.receive n st r = Some st'
              /\ chord.invariant n (pre ++ [r]) st'.
Proof.
  intros Hn Hr (Hres & Hlen & Hcount & Hpos & Hcover & Hout).
  unfold chord.receive. rewrite Hres, (latest_values_snoc pre r Hr).
  destruct (nth_error (chord.sent st) (chord.idx r)) as [was|] eqn:Hwas;
    [|apply nth_error_None in Hwas; lia].
  pose proof (trues_le_length (chord.sent st)) as Htle.
  assert (Hold : Forall (fun out =>
                    exists p q, pre ++ [r] = p ++ q
                                /\ out = chord.latest_values n p
                                /\ forall i, (i < n)%nat -> In i (map chord.idx p))
                  (chord.emitted st)).
  { eapply Forall_impl; [|exact Hout]. intros out (p & q & Hpq & Ho & Hall).
    exists p, (q ++ [r]). rewrite Hpq, app_assoc. auto. }
  assert (Hnthwas : nth (chord.idx r) (chord.sent st) false = was)
    by (apply nth_error_nth; exact Hwas).
  destruct was.
  - (* the source was already marked *)
    assert (Hc : (chord.count st =? 0) = false)
      by (apply Z.eqb_neq; destruct Hpos; lia).
    rewrite Hc. eexists. split; [reflexivity|].
    split_invariant; try assumption; [reflexivity|].
    intros i Hi. rewrite delivered_snoc. specialize (Hcover i Hi). lia.
  - (* first value of the source in this round *)
    destruct (set_nth_spec true (chord.sent st) (chord.idx r))
      as (sent1 & Hset & Hlen1 & _ & _); [lia|].
    rewrite Hset. destruct (trues_set _ _ _ Hwas Hset) as [Htrues Hnth1].
    assert (Hlt : (chord.trues (chord.sent st) < n)%nat).
    { destruct (Nat.eq_dec (chord.trues (chord.sent st)) n) as [Hfull|]; [|lia].
      rewrite <- Hlen in Hfull.
      pose proof (trues_full _ Hfull (chord.idx r) ltac:(lia)). congruence. }
    assert (Hdec : int_sub (chord.count st) 1 = chord.count st - 1).
    { unfold int_sub. apply wrap_int_id.
      unfold is_int, int_min, int_max in *. lia. }
    rewrite Hdec.
    destruct (chord.count st - 1 =? 0) eqn:Hz.
    + (* every source is marked: the slice is sent *)
      apply Z.eqb_eq in Hz. eexists. split; [reflexivity|].
      assert (Hfull1 : chord.trues sent1 = List.length sent1) by lia.
      assert (Hmarked : forall i, (i < n)%nat ->
                 (List.length (chord.emitted st) + 1
                  <= chord.delivered i (pre ++ [r]))%nat).
      { intros i Hi. rewrite delivered_snoc. specialize (Hcover i Hi).
        pose proof (trues_full _ Hfull1 i ltac:(lia)) as Hi1.
        rewrite Hnth1 in Hi1.
        destruct (Nat.eqb i (chord.idx r)) eqn:He.
        - apply Nat.eqb_eq in He. subst i. rewrite Nat.eqb_refl. lia.
        - rewrite Hi1 in Hcover. lia. }
      split_invariant.
      * reflexivity.
      * rewrite repeat_length. lia.
      * rewrite trues_repeat_false. lia.
      * right. lia.
      * intros i Hi. rewrite length_app, nth_repeat. cbn [List.length].
        specialize (Hmarked i Hi). lia.
      * apply Forall_app. split; [exact Hold|]. constructor; [|constructor].
        exists (pre ++ [r]), []. rewrite app_nil_r.
        split; [reflexivity|]. split; [reflexivity|].
        intros i Hi. apply delivered_in. specialize (Hmarked i Hi). lia.
    + apply Z.eqb_neq in Hz. eexists. split; [reflexivity|].
      split_invariant; try assumption.
      * reflexivity.
      * lia.
      * lia.
      * right. lia.
      * intros i Hi. rewrite delivered_snoc, Hnth1. specialize (Hcover i Hi).
        destruct (Nat.eqb i (chord.idx r)) eqn:He.
        -- apply Nat.eqb_eq in He. subst i. rewrite Nat.eqb_refl.
           rewrite Hnthwas in Hcover. lia.
        -- rewrite Nat.eqb_sym, He. lia.
Qed.

Lemma invariant_collect (inputs : list chord.input) :
  Z.of_nat n <= int_max ->
  Forall (fun r => (chord.idx r < n)%nat) inputs ->
  forall pre st, chord.invariant n pre st ->
    exists st', chord.collect_from n st inputs = Some st'
                /\ chord.invariant n (pre ++ inputs) st'.
Proof.
  intros Hn Hall. induction Hall as [|r rest Hr Hrest IH]; intros pre st Hinv.
  - exists st. rewrite app_nil_r. split; [reflexivity | exact Hinv].
  - destruct (invariant_receive pre st r Hn Hr Hinv) as (st1 & Hrecv & Hinv1).
    cbn [chord.collect_from]. rewrite Hrecv.
    destruct (IH (pre ++ [r]) st1 Hinv1) as (st' & Hrun & Hinv').
    exists st'. rewrite <- app_assoc in Hinv'. split; assumption.
Qed.

(** Every slice [Chord] sends has one entry per source; it holds, for
    each source, the last value that source had delivered when the slice
    was sent, and by then every source had delivered at least once.  A
    value that a source delivers twice before the slice is sent is
    overwritten. *)
Theorem Chord_sends_latest_values (inputs : list chord.input) :
  Z.of_nat n <= int_max ->
  Forall (fun r => (chord.idx r < n)%nat) inputs ->
  exists outs,
    chord.Chord n inputs = Some outs
    /\ Forall (fun out =>
                 List.length out = n
                 /\ exists p q, inputs = p ++ q
                                /\ out = chord.latest_values n p
                                /\ forall i, (i < n)%nat -> In i (map chord.idx p))
              outs.
Proof.
  intros Hn Hall.
  destruct (invariant_collect inputs Hn Hall [] (chord.start n) invariant_start)
    as (st & Hrun & (_ & _ & _ & _ & _ & Hout)).
  exists (chord.emitted st). unfold chord.Chord. rewrite Hrun.
  split; [reflexivity|]. cbn [app] in Hout.
  eapply Forall_impl; [|exact Hout]. intros out (p & q & Hpq & Ho & Hin).
  split; [rewrite Ho; apply length_latest_values|].
  exists p, q. auto.
Qed.

(** [Chord] sends no more slices than the least busy source delivered
    values: each slice needs a new value from every source. *)
Theorem Chord_sends_bounded_by_every_source (inputs : list chord.input) :
  Z.of_nat n <= int_max ->
  Forall (fun r => (chord.idx r < n)%nat) inputs ->
  exists outs,
    chord.Chord n inputs = Some outs
    /\ forall i, (i < n)%nat ->
         (List.length outs <= chord.delivered i inputs)%nat.
Proof.
  intros Hn Hall.
  destruct (invariant_collect inputs Hn Hall [] (chord.start n) invariant_start)
    as (st & Hrun & (_ & _ & _ & _ & Hcover & _)).
  exists (chord.emitted st). unfold chord.Chord. rewrite Hrun.
  split; [reflexivity|]. intros i Hi. specialize (Hcover i Hi).
  cbn [app] in Hcover. lia.
Qed.

End ChordFacts.

(** Runs: three sources; the first delivers twice before the others. *)
Lemma Chord_sends_latest_values_witness :
  let inputs := [chord.mkInput 0 1; chord.mkInput 0 2; chord.mkInput 1 1;
                 chord.mkInput 2 1; chord.mkInput 0 7] in
  exists outs,
    chord.Chord 3 inputs = Some outs
    /\ Forall (fun out =>
                 List.length out = 3%nat
                 /\ exists p q, inputs = p ++ q
                                /\ out = chord.latest_values 3 p
                                /\ forall i, (i < 3)%nat -> In i (map chord.idx p))
              outs.
Proof.
  intros inputs. apply (Chord_sends_latest_values 3 inputs).
  - vm_compute. discriminate.
  - repeat constructor.
Defined.

(** The same deliveries: one slice, and every source delivered at least
    once. *)
Lemma Chord_sends_bounded_by_every_source_witness :
  let inputs := [chord.mkInput 0 1; chord.mkInput 0 2; chord.mkInput 1 1;
                 chord.mkInput 2 1; chord.mkInput 0 7] in
  exists outs,
    chord.Chord 3 inputs = Some outs
    /\ forall i, (i < 3)%nat ->
         (List.length outs <= chord.delivered i inputs)%nat.
Proof.
  intros inputs. apply (Chord_sends_bounded_by_every_source 3 inputs).
  - vm_compute. discriminate.
  - repeat constructor.
Defined.

(** The same run, evaluated: one slice, with the second value of the
    first source. *)
Example Chord_run :
  chord.Chord 3 [chord.mkInput 0 1; chord.mkInput 0 2; chord.mkInput 1 1;
                 chord.mkInput 2 1; chord.mkInput 0 7]
  = Some [[2; 1; 1]].
Proof. reflexivity. Qed.

(** ** Sharded map *)

Lemma Sum32_range (str : string) : 0 <= sharding.Sum32 str < 2 ^ 32.
Proof.
  unfold sharding.Sum32.
  assert (H : forall l h, 0 <= h < 2 ^ 32 ->
                0 <= fold_left sharding.write_byte l h < 2 ^ 32).
  { induction l as [|c l IH]; intros h Hh; [exact Hh|].
    cbn [fold_left]. apply IH. unfold sharding.write_byte.
    apply Z.mod_pos_bound. lia. }
  apply H. unfold sharding.offset32. lia.
Qed.

Section ShardedMapFacts.
Context {K V : Type}.
Variable key_eq : K -> K -> bool.
Variable hashable : K -> bool.
Variable repr : K -> string.
Variable zero : V.
Variable max_len : Z.

Local Notation "'Shard'" := (@sharding.Shard K V).
Local Notation "'ShardedMap'" := (list (option (@sharding.Shard K V))).
Local Notation "'home'" := (sharding.home repr).
Local Notation "'Get'" := (sharding.Get key_eq hashable repr zero).
Local Notation "'Set''" := (sharding.Set' key_eq hashable repr).
Local Notation "'NewShardedMap'" := (@sharding.NewShardedMap K V max_len).
Local Notation "'full'" := (fun es : list (K * V) => Some (sharding.mkShard (Some es))).

Lemma home_in_range (n : nat) (k : K) : (0 < n)%nat -> (home n k < n)%nat.
Proof.
  intros Hn. unfold sharding.home. pose proof (Sum32_range (repr k)) as Hs.
  pose proof (Z.rem_bound_pos (sharding.Sum32 (repr k)) (Z.of_nat n)
                ltac:(lia) ltac:(lia)). lia.
Qed.

Lemma getShardIndex_home (m : ShardedMap) (k : K) :
  m <> [] ->
  sharding.getShardIndex repr m k = Some (Z.of_nat (home (List.length m) k)).
Proof.
  intros Hm. unfold sharding.getShardIndex, sharding.home.
  assert (Hlen : (0 < List.length m)%nat) by (destruct m; [congruence | simpl; lia]).
  cbv zeta. unfold sharding.ShardedMap.
  destruct (Z.of_nat (List.length m) =? 0) eqn:Hz;
    [apply Z.eqb_eq in Hz; lia|].
  pose proof (Sum32_range (repr k)) as Hs.
  pose proof (Z.rem_bound_pos (sharding.Sum32 (repr k)) (Z.of_nat (List.length m))
                ltac:(lia) ltac:(lia)).
  f_equal. rewrite Z2Nat.id by lia. reflexivity.
Qed.

Lemma getShard_home (m : ShardedMap) (k : K) :
  m <> [] ->
  sharding.getShard repr m k = nth_error m (home (List.length m) k)
  /\ exists p, nth_error m (home (List.length m) k) = Some p.
Proof.
  intros Hm. unfold sharding.getShard. rewrite (getShardIndex_home m k Hm).
  replace (Z.of_nat (home (List.length m) k) <? 0) with false
    by (symmetry; apply Z.ltb_ge; lia).
  rewrite Nat2Z.id. split; [reflexivity|].
  assert (Hlen : (0 < List.length m)%nat) by (destruct m; [congruence | simpl; lia]).
  pose proof (home_in_range (List.length m) k Hlen) as Hr.
  destruct (nth_error m (home (List.length m) k)) as [p|] eqn:Hn;
    [eauto | apply nth_error_None in Hn; lia].
Qed.

(** A slice without shards: every [Get] and every [Set] panics. *)
Lemma no_shard_panics (k : K) (v : V) :
  Get [] k = None /\ Set' [] k v = None.
Proof. split; reflexivity. Qed.

Lemma length_replace_shard (m : ShardedMap) (i : nat) (p : option Shard) :
  List.length (sharding.replace_shard m i p) = List.length m.
Proof. revert i. induction m as [|x m IH]; intros [|i]; simpl; auto. Qed.

Lemma nth_error_replace_shard (m : ShardedMap) (i j : nat) (p : option Shard) :
  (i < List.length m)%nat ->
  nth_error (sharding.replace_shard m i p) j
  = if Nat.eqb j i then Some p else nth_error m j.
Proof.
  revert i j. induction m as [|x m IH]; intros [|i] [|j] Hi; simpl in *;
    try lia; try reflexivity.
  apply IH. lia.
Qed.

Lemma initialized_nth (m : ShardedMap) (i : nat) (p : option Shard) :
  sharding.initialized m -> nth_error m i = Some p ->
  exists es, p = full es.
Proof.
  intros Hinit Hp. unfold sharding.initialized in Hinit.
  rewrite Forall_forall in Hinit. apply Hinit, (nth_error_In _ _ Hp).
Qed.

Lemma initialized_replace (m : ShardedMap) (i : nat) (es : list (K * V)) :
  sharding.initialized m ->
  sharding.initialized (sharding.replace_shard m i (full es)).
Proof.
  unfold sharding.initialized. revert i.
  induction m as [|x m IH]; intros [|i] Hinit; simpl.
  - constructor.
  - constructor.
  - inversion Hinit; subst. constructor; [eexists; reflexivity | assumption].
  - inversion Hinit; subst. constructor; [assumption | apply IH; assumption].
Qed.

Lemma initialized_new (n : nat) :
  sharding.initialized (repeat (full []) n).
Proof.
  unfold sharding.initialized. apply Forall_forall. intros p Hp.
  apply repeat_spec in Hp. subst p. eexists. reflexivity.
Qed.

Lemma keys_of_new (n : nat) :
  flat_map sharding.shard_keys (repeat (full []) n) = [].
Proof. induction n as [|n IH]; [reflexivity | exact IH]. Qed.

(** What [NewShardedMap] gives. *)
Lemma new_map_cases (nshards : Z) :
  (nshards < 0 \/ max_len < nshards -> NewShardedMap nshards = None)
  /\ (nshards = 0 -> 0 <= max_len ->
      exists m, NewShardedMap nshards = Some m
                /\ forall k v, Get m k = None /\ Set' m k v = None)
  /\ (0 < nshards <= max_len ->
      exists m, NewShardedMap nshards = Some m
                /\ Z.of_nat (List.length m) = nshards
                /\ sharding.initialized m
                /\ (forall k, Get m k = if hashable k then Some zero else None)
                /\ forall keys, sharding.Keys m keys -> keys = []).
Proof.
  unfold sharding.NewShardedMap. split; [|split].
  - intros [H|H].
    + cmp_true (nshards <? 0). reflexivity.
    + cmp_true (max_len <? nshards). rewrite orb_true_r. reflexivity.
  - intros -> Hmax. cmp_false (max_len <? 0). cbn [Z.ltb Z.compare orb].
    eexists. split; [reflexivity|]. intros k v. apply no_shard_panics.
  - intros H. cmp_false (nshards <? 0). cmp_false (max_len <? nshards).
    cbn [orb]. eexists. split; [reflexivity|].
    assert (Hne : repeat (full []) (Z.to_nat nshards) <> []).
    { destruct (Z.to_nat nshards) eqn:Hn; [lia | discriminate]. }
    split; [rewrite repeat_length; lia|].
    split; [apply initialized_new|]. split.
    + intros k. unfold sharding.Get.
      destruct (getShard_home _ k Hne) as [Hget [p Hp]].
      rewrite Hget, Hp. apply nth_error_In, repeat_spec in Hp.
      subst p. unfold sharding.read. destruct (hashable k); reflexivity.
    + intros keys [_ Hkeys]. rewrite keys_of_new in Hkeys.
      apply Permutation_nil, Permutation_sym, Hkeys.
Qed.

(** A key that cannot be hashed makes [Get] and [Set] panic on every
    map. *)
Lemma unhashable_panics (m : ShardedMap) (k : K) (v : V) :
  hashable k = false -> Get m k = None /\ Set' m k v = None.
Proof.
  intros Hk. unfold sharding.Get, sharding.Set', sharding.read, sharding.write.
  rewrite Hk. split.
  - destruct (sharding.getShard repr m k) as [[shard|]|]; reflexivity.
  - destruct (sharding.getShardIndex repr m k); [|reflexivity].
    destruct (sharding.getShard repr m k) as [[shard|]|]; reflexivity.
Qed.

(** A key that is equal to no key, itself included, is never found. *)
Lemma lookup_unequal (es : list (K * V)) (k : K) :
  (forall x, key_eq k x = false) -> sharding.lookup key_eq es k = None.
Proof.
  intros Hk. induction es as [|[k0 v0] es IH]; [reflexivity|].
  cbn [sharding.lookup]. rewrite Hk. exact IH.
Qed.

Lemma store_unequal (es : list (K * V)) (k : K) (v : V) :
  (forall x, key_eq k x = false) ->
  sharding.store key_eq es k v = es ++ [(k, v)].
Proof.
  intros Hk. induction es as [|[k0 v0] es IH]; [reflexivity|].
  cbn [sharding.store]. rewrite Hk, IH. reflexivity.
Qed.

(** *** Keys of a plain type *)

Section PlainKeys.
Hypothesis plain : sharding.plain_keys key_eq hashable.

Lemma key_eq_true (a b : K) : key_eq a b = true -> a = b.
Proof. apply (proj2 plain). Qed.

Lemma key_eq_false (a b : K) : key_eq a b = false -> a <> b.
Proof.
  intros Hf He. apply (proj2 plain) in He. congruence.
Qed.

Lemma key_eq_refl (a : K) : key_eq a a = true.
Proof. apply (proj2 plain). reflexivity. Qed.

Ltac key_cases a b :=
  let E := fresh "E" in
  destruct (key_eq a b) eqn:E;
  [apply key_eq_true in E | apply key_eq_false in E].

Lemma lookup_store (es : list (K * V)) (k k' : K) (v : V) :
  sharding.lookup key_eq (sharding.store key_eq es k v) k'
  = if key_eq k' k then Some v else sharding.lookup key_eq es k'.
Proof.
  induction es as [|[k0 v0] es IH]; simpl.
  - destruct (key_eq k' k); reflexivity.
  - key_cases k k0; simpl.
    + subst k0. destruct (key_eq k' k); reflexivity.
    + key_cases k' k0.
      * subst k0. key_cases k' k; [congruence | reflexivity].
      * exact IH.
Qed.



(** What [m.Set] does, for a map that has a shard. *)
Lemma Set_spec (m : ShardedMap) (k : K) (v : V) :
  sharding.initialized m -> m <> [] ->
  exists es,
    nth_error m (home (List.length m) k) = Some (full es)
    /\ Set' m k v
       = Some (sharding.replace_shard m (home (List.length m) k)
                 (full (sharding.store key_eq es k v))).
Proof.
  intros Hinit Hm. destruct (getShard_home m k Hm) as [Hget [p Hp]].
  destruct (initialized_nth m _ p Hinit Hp) as [es ->].
  exists es. split; [exact Hp|]. unfold sharding.Set', sharding.write.
  rewrite (getShardIndex_home m k Hm), Hget, Hp, Nat2Z.id.
  rewrite (proj1 plain). reflexivity.
Qed.

Lemma set_then_get (m : ShardedMap) (k : K) (v : V) :
  sharding.initialized m -> m <> [] ->
  exists m',
    Set' m k v = Some m'
    /\ sharding.initialized m'
    /\ List.length m' = List.length m
    /\ Get m' k = Some v
    /\ forall k', k' <> k -> Get m' k' = Get m k'.
Proof.
  intros Hinit Hm. destruct (Set_spec m k v Hinit Hm) as (es & Hes & Hset).
  eexists. split; [exact Hset|].
  set (m' := sharding.replace_shard m (home (List.length m) k)
               (full (sharding.store key_eq es k v))).
  assert (Hlen : List.length m' = List.length m) by apply length_replace_shard.
  assert (Hm' : m' <> []).
  { intros He. rewrite He in Hlen. destruct m; [congruence | discriminate]. }
  assert (Hin : (home (List.length m) k < List.length m)%nat).
  { apply nth_error_Some. rewrite Hes. discriminate. }
  split; [apply initialized_replace, Hinit|].
  split; [exact Hlen|]. split.
  - unfold sharding.Get. rewrite (proj1 (getShard_home m' k Hm')), Hlen.
    unfold m'. rewrite nth_error_replace_shard by exact Hin.
    rewrite Nat.eqb_refl. unfold sharding.read, sharding.entries.
    cbn [sharding.items]. rewrite (proj1 plain), lookup_store, key_eq_refl.
    reflexivity.
  - intros k' Hne. unfold sharding.Get.
    rewrite (proj1 (getShard_home m' k' Hm')), Hlen,
      (proj1 (getShard_home m k' Hm)).
    unfold m'. rewrite nth_error_replace_shard by exact Hin.
    destruct (Nat.eqb (home (List.length m) k') (home (List.length m) k)) eqn:He.
    + apply Nat.eqb_eq in He. rewrite He, Hes.
      unfold sharding.read, sharding.entries. cbn [sharding.items].
      rewrite lookup_store.
      key_cases k' k; [congruence | reflexivity].
    + reflexivity.
Qed.

Lemma set_all_get (pairs : list (K * V)) :
  forall m, sharding.initialized m -> m <> [] ->
    exists m', sharding.set_all key_eq hashable repr m pairs = Some m'
               /\ sharding.initialized m'
               /\ List.length m' = List.length m
               /\ forall k, Get m' k
                            = match sharding.last_set key_eq pairs k with
                              | Some v => Some v
                              | None => Get m k
                              end.
Proof.
  induction pairs as [|[k0 v0] pairs IH]; intros m Hinit Hm.
  - exists m. repeat split. exact Hinit.
  - destruct (set_then_get m k0 v0 Hinit Hm)
      as (m1 & Hset & Hinit1 & Hlen1 & Hsame & Hother).
    assert (Hm1 : m1 <> []).
    { intros He. rewrite He in Hlen1. destruct m; [congruence | discriminate]. }
    destruct (IH m1 Hinit1 Hm1) as (m' & Hall & Hinit' & Hlen' & Hget).
    exists m'. cbn [sharding.set_all sharding.last_set]. rewrite Hset.
    split; [exact Hall|]. split; [exact Hinit'|].
    split; [exact (eq_trans Hlen' Hlen1)|].
    intros k. rewrite Hget.
    destruct (sharding.last_set key_eq pairs k); [reflexivity|].
    key_cases k k0; [subst k0; exact Hsame | apply Hother, E].
Qed.

(** For a plain key type, on a map whose shards are all allocated and
    hold a map that is not nil, as [NewShardedMap] makes them, and that
    has at least one shard: [Set] does not panic and keeps the map so;
    afterwards [Get(key)] returns the value, every other key reads as
    before, and the number of shards is unchanged. *)
Theorem Sharded_get_after_set (m : ShardedMap) (k : K) (v : V) :
  sharding.initialized m -> m <> [] ->
  exists m',
    Set' m k v = Some m'
    /\ sharding.initialized m'
    /\ List.length m' = List.length m
    /\ Get m' k = Some v
    /\ forall k', k' <> k -> Get m' k' = Get m k'.
Proof. exact (set_then_get m k v). Qed.

(** For a plain key type: after any sequence of [Set] on a new map with
    at least one shard, and no more than can be allocated, the sharded
    map reads as one plain map would: [Get] returns the value last set
    for the key, or the zero value for a key never set. *)
Theorem Sharded_reads_as_one_map (nshards : Z) (pairs : list (K * V)) :
  0 < nshards <= max_len ->
  exists m0 m,
    NewShardedMap nshards = Some m0
    /\ sharding.set_all key_eq hashable repr m0 pairs = Some m
    /\ forall k, Get m k
                 = Some (match sharding.last_set key_eq pairs k with
                         | Some v => v
                         | None => zero
                         end).
Proof.
  intros Hn.
  destruct (proj2 (proj2 (new_map_cases nshards)) Hn)
    as (m0 & Hnew & Hlen & Hinit & Hzero & _).
  assert (Hm0 : m0 <> []) by (intros He; rewrite He in Hlen; simpl in Hlen; lia).
  destruct (set_all_get pairs m0 Hinit Hm0) as (m & Hall & _ & _ & Hget).
  exists m0, m. split; [exact Hnew|]. split; [exact Hall|].
  intros k. rewrite Hget, Hzero, (proj1 plain).
  destruct (sharding.last_set key_eq pairs k); reflexivity.
Qed.







End PlainKeys.


(** What the map does outside the plain keys and the maps of
    [NewShardedMap].  A key that cannot be hashed makes [Get] and [Set]
    panic.  A key equal to no key, itself included, as a NaN is, is set
    without a panic on an allocated map with a shard, adds an entry at
    every [Set], and still reads as the zero value.  On a shard whose
    [items] is nil, the zero value of [Shard], [Get] returns the zero
    value and [Set] panics. *)
Theorem Sharded_keys_that_are_not_plain (m : ShardedMap) (k : K) (v : V) :
  (hashable k = false -> Get m k = None /\ Set' m k v = None)
  /\ (hashable k = true -> (forall x, key_eq k x = false) ->
      sharding.initialized m -> m <> [] ->
      exists es,
        nth_error m (home (List.length m) k) = Some (full es)
        /\ Set' m k v
           = Some (sharding.replace_shard m (home (List.length m) k)
                     (full (es ++ [(k, v)])))
        /\ forall m', Set' m k v = Some m' -> Get m' k = Some zero)
  /\ (hashable k = true ->
      nth_error m (home (List.length m) k)
      = Some (Some (sharding.mkShard None)) ->
      Get m k = Some zero /\ Set' m k v = None).
Proof.
  split; [apply unhashable_panics|]. split.
  - intros Hk Hnan Hinit Hm.
    destruct (getShard_home m k Hm) as [Hget [p Hp]].
    destruct (initialized_nth m _ p Hinit Hp) as [es ->].
    assert (Hset : Set' m k v
                   = Some (sharding.replace_shard m (home (List.length m) k)
                             (full (es ++ [(k, v)])))).
    { unfold sharding.Set', sharding.write.
      rewrite (getShardIndex_home m k Hm), Hget, Hp, Nat2Z.id, Hk.
      cbn [sharding.items]. rewrite (store_unequal es k v Hnan). reflexivity. }
    exists es. split; [exact Hp|]. split; [exact Hset|].
    intros m' Hm'. rewrite Hset in Hm'. injection Hm' as <-.
    assert (Hin : (home (List.length m) k < List.length m)%nat).
    { apply nth_error_Some. rewrite Hp. discriminate. }
    assert (Hne : sharding.replace_shard m (home (List.length m) k)
                    (full (es ++ [(k, v)])) <> []).
    { intros He. apply (f_equal (@List.length _)) in He.
      rewrite length_replace_shard in He.
      destruct m; [congruence | discriminate]. }
    unfold sharding.Get. rewrite (proj1 (getShard_home _ k Hne)).
    rewrite length_replace_shard, nth_error_replace_shard by exact Hin.
    rewrite Nat.eqb_refl. unfold sharding.read. rewrite Hk.
    rewrite (lookup_unequal _ k Hnan). reflexivity.
  - intros Hk Hnil.
    assert (Hm : m <> []).
    { intros He. rewrite He in Hnil.
      destruct (home (List.length (@nil (option Shard))) k);
        simpl in Hnil; discriminate Hnil. }
    destruct (getShard_home m k Hm) as [Hget _].
    unfold sharding.Get, sharding.Set', sharding.read, sharding.write.
    rewrite (getShardIndex_home m k Hm), Hget, Hnil, Hk. split; reflexivity.
Qed.

End ShardedMapFacts.

(** Runs on a map of strings to integers with three shards; strings are
    plain keys. *)
Lemma string_keys_plain : sharding.plain_keys String.eqb (fun _ => true).
Proof. split; [reflexivity | apply String.eqb_eq]. Qed.

(** One [Set] on a new map of three shards. *)
Lemma Sharded_get_after_set_witness :
  let m := repeat (Some (sharding.mkShard (Some (@nil (string * Z))))) 3 in
  exists m',
    sharding.Set' String.eqb (fun _ => true) (fun k => k) m "key1"%string 1
    = Some m'
    /\ sharding.initialized m'
    /\ List.length m' = List.length m
    /\ sharding.Get String.eqb (fun _ => true) (fun k => k) 0 m' "key1"%string
       = Some 1
    /\ forall k', k' <> "key1"%string ->
         sharding.Get String.eqb (fun _ => true) (fun k => k) 0 m' k'
         = sharding.Get String.eqb (fun _ => true) (fun k => k) 0 m k'.
Proof.
  intros m.
  apply (Sharded_get_after_set String.eqb (fun _ => true) (fun k => k) 0
           string_keys_plain m "key1"%string 1).
  - repeat constructor; eexists; reflexivity.
  - discriminate.
Defined.


(** Three assignments, the key [key1] set twice. *)
Lemma Sharded_reads_as_one_map_witness :
  let pairs := [("key1", 1); ("key2", 2); ("key1", 3)]%string in
  exists m0 m,
    sharding.NewShardedMap (2 ^ 45) 3 = Some m0
    /\ sharding.set_all String.eqb (fun _ => true) (fun k => k) m0 pairs
       = Some m
    /\ forall k, sharding.Get String.eqb (fun _ => true) (fun k => k) 0 m k
                 = Some (match sharding.last_set String.eqb pairs k with
                         | Some v => v
                         | None => 0
                         end).
Proof.
  intros pairs.
  apply (Sharded_reads_as_one_map String.eqb (fun _ => true) (fun k => k) 0
           (2 ^ 45) string_keys_plain 3 pairs).
  lia.
Defined.


(** A map of floating-point keys, here by their bits as integers, with
    the NaN of bits 0 equal to no key: set twice, it is held twice and
    found by no [Get]. *)
Lemma Sharded_keys_that_are_not_plain_witness :
  let key_eq := fun a b : Z => negb (a =? 0) && (a =? b) in
  let m := [Some (sharding.mkShard (Some [(0, 5)]))] in
  exists es,
    nth_error m (sharding.home (fun _ => "<float64 Value>"%string)
                   (List.length m) 0)
    = Some (Some (sharding.mkShard (Some es)))
    /\ sharding.Set' key_eq (fun _ => true)
         (fun _ => "<float64 Value>"%string) m 0 7
       = Some (sharding.replace_shard m
                 (sharding.home (fun _ => "<float64 Value>"%string)
                    (List.length m) 0)
                 (Some (sharding.mkShard (Some (es ++ [(0, 7)])))))
    /\ forall m',
         sharding.Set' key_eq (fun _ => true)
           (fun _ => "<float64 Value>"%string) m 0 7 = Some m' ->
         sharding.Get key_eq (fun _ => true)
           (fun _ => "<float64 Value>"%string) 0 m' 0 = Some 0.
Proof.
  intros key_eq m.
  apply (proj1 (proj2 (Sharded_keys_that_are_not_plain key_eq (fun _ => true)
                         (fun _ => "<float64 Value>"%string) 0 m 0 7))).
  - reflexivity.
  - intros x. reflexivity.
  - repeat constructor. eexists. reflexivity.
  - discriminate.
Defined.

(** The hash on the test vectors of FNV-1a, and the shards of the keys of
    [main]. *)
Example Sum32_vectors :
  sharding.Sum32 ""%string = 0x811c9dc5
  /\ sharding.Sum32 "a"%string = 0xe40c292c
  /\ sharding.Sum32 "foobar"%string = 0xbf9cf968.
Proof. repeat split; reflexivity. Qed.

Example main_shards :
  map (sharding.getShardIndex (fun k => k)
         (repeat (Some (sharding.mkShard (Some (@nil (string * Z))))) 3))
      ["key1"; "key2"; "key3"; "key4"; "key5"; "key6"; "key7"]%string
  = [Some 2; Some 1; Some 0; Some 1; Some 0; Some 2; Some 1].
Proof. reflexivity. Qed.

(** ** Funnel *)

Section FunnelFacts.
Variable sources : list (list Z).

Lemma length_put {A : Type} (i : nat) (x : A) (l : list A) :
  List.length (fanin.put i x l) = List.length l.
Proof. revert i. induction l as [|y l IH]; intros [|i]; simpl; auto. Qed.

Lemma nth_error_put {A : Type} (i j : nat) (x : A) (l : list A) :
  (i < List.length l)%nat ->
  nth_error (fanin.put i x l) j = if Nat.eqb j i then Some x else nth_error l j.
Proof.
  revert i j. induction l as [|y l IH]; intros [|i] [|j] Hi; simpl in *;
    try lia; try reflexivity.
  apply IH. lia.
Qed.

Lemma running_put_false (l : list bool) (i : nat) :
  nth_error l i = Some true ->
  S (List.length (filter (fun b => b) (fanin.put i false l)))
  = List.length (filter (fun b => b) l).
Proof.
  revert i. induction l as [|b l IH]; intros [|i] Hi; simpl in *;
    try discriminate.
  - injection Hi as ->. reflexivity.
  - destruct b; simpl; rewrite <- (IH i Hi); reflexivity.
Qed.

Lemma none_running (l : list bool) (i : nat) (b : bool) :
  List.length (filter (fun b => b) l) = 0%nat ->
  nth_error l i = Some b -> b = false.
Proof.
  revert i. induction l as [|c l IH]; intros [|i] Hz Hi; simpl in *;
    try discriminate.
  - injection Hi as <-. destruct c; [discriminate | reflexivity].
  - destruct c; [discriminate|]. apply (IH i Hz Hi).
Qed.

Lemma received_from_snoc (i j : nat) (v : Z) (l : list (nat * Z)) :
  map snd (filter (fun r => Nat.eqb (fst r) i) (l ++ [(j, v)]))
  = map snd (filter (fun r => Nat.eqb (fst r) i) l)
    ++ (if Nat.eqb j i then [v] else []).
Proof.
  rewrite filter_app, map_app. cbn [filter fst]. destruct (Nat.eqb j i); reflexivity.
Qed.

Ltac split_funnel_invariant :=
  unfold fanin.invariant;
  cbn [fanin.pending fanin.forwarding fanin.closers fanin.wg fanin.dest_closed
       fanin.received fanin.panicked fanin.set_panicked];
  split; [|split; [|split; [|split; [|split; [|split; [|split;
    [|split; [|split]]]]]]]].

Lemma has_closed_repeat (n i : nat) : nth_error (repeat true n) i <> Some false.
Proof. intros Hi. apply nth_error_In, repeat_spec in Hi. discriminate. Qed.

Lemma funnel_invariant_start : fanin.invariant sources (fanin.Funnel sources).
Proof.
  unfold fanin.Funnel. split_funnel_invariant.
  - reflexivity.
  - apply repeat_length.
  - apply repeat_length.
  - intros i src Hi. exists src. split; [exact Hi | reflexivity].
  - intros i Hi. exfalso. exact (has_closed_repeat _ _ Hi).
  - f_equal. induction (List.length sources) as [|n IH]; [reflexivity|].
    simpl. rewrite <- IH. reflexivity.
  - discriminate.
  - intros _. split.
    + intros _ i Hi. exact (has_closed_repeat _ _ Hi).
    + intros i j Hi _. exfalso. exact (has_closed_repeat _ _ Hi).
  - discriminate.
  - discriminate.
Qed.

Lemma funnel_invariant_step (s : fanin.State) (e : fanin.Event) :
  Z.of_nat (List.length sources) <= int_max ->
  fanin.invariant sources s ->
  fanin.invariant sources (fanin.step s e).
Proof.
  intros Hmax Hinv. unfold fanin.step.
  destruct (fanin.panicked s) eqn:Hpanic; [exact Hinv|].
  pose proof Hinv as Hsame.
  destruct Hinv as (Hlp & Hlf & Hlc & Hsplit & Hdone & Hwg & Hclosed & Hclose
                    & Hsome & Htwo).
  specialize (Hclose Hpanic). destruct Hclose as [Hnone Hone]. clear Htwo.
  destruct e as [i|i|i].
  - (* Forward *)
    unfold fanin.forward.
    destruct (nth_error (fanin.forwarding s) i) as [[|]|] eqn:Hf;
      try exact Hsame.
    destruct (nth_error (fanin.pending s) i) as [[|v rest]|] eqn:Hp;
      try exact Hsame.
    destruct (fanin.dest_closed s) eqn:Hd.
    + (* a closed dest means that no forwarding goroutine runs *)
      exfalso. specialize (Hclosed eq_refl). rewrite Hclosed in Hwg.
      assert (Hz : List.length (filter (fun b => b) (fanin.forwarding s)) = 0%nat)
        by lia.
      pose proof (none_running _ _ _ Hz Hf). discriminate.
    + assert (Hi : (i < List.length (fanin.pending s))%nat)
        by (apply nth_error_Some; rewrite Hp; discriminate).
      split_funnel_invariant.
      * rewrite length_put. exact Hlp.
      * exact Hlf.
      * exact Hlc.
      * intros k src Hk. destruct (Hsplit k src Hk) as (r & Hr & Hsrc).
        unfold fanin.received_from in *. cbn [fanin.received].
        rewrite nth_error_put by exact Hi.
        rewrite (received_from_snoc k i v).
        destruct (Nat.eqb k i) eqn:He.
        -- apply Nat.eqb_eq in He. subst k. rewrite Hp in Hr. injection Hr as <-.
           exists rest. split; [reflexivity|]. rewrite Nat.eqb_refl.
           rewrite <- app_assoc. exact Hsrc.
        -- exists r. split; [exact Hr|]. rewrite Nat.eqb_sym, He, app_nil_r.
           exact Hsrc.
      * intros k Hk. rewrite nth_error_put by exact Hi.
        destruct (Nat.eqb k i) eqn:He.
        -- apply Nat.eqb_eq in He. subst k. congruence.
        -- apply Hdone, Hk.
      * exact Hwg.
      * discriminate.
      * intros _. split; [intros _; apply Hnone; exact eq_refl | exact Hone].
      * discriminate.
      * rewrite Hpanic. discriminate.
  - (* Finish *)
    unfold fanin.finish.
    destruct (nth_error (fanin.forwarding s) i) as [[|]|] eqn:Hf;
      try exact Hsame.
    destruct (nth_error (fanin.pending s) i) as [[|v rest]|] eqn:Hp;
      try exact Hsame.
    assert (Hi : (i < List.length (fanin.forwarding s))%nat)
      by (apply nth_error_Some; rewrite Hf; discriminate).
    pose proof (running_put_false _ _ Hf) as Hrun.
    assert (Hsub : int_sub (fanin.wg s) 1 = fanin.wg s - 1).
    { unfold int_sub. apply wrap_int_id.
      pose proof (filter_length_le (fun b => b) (fanin.forwarding s)).
      unfold is_int, int_min, int_max in *. lia. }
    split_funnel_invariant.
    + exact Hlp.
    + rewrite length_put. exact Hlf.
    + exact Hlc.
    + exact Hsplit.
    + intros k Hk. rewrite nth_error_put in Hk by exact Hi.
      destruct (Nat.eqb k i) eqn:He.
      * apply Nat.eqb_eq in He. subst k. exact Hp.
      * apply Hdone, Hk.
    + rewrite Hsub. lia.
    + intros Hd. rewrite Hsub. specialize (Hclosed Hd). lia.
    + intros _. split; assumption.
    + exact Hsome.
    + rewrite Hpanic. discriminate.
  - (* Close *)
    unfold fanin.close.
    destruct (nth_error (fanin.closers s) i) as [[|]|] eqn:Hc;
      try exact Hsame.
    destruct (fanin.wg s =? 0) eqn:Hz; try exact Hsame.
    apply Z.eqb_eq in Hz.
    assert (Hi : (i < List.length (fanin.closers s))%nat)
      by (apply nth_error_Some; rewrite Hc; discriminate).
    assert (Hnow : nth_error (fanin.put i false (fanin.closers s)) i = Some false)
      by (rewrite nth_error_put, Nat.eqb_refl by exact Hi; reflexivity).
    destruct (fanin.dest_closed s) eqn:Hd.
    + destruct (Hsome eq_refl) as (k & Hk).
      assert (Hki : k <> i) by (unfold fanin.has_closed in Hk; congruence).
      assert (Hk' : nth_error (fanin.put i false (fanin.closers s)) k = Some false).
      { rewrite nth_error_put by exact Hi.
        destruct (Nat.eqb k i) eqn:He; [reflexivity | exact Hk]. }
      split_funnel_invariant; try assumption.
      * rewrite length_put. exact Hlc.
      * discriminate.
      * intros _. exists i. exact Hnow.
      * intros _. exists k, i. unfold fanin.has_closed.
        cbn [fanin.closers fanin.set_panicked].
        split; [exact Hki | split; [exact Hk' | exact Hnow]].
    + split_funnel_invariant; try assumption.
      * rewrite length_put. exact Hlc.
      * intros _. exact Hz.
      * intros _. split; [discriminate|].
        intros a b Ha Hb. unfold fanin.has_closed in *. cbn in Ha, Hb.
        rewrite nth_error_put in Ha, Hb by exact Hi.
        destruct (Nat.eqb a i) eqn:Hea; destruct (Nat.eqb b i) eqn:Heb.
        -- apply Nat.eqb_eq in Hea, Heb. congruence.
        -- exfalso. apply (Hnone eq_refl b). exact Hb.
        -- exfalso. apply (Hnone eq_refl a). exact Ha.
        -- exfalso. apply (Hnone eq_refl a). exact Ha.
      * intros _. exists i. exact Hnow.
      * rewrite Hpanic. discriminate.
Qed.

Lemma funnel_invariant_run (schedule : list fanin.Event) :
  Z.of_nat (List.length sources) <= int_max ->
  forall s, fanin.invariant sources s ->
            fanin.invariant sources (fanin.run schedule s).
Proof.
  intros Hmax. unfold fanin.run.
  induction schedule as [|e rest IH]; intros s Hinv; [exact Hinv|].
  cbn [fold_left]. apply IH, funnel_invariant_step; assumption.
Qed.

End FunnelFacts.

(** Funnel: every source reaches the reader of [dest] once and in order.
    At any point of any run of the goroutines of [Funnel(sources...)], the
    values received from source [i] are a prefix of what that source
    carries, in its order; and when the WaitGroup is at zero, or [dest] is
    closed, all of them are received. *)
Theorem Funnel_forwards_each_source_in_order
  (sources : list (list Z)) (schedule : list fanin.Event)
  (i : nat) (src : list Z) :
  Z.of_nat (List.length sources) <= int_max ->
  nth_error sources i = Some src ->
  let st := fanin.run schedule (fanin.Funnel sources) in
  (exists rest, src = fanin.received_from i st ++ rest)
  /\ (fanin.wg st = 0 \/ fanin.dest_closed st = true ->
      fanin.received_from i st = src).
Proof.
  intros Hmax Hi st.
  destruct (funnel_invariant_run sources schedule Hmax _
              (funnel_invariant_start sources))
    as (_ & Hlf & _ & Hsplit & Hdone & Hwg & Hclosed & _).
  fold st in Hlf, Hsplit, Hdone, Hwg, Hclosed.
  destruct (Hsplit i src Hi) as (rest & Hrest & Hsrc).
  split; [exists rest; exact Hsrc|].
  intros Hzero.
  assert (Hz : fanin.wg st = 0) by (destruct Hzero; auto).
  assert (Hlen : (i < List.length (fanin.forwarding st))%nat).
  { rewrite Hlf. apply nth_error_Some. rewrite Hi. discriminate. }
  destruct (nth_error (fanin.forwarding st) i) as [b|] eqn:Hb;
    [|apply nth_error_None in Hb; lia].
  assert (b = false).
  { apply (none_running (fanin.forwarding st) i); [lia | exact Hb]. }
  subst b. rewrite (Hdone i Hb) in Hrest. injection Hrest as <-.
  rewrite app_nil_r in Hsrc. symmetry. exact Hsrc.
Qed.

(** A run: two sources, interleaved, both drained. *)
Lemma Funnel_forwards_each_source_in_order_witness :
  let st := fanin.run [fanin.Forward 0; fanin.Forward 1; fanin.Forward 0;
                       fanin.Finish 1; fanin.Finish 0]
              (fanin.Funnel [[1; 2]; [3]]) in
  (exists rest, [1; 2] = fanin.received_from 0 st ++ rest)
  /\ (fanin.wg st = 0 \/ fanin.dest_closed st = true ->
      fanin.received_from 0 st = [1; 2]).
Proof.
  apply (Funnel_forwards_each_source_in_order [[1; 2]; [3]]
           [fanin.Forward 0; fanin.Forward 1; fanin.Forward 0;
            fanin.Finish 1; fanin.Finish 0] 0%nat [1; 2]).
  - vm_compute. discriminate.
  - reflexivity.
Defined.

(** Funnel: the program panics exactly when a second closing goroutine has
    called [close(dest)].  One closing goroutine is started per source, so
    no run with at most one source panics, and forwarding never meets a
    closed [dest]. *)
Theorem Funnel_panics_iff_two_closers_ran
  (sources : list (list Z)) (schedule : list fanin.Event) :
  Z.of_nat (List.length sources) <= int_max ->
  let st := fanin.run schedule (fanin.Funnel sources) in
  fanin.panicked st = true
  <-> exists i j, i <> j
                  /\ (i < List.length sources)%nat
                  /\ (j < List.length sources)%nat
                  /\ fanin.has_closed st i /\ fanin.has_closed st j.
Proof.
  intros Hmax st.
  destruct (funnel_invariant_run sources schedule Hmax _
              (funnel_invariant_start sources))
    as (_ & _ & Hlc & _ & _ & _ & _ & Hclose & _ & Htwo).
  fold st in Hlc, Hclose, Htwo.
  assert (Hin : forall k, fanin.has_closed st k -> (k < List.length sources)%nat).
  { intros k Hk. rewrite <- Hlc. apply nth_error_Some.
    unfold fanin.has_closed in Hk. rewrite Hk. discriminate. }
  split.
  - intros Hp. destruct (Htwo Hp) as (i & j & Hij & Hci & Hcj).
    exists i, j. repeat (split; auto).
  - intros (i & j & Hij & _ & _ & Hci & Hcj).
    destruct (fanin.panicked st) eqn:Hp; [reflexivity|].
    exfalso. apply Hij. exact (proj2 (Hclose eq_refl) i j Hci Hcj).
Qed.

(** A run: two sources with one value each, drained, and both closing
    goroutines let run. *)
Lemma Funnel_panics_iff_two_closers_ran_witness :
  fanin.panicked
    (fanin.run [fanin.Forward 0; fanin.Finish 0; fanin.Forward 1;
                fanin.Finish 1; fanin.Close 0; fanin.Close 1]
       (fanin.Funnel [[1]; [2]])) = true.
Proof.
  apply (proj2 (Funnel_panics_iff_two_closers_ran [[1]; [2]]
                  [fanin.Forward 0; fanin.Finish 0; fanin.Forward 1;
                   fanin.Finish 1; fanin.Close 0; fanin.Close 1]
                  ltac:(vm_compute; discriminate))).
  exists 0%nat, 1%nat.
  split; [discriminate|].
  split; [simpl; lia|]. split; [simpl; lia|].
  split; reflexivity.
Defined.

(** Funnel: with two sources or more, the closing goroutines panic.  Once
    every forwarding goroutine has ended, letting the closing goroutines of
    any two different sources run ends in a panic: the second one closes a
    closed channel. *)
Theorem Funnel_two_closers_panic_after_drain
  (sources : list (list Z)) (schedule : list fanin.Event) (i j : nat) :
  Z.of_nat (List.length sources) <= int_max ->
  let st := fanin.run schedule (fanin.Funnel sources) in
  fanin.wg st = 0 ->
  (i < List.length sources)%nat -> (j < List.length sources)%nat -> i <> j ->
  fanin.panicked (fanin.run [fanin.Close i; fanin.Close j] st) = true.
Proof.
  intros Hmax st Hz Hi Hj Hij.
  destruct (funnel_invariant_run sources schedule Hmax _
              (funnel_invariant_start sources))
    as (_ & _ & Hlc & _ & _ & _ & _ & Hclose & _ & _).
  fold st in Hlc, Hclose.
  unfold fanin.run. cbn [fold_left].
  unfold fanin.step at 2.
  destruct (fanin.panicked st) eqn:Hp.
  { unfold fanin.step. rewrite Hp. exact Hp. }
  destruct (Hclose eq_refl) as [Hnone Hone].
  assert (Hci : exists b, nth_error (fanin.closers st) i = Some b).
  { destruct (nth_error (fanin.closers st) i) as [b|] eqn:Hb;
      [exists b; reflexivity | apply nth_error_None in Hb; lia]. }
  assert (Hcj : exists b, nth_error (fanin.closers st) j = Some b).
  { destruct (nth_error (fanin.closers st) j) as [b|] eqn:Hb;
      [exists b; reflexivity | apply nth_error_None in Hb; lia]. }
  destruct Hci as (bi & Hbi). destruct Hcj as (bj & Hbj).
  assert (Hilen : (i < List.length (fanin.closers st))%nat) by lia.
  unfold fanin.close at 1. rewrite Hbi.
  destruct bi.
  - rewrite Hz. cbn [Z.eqb].
    destruct (fanin.dest_closed st) eqn:Hd.
    + (* dest is closed already: the closer of [i] panics *)
      unfold fanin.step. reflexivity.
    + (* the closer of [i] closes dest, the closer of [j] panics *)
      assert (bj = true).
      { destruct bj; [reflexivity|]. exfalso. exact (Hnone eq_refl j Hbj). }
      subst bj.
      unfold fanin.step, fanin.close.
      cbn [fanin.panicked fanin.closers fanin.wg fanin.dest_closed
           fanin.set_panicked].
      rewrite Hp, nth_error_put by exact Hilen.
      assert (Hne : Nat.eqb j i = false) by (apply Nat.eqb_neq; congruence).
      rewrite Hne, Hbj. reflexivity.
  - (* the closer of [i] has run: the closer of [j] meets a closed dest *)
    assert (bj = true).
    { destruct bj; [reflexivity|]. exfalso. apply Hij. exact (Hone i j Hbi Hbj). }
    subst bj.
    assert (Hd : fanin.dest_closed st = true).
    { destruct (fanin.dest_closed st) eqn:Hd; [reflexivity|].
      exfalso. exact (Hnone eq_refl i Hbi). }
    unfold fanin.step, fanin.close. rewrite Hp, Hbj, Hz, Hd. reflexivity.
Qed.

(** A run: three sources as in [main], drained, then the closing goroutines
    of the last two. *)
Lemma Funnel_two_closers_panic_after_drain_witness :
  fanin.panicked
    (fanin.run [fanin.Close 2; fanin.Close 1]
       (fanin.run [fanin.Forward 0; fanin.Forward 1; fanin.Forward 2;
                   fanin.Finish 0; fanin.Finish 1; fanin.Finish 2]
          (fanin.Funnel [[1]; [1]; [1]]))) = true.
Proof.
  apply (Funnel_two_closers_panic_after_drain [[1]; [1]; [1]]
           [fanin.Forward 0; fanin.Forward 1; fanin.Forward 2;
            fanin.Finish 0; fanin.Finish 1; fanin.Finish 2] 2%nat 1%nat).
  - vm_compute. discriminate.
  - reflexivity.
  - simpl. lia.
  - simpl. lia.
  - discriminate.
Defined.

(** Funnel: [dest] is closed by a closing goroutine only, and there is one
    per source.  With no source at all [dest] is never closed, in any run:
    a reader that ranges over it waits for ever. *)
Theorem Funnel_closes_only_with_a_source
  (sources : list (list Z)) (schedule : list fanin.Event) :
  Z.of_nat (List.length sources) <= int_max ->
  fanin.dest_closed (fanin.run schedule (fanin.Funnel sources)) = true ->
  sources <> []
  /\ exists i, (i < List.length sources)%nat
               /\ fanin.has_closed (fanin.run schedule (fanin.Funnel sources)) i.
Proof.
  intros Hmax Hd.
  destruct (funnel_invariant_run sources schedule Hmax _
              (funnel_invariant_start sources))
    as (_ & _ & Hlc & _ & _ & _ & _ & _ & Hsome & _).
  destruct (Hsome Hd) as (i & Hi).
  assert (Hlen : (i < List.length sources)%nat).
  { rewrite <- Hlc. apply nth_error_Some. unfold fanin.has_closed in Hi.
    rewrite Hi. discriminate. }
  split.
  - intros ->. simpl in Hlen. lia.
  - exists i. split; [exact Hlen | exact Hi].
Qed.

(** A run: one source, drained and closed. *)
Lemma Funnel_closes_only_with_a_source_witness :
  [[7]] <> []
  /\ exists i, (i < 1)%nat
               /\ fanin.has_closed
                    (fanin.run [fanin.Forward 0; fanin.Finish 0; fanin.Close 0]
                       (fanin.Funnel [[7]])) i.
Proof.
  apply (Funnel_closes_only_with_a_source [[7]]
           [fanin.Forward 0; fanin.Finish 0; fanin.Close 0]).
  - vm_compute. discriminate.
  - reflexivity.
Defined.
